(** * Database schema migrations: plan compiler and execution worker

    A shallow embedding of the Go package [migration]: the schema
    registry ([Schema.Define], [Schema.complete], [Schema.Err]), the plan
    compiler ([newPlan]), the forgiving time scanner ([timeVal.Scan]) and
    the execution worker ([Worker.Up], [Down], [Goto], [Force], [Lock],
    [Unlock], [Version], [Versions]) with the version summary it derives
    from the persisted rows. *)

From Stdlib Require Import ZArith Ascii String DecimalString DecimalPos DecimalZ.
From stdpp Require Import gmap strings list sorting.

Open Scope Z_scope.

(** ** Small helpers shared by the whole development *)

(** [%d] of [fmt.Sprintf] applied to an integer. *)
Definition fmt_d (z : Z) : string := NilZero.string_of_int (Z.to_int z).

(** Go's [int] and [int64] are 64-bit two's complement: [wrap64] is the
    value an arithmetic result is reduced to. *)
Definition wrap64 (z : Z) : Z := (z + 2 ^ 63) `mod` 2 ^ 64 - 2 ^ 63.

(** [sort.Slice(x, less)]: the source only ever sorts slices whose keys
    are pairwise distinct, for which every correct sort returns the same
    slice; insertion sort is used here. *)
Fixpoint insert_by {A} (less : A → A → bool) (x : A) (l : list A) : list A :=
  match l with
  | [] => [x]
  | y :: l' => if less x y then x :: y :: l' else y :: insert_by less x l'
  end.

Definition sort_Slice {A} (less : A → A → bool) (l : list A) : list A :=
  foldr (insert_by less) [] l.

(** ** Errors of a schema definition (migration.go) *)

(** [type VersionID int64]. *)
Abbreviation VersionID := Z (only parsing).

(** [type Error struct]; the fields are prefixed, [Version] being the
    name of the runtime record below. *)
Record Error := mkError { e_Version : VersionID; e_Description : string }.

(** [type Errors]. *)
Abbreviation Errors := (list Error) (only parsing).

(** [Error.Error]: ["%d: %s"]. *)
Definition Error_Error (e : Error) : string :=
  fmt_d (e_Version e) +:+ ": " +:+ e_Description e.

(** A location of the store of definitions (see below). *)
Abbreviation loc := nat (only parsing).

Section Migration.

(** The part of the database that the migrations themselves act on (the
    user's tables, views and rows).  A command or a Go function run
    against it gives the resulting data and [None], or an error text. *)
Variable Data : Type.

Definition effect := Data → Data * option string.

(** A [time.Time]: the instant, as seconds and nanoseconds since the Unix
    epoch, and the zone it is shown in. *)
Inductive zone :=
| UTC
| Local
| FixedZone (offset_seconds : Z).

Record Time := mkTime { t_sec : Z; t_nsec : Z; t_zone : zone }.

(** The surroundings the package runs in:
    - [exec_sql]: what the backend does with the text of an SQL/DDL
      command;
    - [time_Parse]: [time.Parse(layout, value)] of Go's standard library,
      [None] when it reports an error;
    - [clock]: the time [time.Now()] shows at its [n]-th reading;
    - [duplicate_key]: the backend's error text for an insert that
      violates the primary key. *)
Record Env := mkEnv {
  exec_sql : string → effect;
  time_Parse : string → string → option Time;
  clock : nat → Time;
  duplicate_key : string
}.

Variable env : Env.

(** ** Actions and definitions *)

(** [type action struct]. *)
Record action := mkAction {
  sql : string;
  dbFunc : option effect;
  txFunc : option effect;
  replayUp : option VersionID
}.

Definition zero_action : action := mkAction "" None None None.

(** [type Action], a function on a pointer to an [action]: the
    package's four constructors. *)
Inductive Action :=
| Command (s : string)
| DBFunc (f : effect)
| TxFunc (f : effect)
| Replay (id : VersionID).

(** Calling an [Action] on an [action] sets one field of it. *)
Definition run_Action (f : Action) (a : action) : action :=
  match f with
  | Command s => mkAction s (dbFunc a) (txFunc a) (replayUp a)
  | DBFunc g => mkAction (sql a) (Some g) (txFunc a) (replayUp a)
  | TxFunc g => mkAction (sql a) (dbFunc a) (Some g) (replayUp a)
  | Replay id => mkAction (sql a) (dbFunc a) (txFunc a) (Some id)
  end.

(** [type Definition struct] ([Definition] is a reserved word here); a
    nil [Action] is [None]. *)
Record Defn := mkDefinition {
  d_id : VersionID;
  upAction : option Action;
  upCount : Z;
  downAction : option Action;
  downCount : Z
}.

Definition newDefinition (id : VersionID) : Defn :=
  mkDefinition id None 0 None 0.

Definition set_up (a : option Action) (d : Defn) : Defn :=
  mkDefinition (d_id d) a (wrap64 (upCount d + 1)) (downAction d) (downCount d).

Definition set_down (a : option Action) (d : Defn) : Defn :=
  mkDefinition (d_id d) (upAction d) (upCount d) a (wrap64 (downCount d + 1)).

(** [Definition.errs]. *)
Definition Definition_errs (d : Defn) : Errors :=
  (if upCount d =? 0 then [mkError (d_id d) "up migration not defined"] else [])
  ++ (if 1 <? upCount d
      then [mkError (d_id d) ("up migration defined " +:+ fmt_d (upCount d) +:+ " times")]
      else [])
  ++ (if downCount d =? 0 then [mkError (d_id d) "down migration not defined"] else [])
  ++ (if 1 <? downCount d
      then [mkError (d_id d) ("down migration defined " +:+ fmt_d (downCount d) +:+ " times")]
      else []).

(** ** The store of definitions

    [Schema.Define] hands out a pointer to a definition that the caller
    goes on to mutate with [Up], [Down], [UpAction] and [DownAction] while the
    schema keeps the same pointer in its map.  The store makes that
    sharing explicit: a location is an index into the list of all
    definitions allocated so far. *)

Abbreviation heap := (list Defn) (only parsing).

Definition Definition_UpAction (a : option Action) (l : loc) (h : heap) : heap :=
  alter (set_up a) l h.

Definition Definition_Up (s : string) (l : loc) (h : heap) : heap :=
  Definition_UpAction (Some (Command s)) l h.

Definition Definition_DownAction (a : option Action) (l : loc) (h : heap) : heap :=
  alter (set_down a) l h.

Definition Definition_Down (s : string) (l : loc) (h : heap) : heap :=
  Definition_DownAction (Some (Command s)) l h.

(** ** Plans (the plan compiler) *)

(** [type migrationPlan struct]. *)
Record migrationPlan := mkPlan {
  mp_id : VersionID;
  mp_up : action;
  mp_down : action;
  mp_errs : Errors
}.

(** The closure [replayUp] of [newPlan], with the plan's error list
    threaded through. *)
Definition resolve_replay (pid : VersionID) (plans : gmap Z migrationPlan)
    (a : action) (es : Errors) : action * Errors :=
  match replayUp a with
  | None => (a, es)
  | Some replayID =>
      if pid <=? replayID
      then (a, es ++ [mkError pid "replay must specify an earlier version"])
      else match plans !! replayID with
           | None =>
               (a, es ++ [mkError pid ("replay refers to unknown version " +:+ fmt_d replayID)])
           | Some prevPlan => (mp_up prevPlan, es)
           end
  end.

Definition apply_opt (f : option Action) : action :=
  match f with
  | Some g => run_Action g zero_action
  | None => zero_action
  end.

Definition newPlan (def : Defn) (plans : gmap Z migrationPlan) : migrationPlan :=
  let '(up, es1) :=
    resolve_replay (d_id def) plans (apply_opt (upAction def)) (Definition_errs def) in
  let '(down, es2) :=
    resolve_replay (d_id def) plans (apply_opt (downAction def)) es1 in
  mkPlan (d_id def) up down es2.

(** ** The schema registry (schema.go) *)

Record Schema := mkSchema {
  MigrationsTable : string;
  definitions : gmap Z loc;
  plans : option (list migrationPlan);
  errs : Errors
}.

Definition empty_Schema : Schema := mkSchema "" ∅ None [].

(** [Schema.Define]: the new definition is allocated first; it is
    registered only when the id is free. *)
Definition Define (id : VersionID) (h : heap) (s : Schema) : heap * Schema * loc :=
  let d := length h in
  let h' := h ++ [newDefinition id] in
  match definitions s !! id with
  | Some _ =>
      (h',
       mkSchema (MigrationsTable s) (definitions s) None
         (errs s ++ [mkError id "defined more than once"]),
       d)
  | None =>
      (h', mkSchema (MigrationsTable s) (<[id := d]> (definitions s)) None (errs s), d)
  end.

(** The ids of the definitions, in ascending order. *)
Definition sorted_ids (defs : gmap Z loc) : list VersionID :=
  sort_Slice Z.ltb ((map_to_list defs).*1).

(** The loop of [Schema.complete]; a location outside the store does not
    occur in Go and gives [None]. *)
Fixpoint compile_loop (h : heap) (defs : gmap Z loc) (ids : list VersionID)
    (acc : list migrationPlan) (pm : gmap Z migrationPlan)
    : option (list migrationPlan) :=
  match ids with
  | [] => Some acc
  | id :: ids' =>
      l ← defs !! id;
      d ← h !! l;
      let p := newPlan d pm in
      compile_loop h defs ids' (acc ++ [p]) (<[id := p]> pm)
  end.

Definition compile (h : heap) (defs : gmap Z loc) : option (list migrationPlan) :=
  compile_loop h defs (sorted_ids defs) [] ∅.

(** [Schema.complete]. *)
Definition complete (h : heap) (s : Schema) : option Schema :=
  match plans s with
  | Some _ => Some s
  | None =>
      ps ← compile h (definitions s);
      Some (mkSchema (MigrationsTable s) (definitions s) (Some ps) (errs s))
  end.

(** [Schema.Err]: the completed schema and the errors ([[]] for nil). *)
Definition Err (h : heap) (s : Schema) : option (Schema * Errors) :=
  s' ← complete h s;
  Some (s', errs s' ++ concat (mp_errs <$> default [] (plans s'))).


(** ** Time values and the forgiving scanner (timeVal) *)

(** [time.Unix(sec, 0).UTC()]. *)
Definition time_Unix_UTC (sec : Z) : Time := mkTime sec 0 UTC.

Definition epoch : Time := time_Unix_UTC 0.

(** What [database/sql] hands to a [Scanner] (a [driver.Value]); a
    [float64] is given by its bits. *)
Inductive Value :=
| VNil
| VInt64 (v : Z)
| VFloat64 (bits : Z)
| VBool (b : bool)
| VBytes (b : list Z)
| VString (s : string)
| VTime (t : Time).

Record timeVal := mkTimeVal { tv_Time : Time }.

Definition sqlite_layout : string := "2006-01-02 15:04:05Z07:00".
Definition RFC3339 : string := "2006-01-02T15:04:05Z07:00".
Definition RFC3339Nano : string := "2006-01-02T15:04:05.999999999Z07:00".

(** The loop over the formats: the first one that parses wins. *)
Fixpoint parse_formats (formats : list string) (v : string) : option Time :=
  match formats with
  | [] => None
  | format :: rest =>
      match time_Parse env format v with
      | Some tm => Some tm
      | None => parse_formats rest v
      end
  end.

(** [timeVal.Scan]: the scanned value and the error returned. *)
Definition Scan (src : Value) : timeVal * option string :=
  match src with
  | VNil => (mkTimeVal epoch, None)
  | VTime v => (mkTimeVal v, None)
  | VString v =>
      match parse_formats [sqlite_layout; RFC3339; RFC3339Nano] v with
      | Some tm => (mkTimeVal tm, None)
      | None => (mkTimeVal epoch, None)
      end
  | VInt64 v => (mkTimeVal (time_Unix_UTC v), None)
  | _ => (mkTimeVal epoch, None)
  end.

(** ** The version table and the drivers (driver.go) *)

(** [type Version struct]. *)
Record Version := mkVersion {
  ID : VersionID;
  AppliedAt : option Time;
  Failed : bool;
  Locked : bool;
  Up : string;
  Down : string
}.

(** A row of the migrations table, keyed by its [id] (the primary key):
    the columns [applied_at], [failed] and [locked]. *)
Record row := mkRow { applied_at : Value; failed : bool; locked : bool }.

Inductive driver := postgres | sqlite | mysql.

Definition SupportsTransactionalDDL (d : driver) : bool :=
  match d with
  | postgres => true
  | sqlite => true
  | mysql => false
  end.

Definition PackageNames (d : driver) : list string :=
  match d with
  | postgres => ["pq"]
  | sqlite => ["sqlite3"]
  | mysql => ["mysql"]
  end.

Definition drivers : list driver := [postgres; sqlite; mysql].

Definition string_eqb (a b : string) : bool := bool_decide (a = b).

(** [findDriver], from the package name of the connection's driver. *)
Definition findDriver (pkgname : string) : option driver :=
  find (λ d, existsb (string_eqb pkgname) (PackageNames d)) drivers.

(** [commonListVersions]: [select ... order by id], each row scanned
    into a fresh [Version]. *)
Definition scan_row (kr : Z * row) : Version :=
  mkVersion kr.1 (Some (tv_Time (Scan (applied_at kr.2)).1))
    (failed kr.2) (locked kr.2) "" "".

Definition ListVersions (t : gmap Z row) : list Version :=
  scan_row <$> sort_Slice (λ a b, a.1 <? b.1) (map_to_list t).

(** [update ... set failed = ? where id = ?] and the same for [locked]. *)
Definition set_failed (b : bool) (r : row) : row := mkRow (applied_at r) b (locked r).
Definition set_locked (b : bool) (r : row) : row := mkRow (applied_at r) (failed r) b.

(** ** The version summary *)

(** [type versionSummary struct]. *)
Record versionSummary := mkSummary {
  vs_id : VersionID;
  versions : list Version;
  applied : list migrationPlan;
  unapplied : list migrationPlan;
  vmap : gmap Z Version
}.

(** While the summary is built, [vs.versions] and [vs.vmap] hold pointers
    to the same [Version] objects, and the loop over the plans writes
    [Up] and [Down] through them.  An object is named here by its
    position in [vs.versions] before that slice is sorted: the map holds
    positions, and a write alters the slice at that position. *)
Record building := mkBuilding {
  b_versions : list Version;
  b_applied : list migrationPlan;
  b_unapplied : list migrationPlan;
  b_vmap : gmap Z nat
}.

(** The first loop of [getVersionSummaryAllowFailed]: the highest id, the
    map from ids to objects and the set of applied ids. *)
Fixpoint index_rows (i : nat) (rows : list Version)
    (acc : VersionID * gmap Z nat * gset Z) : VersionID * gmap Z nat * gset Z :=
  match rows with
  | [] => acc
  | ver :: rows' =>
      let '(vid, vm, aset) := acc in
      index_rows (S i) rows'
        (if vid <? ID ver then ID ver else vid, <[ID ver := i]> vm, {[ID ver]} ∪ aset)
  end.

Definition render (a : action) : string :=
  match dbFunc a, txFunc a with
  | Some _, _ => "(DBFunc)"
  | None, Some _ => "(TxFunc)"
  | None, None => sql a
  end.

Definition set_Up_Down (plan : migrationPlan) (ver : Version) : Version :=
  mkVersion (ID ver) (AppliedAt ver) (Failed ver) (Locked ver)
    (render (mp_up plan)) (render (mp_down plan)).

(** The loop over the plans; [None] is the nil dereference of a [ver]
    taken from the map for an id that has no entry. *)
Fixpoint partition_plans (aset : gset Z) (ps : list migrationPlan) (b : building)
    : option building :=
  match ps with
  | [] => Some b
  | plan :: ps' =>
      if bool_decide (mp_id plan ∈ aset) then
        i ← b_vmap b !! mp_id plan;
        partition_plans aset ps'
          (mkBuilding (alter (set_Up_Down plan) i (b_versions b))
             (b_applied b ++ [plan]) (b_unapplied b) (b_vmap b))
      else
        let i := length (b_versions b) in
        let ver := mkVersion (mp_id plan) None false false "" "" in
        partition_plans aset ps'
          (mkBuilding (b_versions b ++ [set_Up_Down plan ver])
             (b_applied b) (b_unapplied b ++ [plan]) (<[mp_id plan := i]> (b_vmap b)))
  end.

(** The summary of the listed rows [rows] for the plans [ps]. *)
Definition summarize (ps : list migrationPlan) (rows : list Version)
    : option versionSummary :=
  let '(vid, vm, aset) := index_rows 0 rows (0, ∅, ∅) in
  b ← partition_plans aset ps (mkBuilding rows [] [] vm);
  Some (mkSummary vid
          (sort_Slice (λ v1 v2, ID v1 <? ID v2) (b_versions b))
          (sort_Slice (λ p1 p2, mp_id p2 <? mp_id p1) (b_applied b))
          (sort_Slice (λ p1 p2, mp_id p1 <? mp_id p2) (b_unapplied b))
          (omap (λ i, b_versions b !! i) (b_vmap b))).

(** ** The execution worker *)

(** Results of the worker's functions: a value, a returned error (by its
    text) or a run-time panic. *)
Inductive res (A : Type) :=
| Ok (a : A)
| Raise (e : string)
| Panic.

Arguments Ok {A} a.
Arguments Raise {A} e.
Arguments Panic {A}.

(** What the worker acts on: the migrations table (a table that was never
    created reads as empty once [init] has run), the user's data, the
    number of readings of the clock taken so far, the calls of [LogFunc],
    and the worker's [initCalled] flag. *)
Record State := mkState {
  tbl : gmap Z row;
  data : Data;
  ticks : nat;
  logs : list (list string);
  initCalled : bool
}.

Definition M (A : Type) : Type := State → res A * State.

Definition ret {A} (a : A) : M A := λ st, (Ok a, st).

Definition raise {A} (e : string) : M A := λ st, (Raise e, st).

Definition panic {A} : M A := λ st, (Panic, st).

Definition bind {A B} (m : M A) (k : A → M B) : M B :=
  λ st,
    match m st with
    | (Ok a, st') => k a st'
    | (Raise e, st') => (Raise e, st')
    | (Panic, st') => (Panic, st')
    end.

Notation "'let*' x := m 'in' k" := (bind m (λ x, k))
  (at level 10, x pattern, m at level 100, k at level 200).

Notation "m ;; k" := (bind m (λ _, k))
  (at level 100, k at level 200, right associativity).

Definition lift {A} (r : res A) : M A := λ st, (r, st).

(** [wrapf(err, format, args...)]: the error reads ["msg: err"]. *)
Definition wrapf (e msg : string) : string := msg +:+ ": " +:+ e.

Definition wrapping {A} (msg : string) (m : M A) : M A :=
  λ st,
    match m st with
    | (Raise e, st') => (Raise (wrapf e msg), st')
    | r => r
    end.

Definition set_tbl (t : gmap Z row) (st : State) : State :=
  mkState t (data st) (ticks st) (logs st) (initCalled st).

Definition set_data (d : Data) (st : State) : State :=
  mkState (tbl st) d (ticks st) (logs st) (initCalled st).

(** [Worker.log]. *)
Definition log (args : list string) : M unit :=
  λ st, (Ok (), mkState (tbl st) (data st) (ticks st) (logs st ++ [args]) (initCalled st)).

(** [time.Now()]. *)
Definition time_Now : M Time :=
  λ st, (Ok (clock env (ticks st)),
         mkState (tbl st) (data st) (S (ticks st)) (logs st) (initCalled st)).

(** Running a command or a Go function against the data; the data it
    leaves behind stays unless an enclosing transaction rolls back. *)
Definition run_effect (f : effect) : M unit :=
  λ st,
    let '(d, e) := f (data st) in
    (match e with None => Ok () | Some msg => Raise msg end, set_data d st).

(** [Worker.transact]: the function's writes to the table and to the data
    are kept when it returns nil and undone when it returns an error;
    beginning and committing are taken to succeed. *)
Definition transact {A} (fn : M A) : M A :=
  λ st,
    match fn st with
    | (Raise e, st') => (Raise e, set_data (data st) (set_tbl (tbl st) st'))
    | r => r
    end.

(** The drivers' statements on the migrations table.  The backend gives
    back the time it was given to store. *)
Definition InsertVersion (ver : Version) : M unit :=
  λ st,
    match AppliedAt ver with
    | None => (Panic, st)
    | Some t =>
        match tbl st !! ID ver with
        | Some _ =>
            (Raise (wrapf (duplicate_key env) ("cannot insert migration version " +:+ fmt_d (ID ver))),
             st)
        | None =>
            (Ok (), set_tbl (<[ID ver := mkRow (VTime t) (Failed ver) (Locked ver)]> (tbl st)) st)
        end
    end.

Definition DeleteVersion (id : VersionID) : M unit :=
  λ st, (Ok (), set_tbl (delete id (tbl st)) st).

Definition SetVersionFailed (id : VersionID) (b : bool) : M unit :=
  λ st, (Ok (), set_tbl (alter (set_failed b) id (tbl st)) st).

Definition SetVersionLocked (id : VersionID) (b : bool) : M unit :=
  λ st, (Ok (), set_tbl (alter (set_locked b) id (tbl st)) st).

(** [type Worker struct]: the schema it was made for and its driver. *)
Record Worker := mkWorker { schema : Schema; drv : driver }.

Inductive NewWorker_result :=
| worker (w : Worker)
| schema_errors (es : Errors)
| no_driver (msg : string).

(** [NewWorker]; [Schema.Err] completes the schema the worker keeps. *)
Definition NewWorker (pkgname : string) (h : heap) (s : Schema) : option NewWorker_result :=
  '(s', es) ← Err h s;
  Some (match es with
        | _ :: _ => schema_errors es
        | [] =>
            match findDriver pkgname with
            | None => no_driver ("cannot find migration driver for " +:+ pkgname)
            | Some d => worker (mkWorker s' d)
            end
        end).

Section Worker.

Variable m : Worker.

(** [m.schema.plans]; ranging over a nil slice ranges over nothing. *)
Definition schema_plans : list migrationPlan := default [] (plans (schema m)).

(** [Worker.checkVersion]. *)
Definition checkVersion (version : VersionID) : M unit :=
  match definitions (schema m) !! version with
  | Some _ => ret ()
  | None => raise ("invalid schema version id=" +:+ fmt_d version)
  end.

(** [Worker.init]: [create table if not exists] leaves an existing table
    as it is. *)
Definition init : M unit :=
  λ st,
    if initCalled st then (Ok (), st)
    else (Ok (), mkState (tbl st) (data st) (ticks st) (logs st) true).

Definition listVersions : M (list Version) :=
  λ st, (Ok (ListVersions (tbl st)), st).

(** [Worker.getVersionSummaryAllowFailed]. *)
Definition getVersionSummaryAllowFailed : M versionSummary :=
  let* rows := listVersions in
  match summarize schema_plans rows with
  | Some vs => ret vs
  | None => panic
  end.

(** [Worker.getVersionSummary]. *)
Definition getVersionSummary : M versionSummary :=
  let* vs := getVersionSummaryAllowFailed in
  if existsb Failed (versions vs) then raise "previously failed" else ret vs.

(** [versionSummary.checkLocked]. *)
Fixpoint checkLocked_loop (vm : gmap Z Version) (id : VersionID)
    (l : list migrationPlan) : res unit :=
  match l with
  | [] => Ok ()
  | a :: l' =>
      if mp_id a <=? id then Ok ()
      else match vm !! mp_id a with
           | None => Panic
           | Some ver =>
               if Locked ver
               then Raise ("database schema version locked id=" +:+ fmt_d (mp_id a))
               else checkLocked_loop vm id l'
           end
  end.

Definition checkLocked (vs : versionSummary) (id : VersionID) : res unit :=
  checkLocked_loop (vmap vs) id (applied vs).

(** [Worker.finished]. *)
Definition finished (msg : string) : M unit :=
  transact
    (let* vs := getVersionSummaryAllowFailed in
     match applied vs with
     | plan :: _ =>
         match vmap vs !! mp_id plan with
         | None => panic
         | Some version =>
             log ([msg; "version=" +:+ fmt_d (ID version)]
                  ++ (if Locked version then ["status=locked"] else [])
                  ++ (if Failed version then ["status=failed"] else []))
         end
     | [] => log [msg; "version=0"]
     end).

(** A call of [finished] whose returned error is dropped. *)
Definition finished_ (msg : string) : M unit :=
  λ st,
    match finished msg st with
    | (Panic, st') => (Panic, st')
    | (_, st') => (Ok (), st')
    end.

(** The plan with a given id, as [upOneNoTx] and [downOneNoTx] look it
    up. *)
Definition find_plan (id : VersionID) : option migrationPlan :=
  find (λ p, mp_id p =? id) schema_plans.

(** [Worker.upOneNoTx]. *)
Definition upOneNoTx (id : VersionID) : M unit :=
  match find_plan id with
  | None => raise ("missing plan for version " +:+ fmt_d id)
  | Some plan =>
      transact
        (let* now := time_Now in
         InsertVersion (mkVersion id (Some now) true false "" "")) ;;
      wrapping (fmt_d id)
        (match dbFunc (mp_up plan) with
         | Some upDB => run_effect upDB
         | None => run_effect (exec_sql env (sql (mp_up plan)))
         end) ;;
      transact (SetVersionFailed id false)
  end.

(** [Worker.upOne].  The transaction's function gives [more] and, when
    the step has to run outside a transaction, the id of the plan. *)
Definition upOne : M bool :=
  let* r :=
    transact
      (let* vs := getVersionSummary in
       match unapplied vs with
       | [] => ret (false, None)
       | plan :: _ =>
           let* appliedAt := time_Now in
           let more := bool_decide (1 < length (unapplied vs))%nat in
           let* in_tx :=
             match txFunc (mp_up plan) with
             | Some upTx => wrapping (fmt_d (mp_id plan)) (run_effect upTx) ;; ret true
             | None =>
                 if negb (SupportsTransactionalDDL (drv m)) || bool_decide (is_Some (dbFunc (mp_up plan)))
                 then ret false
                 else wrapping (fmt_d (mp_id plan)) (run_effect (exec_sql env (sql (mp_up plan)))) ;;
                      ret true
             end in
           if in_tx : bool then
             wrapping (fmt_d (mp_id plan))
               (InsertVersion (mkVersion (mp_id plan) (Some appliedAt) false false "" "")) ;;
             log ["migrated up version=" +:+ fmt_d (mp_id plan)] ;;
             ret (more, None)
           else ret (more, Some (mp_id plan))
       end) in
  match r with
  | (more, Some id) =>
      upOneNoTx id ;;
      log ["migrated up version=" +:+ fmt_d id] ;;
      ret more
  | (more, None) => ret more
  end.

(** [Worker.downOneNoTx]. *)
Definition downOneNoTx (id : VersionID) : M unit :=
  match find_plan id with
  | None => raise ("missing plan for version " +:+ fmt_d id)
  | Some plan =>
      transact (SetVersionFailed id false) ;;
      wrapping (fmt_d id)
        (match dbFunc (mp_down plan) with
         | Some downDB => run_effect downDB
         | None => run_effect (exec_sql env (sql (mp_down plan)))
         end) ;;
      transact (DeleteVersion id)
  end.

(** [Worker.downOne]. *)
Definition downOne : M bool :=
  let* r :=
    transact
      (let* vs := getVersionSummary in
       match applied vs with
       | [] => ret (false, None)
       | plan :: _ =>
           match find (λ ver, ID ver =? mp_id plan) (versions vs) with
           | None => panic
           | Some version =>
               if Locked version then
                 log ["locked version=" +:+ fmt_d (ID version)] ;;
                 ret (false, None)
               else
                 let more := bool_decide (1 < length (applied vs))%nat in
                 let* in_tx :=
                   match txFunc (mp_down plan) with
                   | Some downTx =>
                       wrapping (fmt_d (mp_id plan)) (run_effect downTx) ;; ret true
                   | None =>
                       if negb (SupportsTransactionalDDL (drv m))
                          || bool_decide (is_Some (dbFunc (mp_down plan)))
                       then ret false
                       else wrapping (fmt_d (mp_id plan))
                              (run_effect (exec_sql env (sql (mp_down plan)))) ;;
                            ret true
                   end in
                 if in_tx : bool then
                   wrapping (fmt_d (mp_id plan)) (DeleteVersion (ID version)) ;;
                   log ["migrated down version=" +:+ fmt_d (mp_id plan)] ;;
                   ret (more, None)
                 else ret (more, Some (mp_id plan))
           end
       end) in
  match r with
  | (more, Some id) =>
      downOneNoTx id ;;
      log ["migrated down version=" +:+ fmt_d id] ;;
      ret more
  | (more, None) => ret more
  end.

(** The two counting loops of [gotoOne].  The counts are bounded by the
    number of plans. *)
Fixpoint count_down (id : VersionID) (l : list migrationPlan) : nat :=
  match l with
  | [] => 0
  | a :: l' => if mp_id a <=? id then 0 else S (count_down id l')
  end.

Fixpoint count_up (id : VersionID) (l : list migrationPlan) : nat :=
  match l with
  | [] => 0
  | u :: l' => if id <? mp_id u then 0 else S (count_up id l')
  end.

(** The transaction of [gotoOne]: [(downCount, upCount)]. *)
Definition goto_counts (id : VersionID) : M (nat * nat) :=
  transact
    (let* vs := getVersionSummary in
     lift (checkLocked vs id) ;;
     ret (count_down id (applied vs), count_up id (unapplied vs))).

(** [Worker.gotoOne]. *)
Definition gotoOne (id : VersionID) : M bool :=
  let* c := goto_counts id in
  let '(downCount, upCount) := c in
  if bool_decide (0 < downCount)%nat then
    downOne ;;
    ret (bool_decide (0 < upCount + (downCount - 1))%nat)
  else if bool_decide (0 < upCount)%nat then
    upOne ;;
    ret (bool_decide (0 < (upCount - 1) + downCount)%nat)
  else ret (bool_decide (0 < upCount + downCount)%nat).

(** The [for] loops of [Up], [Down] and [Goto]: one step per turn until
    the step reports no more.  The
    loop is given a number of turns; [None] says they ran out. *)
Fixpoint step_loop (fuel : nat) (step : M bool) (msg : string)
    (st : State) : option (res unit * State) :=
  match fuel with
  | O => None
  | S fuel' =>
      match step st with
      | (Ok true, st') => step_loop fuel' step msg st'
      | (Ok false, st') =>
          Some (finished_ msg st')
      | (Raise e, st') => Some (Raise e, st')
      | (Panic, st') => Some (Panic, st')
      end
  end.

Definition then_loop (first : M unit) (fuel : nat) (step : M bool) (msg : string)
    (st : State) : option (res unit * State) :=
  match first st with
  | (Ok _, st') => step_loop fuel step msg st'
  | (Raise e, st') => Some (Raise e, st')
  | (Panic, st') => Some (Panic, st')
  end.

(** [Worker.Up]. *)
Definition Worker_Up (fuel : nat) : State → option (res unit * State) :=
  then_loop init fuel upOne "migrate up finished".

(** [Worker.Down]. *)
Definition Worker_Down (fuel : nat) : State → option (res unit * State) :=
  then_loop init fuel downOne "migrate down finished".

(** [Worker.Goto]. *)
Definition Worker_Goto (id : VersionID) (fuel : nat) : State → option (res unit * State) :=
  then_loop ((if id =? 0 then ret () else checkVersion id) ;; init)
    fuel (gotoOne id) "migrate goto finished".

(** [Worker.Version]. *)
Definition Worker_Version (id : VersionID) : M Version :=
  checkVersion id ;;
  init ;;
  transact
    (let* vs := getVersionSummaryAllowFailed in
     match find (λ ver, ID ver =? id) (versions vs) with
     | Some ver => ret ver
     | None => raise ("cannot find version " +:+ fmt_d id)
     end).

(** [Worker.Versions]. *)
Definition Worker_Versions : M (list Version) :=
  init ;;
  transact (let* vs := getVersionSummaryAllowFailed in ret (versions vs)).

(** The last loop of [Worker.Force]. *)
Fixpoint force_loop (vm : gmap Z Version) (id : VersionID) (l : list migrationPlan) : M unit :=
  match l with
  | [] => ret ()
  | plan :: l' =>
      match vm !! mp_id plan with
      | None => panic
      | Some ver =>
          (if id <? ID ver then
             DeleteVersion (ID ver) ;;
             log ["deleted database schema version id=" +:+ fmt_d (ID ver)]
           else if Failed ver then
             SetVersionFailed (ID ver) false ;;
             log ["cleared database schema version failure id=" +:+ fmt_d id]
           else ret ()) ;;
          force_loop vm id l'
      end
  end.

(** [Worker.Force]. *)
Definition Worker_Force (id : VersionID) : M unit :=
  (if id =? 0 then ret () else checkVersion id) ;;
  init ;;
  transact
    (let* vs := getVersionSummaryAllowFailed in
     lift (checkLocked vs id) ;;
     (if id =? 0 then ret ()
      else if existsb (λ plan, mp_id plan =? id) (applied vs) then ret ()
      else raise ("cannot force unapplied version id=" +:+ fmt_d id)) ;;
     force_loop (vmap vs) id (applied vs)) ;;
  finished_ "database schema version forced".

(** [Worker.lockHelper], [Worker.Lock] and [Worker.Unlock]. *)
Definition lockHelper (id : VersionID) (verb : string) (lock : bool) : M unit :=
  checkVersion id ;;
  init ;;
  transact
    (let* vs := getVersionSummary in
     if existsb (λ plan, mp_id plan =? id) (applied vs)
     then SetVersionLocked id lock
     else raise ("cannot " +:+ verb +:+ " unapplied version id=" +:+ fmt_d id)) ;;
  log [verb +:+ " version=" +:+ fmt_d id].

Definition Worker_Lock (id : VersionID) : M unit := lockHelper id "lock" true.

Definition Worker_Unlock (id : VersionID) : M unit := lockHelper id "unlock" false.

End Worker.

(** ** The command line (cli/cli.go) *)

(** [strconv.ParseInt(s, 10, 64)] of Go's standard library: an optional
    sign and then one or more decimal digits; [None] for a syntax error
    and for a value outside the range of [int64]. *)
Definition ParseInt (s : string) : option Z :=
  match s with
  | EmptyString => None
  | String c s' =>
      let '(neg, digits) :=
        if Ascii.eqb c "+"%char then (false, s')
        else if Ascii.eqb c "-"%char then (true, s')
        else (false, s) in
      un ← NilZero.uint_of_string digits;
      if neg : bool
      then if 2 ^ 63 <? Z.of_uint un then None else Some (- Z.of_uint un)
      else if 2 ^ 63 <=? Z.of_uint un then None else Some (Z.of_uint un)
  end.

(** [parseVersion]. *)
Definition parseVersion (s : string) : res VersionID :=
  match ParseInt s with
  | None => Raise ("invalid database schema version: " +:+ s)
  | Some n =>
      if n <? 0
      then Raise ("database schema version cannot be negative: " +:+ fmt_d n)
      else Ok n
  end.

(** The command [list] without the flag [--all]: the loop that looks for
    the last locked version, from the end of the slice ([n] is the number
    of versions still to look at; [start] stays 0 when none is locked),
    and the loop that copies the versions to show. *)
Fixpoint list_start (versions : list Version) (n : nat) : nat :=
  match n with
  | O => 0
  | S i =>
      match versions !! i with
      | Some ver => if Locked ver then i else list_start versions i
      | None => list_start versions i
      end
  end.

Fixpoint list_vcopy (start i : nat) (versions : list Version) : list Version :=
  match versions with
  | [] => []
  | ver :: rest =>
      if bool_decide (start ≤ i)%nat
         || match AppliedAt ver with None => true | Some _ => false end
      then ver :: list_vcopy start (S i) rest
      else list_vcopy start (S i) rest
  end.

(** The versions that [list] shows. *)
Definition list_shown (all : bool) (versions : list Version) : list Version :=
  if all then versions
  else list_vcopy (list_start versions (length versions)) 0 versions.

(** ** The message of a list of errors (migration.go) *)

(** The table [asciiSpace] of Go's package [strings]: tab, line feed,
    vertical tab, form feed, carriage return and space. *)
Definition asciiSpace (c : ascii) : bool :=
  let n := nat_of_ascii c in
  ((9 <=? n)%nat && (n <=? 13)%nat) || (n =? 32)%nat.

(** [utf8.RuneSelf]: the bytes below it are the ASCII characters. *)
Definition RuneSelf : nat := 128.

Section TrimSpace.

(** [strings.TrimSpace] leaves a string to [TrimFunc(s, unicode.IsSpace)],
    or [TrimRightFunc(s, unicode.IsSpace)], once it meets a byte that is not
    ASCII; the two are not spelled out here. *)
Variables TrimFunc_IsSpace TrimRightFunc_IsSpace : string → string.

(** The first loop of [strings.TrimSpace]: the string from its first byte
    that is not an ASCII space, and whether that byte is not ASCII. *)
Fixpoint trim_start (s : string) : string * bool :=
  match s with
  | EmptyString => (EmptyString, false)
  | String c s' =>
      if (RuneSelf <=? nat_of_ascii c)%nat then (s, true)
      else if asciiSpace c then trim_start s' else (s, false)
  end.

(** The second loop: the string up to its last byte that is not an ASCII
    space, and whether that byte is not ASCII. *)
Fixpoint trim_stop (s : string) : string * bool :=
  match s with
  | EmptyString => (EmptyString, false)
  | String c s' =>
      match trim_stop s' with
      | (EmptyString, _) =>
          if (RuneSelf <=? nat_of_ascii c)%nat then (String c EmptyString, true)
          else if asciiSpace c then (EmptyString, false)
          else (String c EmptyString, false)
      | (r, b) => (String c r, b)
      end
  end.

(** [strings.TrimSpace]. *)
Definition TrimSpace (s : string) : string :=
  let '(s1, other1) := trim_start s in
  if other1 : bool then TrimFunc_IsSpace s1
  else
    let '(s2, other2) := trim_stop s1 in
    if other2 : bool then TrimRightFunc_IsSpace s2 else s2.

(** A line feed, the separator of the messages. *)
Definition newline : string := String (ascii_of_nat 10) EmptyString.

(** [strings.Join(elems, sep)]. *)
Definition Join (elems : list string) (sep : string) : string := String.concat sep elems.

(** [Errors.Error]. *)
Definition Errors_Error (e : Errors) : string :=
  TrimSpace (Join (Error_Error <$> e) newline).

End TrimSpace.

(** ** Notions used to state the properties *)

(** The store has a definition for every registered location, carrying
    the id it is registered under ([Define] stores [newDefinition id]
    under [id], and no method changes a definition's id). *)
Definition wf_defs (h : heap) (defs : gmap Z loc) : Prop :=
  map_Forall (λ id l, d_id <$> h !! l = Some id) defs.

Global Instance wf_defs_dec h defs : Decision (wf_defs h defs).
Proof. unfold wf_defs. apply _. Defined.

(** The two errors that replay resolution reports. *)
Definition is_replay_error (e : Error) : bool :=
  String.prefix "replay " (e_Description e).

(** The plan of a version in a list of plans. *)
Definition lookup_plan (id : VersionID) (ps : list migrationPlan) : option migrationPlan :=
  find (λ p, mp_id p =? id) ps.

(** What the summary shows for a listed row (its plan's actions
    rendered into [Up] and [Down], when it has a plan) and for a plan
    that has no row. *)
Definition decorate (ps : list migrationPlan) (v : Version) : Version :=
  match lookup_plan (ID v) ps with
  | Some p => set_Up_Down p v
  | None => v
  end.

Definition placeholder (p : migrationPlan) : Version :=
  set_Up_Down p (mkVersion (mp_id p) None false false "" "").

Definition has_row (rows : list Version) (p : migrationPlan) : Prop :=
  mp_id p ∈ ID <$> rows.

Definition no_row (rows : list Version) (p : migrationPlan) : Prop :=
  mp_id p ∉ ID <$> rows.

Global Instance has_row_dec rows p : Decision (has_row rows p).
Proof. unfold has_row. apply _. Defined.

Global Instance no_row_dec rows p : Decision (no_row rows p).
Proof. unfold no_row. apply _. Defined.

(** The versions of a summary before they are sorted: the listed rows,
    then one placeholder for each plan without a row. *)
Definition unsorted_versions (ps : list migrationPlan) (rows : list Version) : list Version :=
  (decorate ps <$> rows) ++ (placeholder <$> filter (no_row rows) ps).

(** The plans that have a row in a table, and those that have none. *)
Definition applied_of (t : gmap Z row) (ps : list migrationPlan) : list migrationPlan :=
  filter (λ p, is_Some (t !! mp_id p)) ps.

Definition unapplied_of (t : gmap Z row) (ps : list migrationPlan) : list migrationPlan :=
  filter (λ p, t !! mp_id p = None) ps.

(** A schema as the registry keeps it: the store is well formed, and
    plans that are cached were compiled for the ids now defined
    ([Define] drops the cache). *)
Definition wf_schema (h : heap) (s : Schema) : Prop :=
  wf_defs h (definitions s) ∧
  ∀ ps, plans s = Some ps → mp_id <$> ps = sorted_ids (definitions s).

(** A worker as [NewWorker] makes it: its schema is completed, with one
    plan per defined id, in ascending order. *)
Definition worker_ok (m : Worker) : Prop :=
  ∃ ps, plans (schema m) = Some ps ∧ mp_id <$> ps = sorted_ids (definitions (schema m)).

(** The persisted content of a version: id, applied_at, failed, locked. *)
Definition persisted (v : Version) : Z * option Time * bool * bool :=
  (ID v, AppliedAt v, Failed v, Locked v).

Definition row_content (kr : Z * row) : Z * option Time * bool * bool :=
  (kr.1, Some (tv_Time (Scan (applied_at kr.2)).1), failed kr.2, locked kr.2).

Definition placeholder_content (p : migrationPlan) : Z * option Time * bool * bool :=
  (mp_id p, None, false, false).

(** Some row of the table is marked failed; no row is. *)
Definition some_failed (t : gmap Z row) : Prop :=
  ∃ id r, t !! id = Some r ∧ failed r = true.

Definition no_failed (t : gmap Z row) : Prop :=
  ∀ id r, t !! id = Some r → failed r = false.

(** Whether [upOne] and [downOne] run an action inside their transaction:
    a [TxFunc] always, a command when the driver supports transactional
    DDL, a [DBFunc] never. *)
Definition in_tx (d : driver) (a : action) : bool :=
  bool_decide (is_Some (txFunc a))
  || (SupportsTransactionalDDL d && negb (bool_decide (is_Some (dbFunc a)))).

(** What running an action does to the data. *)
Definition chosen_effect (a : action) : effect :=
  match txFunc a, dbFunc a with
  | Some f, _ => f
  | None, Some f => f
  | None, None => exec_sql env (sql a)
  end.

(** The state after [init]. *)
Definition after_init (st : State) : State :=
  mkState (tbl st) (data st) (ticks st) (logs st) true.

(** The state after a call of [LogFunc]. *)
Definition logged (args : list string) (st : State) : State :=
  mkState (tbl st) (data st) (ticks st) (logs st ++ [args]) (initCalled st).

(** What [downOne] comes to on a table without failed rows: nothing to
    do; the highest applied version is locked; or its down action is run,
    inside the transaction or between the two transactions of
    [downOneNoTx]. *)
Definition downOne_result (m : Worker) (st : State) : res bool * State :=
  match reverse (applied_of (tbl st) (schema_plans m)) with
  | [] => (Ok false, st)
  | p :: rest =>
      match tbl st !! mp_id p with
      | None => (Panic, st)
      | Some r =>
          if locked r then (Ok false, logged ["locked version=" +:+ fmt_d (mp_id p)] st)
          else
            let '(d, e) := chosen_effect (mp_down p) (data st) in
            match e with
            | None =>
                (Ok (bool_decide (1 < length (p :: rest))%nat),
                 mkState (delete (mp_id p) (tbl st)) d (ticks st)
                   (logs st ++ [["migrated down version=" +:+ fmt_d (mp_id p)]])
                   (initCalled st))
            | Some msg =>
                (Raise (wrapf msg (fmt_d (mp_id p))),
                 if in_tx (drv m) (mp_down p) then st
                 else mkState (alter (set_failed false) (mp_id p) (tbl st)) d (ticks st)
                        (logs st) (initCalled st))
            end
      end
  end.

(** What [upOne] comes to on a table without failed rows. *)
Definition upOne_result (m : Worker) (st : State) : res bool * State :=
  match unapplied_of (tbl st) (schema_plans m) with
  | [] => (Ok false, st)
  | p :: rest =>
      let more := bool_decide (1 < length (p :: rest))%nat in
      let '(d, e) := chosen_effect (mp_up p) (data st) in
      if in_tx (drv m) (mp_up p) then
        match e with
        | None =>
            (Ok more,
             mkState (<[mp_id p := mkRow (VTime (clock env (ticks st))) false false]> (tbl st))
               d (S (ticks st))
               (logs st ++ [["migrated up version=" +:+ fmt_d (mp_id p)]]) (initCalled st))
        | Some msg =>
            (Raise (wrapf msg (fmt_d (mp_id p))),
             mkState (tbl st) (data st) (S (ticks st)) (logs st) (initCalled st))
        end
      else
        match e with
        | None =>
            (Ok more,
             mkState
               (<[mp_id p := mkRow (VTime (clock env (S (ticks st)))) false false]> (tbl st))
               d (S (S (ticks st)))
               (logs st ++ [["migrated up version=" +:+ fmt_d (mp_id p)]]) (initCalled st))
        | Some msg =>
            (Raise (wrapf msg (fmt_d (mp_id p))),
             mkState
               (<[mp_id p := mkRow (VTime (clock env (S (ticks st)))) true false]> (tbl st))
               d (S (S (ticks st))) (logs st) (initCalled st))
        end
  end.

(** The version that stops a roll-back to [id]: going down the applied
    plans, the first one above [id] whose row is locked. *)
Fixpoint first_locked (t : gmap Z row) (id : VersionID) (l : list migrationPlan)
    : option VersionID :=
  match l with
  | [] => None
  | a :: l' =>
      if mp_id a <=? id then None
      else match t !! mp_id a with
           | Some r => if locked r then Some (mp_id a) else first_locked t id l'
           | None => first_locked t id l'
           end
  end.

(** A table at rest with respect to a target: no failed row, no applied
    plan above the target, no unapplied plan at or below it. *)
Definition at_rest (id : VersionID) (t : gmap Z row) (ps : list migrationPlan) : Prop :=
  no_failed t ∧
  count_down id (reverse (applied_of t ps)) = 0%nat ∧
  count_up id (unapplied_of t ps) = 0%nat.

(** The order of two times as instants: [a] is not after [b]. *)
Definition time_le (a b : Time) : Prop :=
  t_sec a < t_sec b ∨ (t_sec a = t_sec b ∧ t_nsec a ≤ t_nsec b).

(** The clock never runs backwards. *)
Definition monotone_clock : Prop :=
  ∀ i j : nat, (i ≤ j)%nat → time_le (clock env i) (clock env j).

(** The data after the up actions, and after the down actions, of a list
    of plans have run in the order of the list. *)
Definition run_ups (ps : list migrationPlan) (d : Data) : Data :=
  foldl (λ d p, (chosen_effect (mp_up p) d).1) d ps.

Definition run_downs (ps : list migrationPlan) (d : Data) : Data :=
  foldl (λ d p, (chosen_effect (mp_down p) d).1) d ps.

Definition up_message (p : migrationPlan) : list string :=
  ["migrated up version=" +:+ fmt_d (mp_id p)].

Definition down_message (p : migrationPlan) : list string :=
  ["migrated down version=" +:+ fmt_d (mp_id p)].

(** No applied plan above [id] is locked. *)
Definition unlocked_above (id : VersionID) (t : gmap Z row) (ps : list migrationPlan) : Prop :=
  ∀ q r, q ∈ ps → id < mp_id q → t !! mp_id q = Some r → locked r = false.

(** The actions that a [Goto id] may have to run never fail: the down
    actions of the plans above [id], the up actions of the others. *)
Definition actions_succeed (id : VersionID) (ps : list migrationPlan) : Prop :=
  ∀ q d, q ∈ ps →
    (id < mp_id q → (chosen_effect (mp_down q) d).2 = None) ∧
    (mp_id q ≤ id → (chosen_effect (mp_up q) d).2 = None).

(** The number of steps a [Goto id] has before it. *)
Definition pending (id : VersionID) (t : gmap Z row) (ps : list migrationPlan) : nat :=
  count_down id (reverse (applied_of t ps)) + count_up id (unapplied_of t ps).

(** The up actions of a list of plans all succeed when they are run one
    after the other, the first on the data [d]; the same for the down
    actions. *)
Fixpoint ups_succeed (ps : list migrationPlan) (d : Data) : Prop :=
  match ps with
  | [] => True
  | p :: ps' =>
      (chosen_effect (mp_up p) d).2 = None ∧ ups_succeed ps' (chosen_effect (mp_up p) d).1
  end.

Fixpoint downs_succeed (ps : list migrationPlan) (d : Data) : Prop :=
  match ps with
  | [] => True
  | p :: ps' =>
      (chosen_effect (mp_down p) d).2 = None ∧
      downs_succeed ps' (chosen_effect (mp_down p) d).1
  end.

(** What [Force id] logs for an applied plan: the deletion of its row
    when the plan is above [id]; otherwise, when its row is marked
    failed, the clearing of the mark, where the source prints the target
    [id] and not the id of the row. *)
Definition force_log (t : gmap Z row) (id : VersionID) (p : migrationPlan)
    : option (list string) :=
  if id <? mp_id p
  then Some ["deleted database schema version id=" +:+ fmt_d (mp_id p)]
  else match t !! mp_id p with
       | Some r =>
           if failed r
           then Some ["cleared database schema version failure id=" +:+ fmt_d id]
           else None
       | None => None
       end.

(** What [Force id] leaves at the key [i] of the table: the rows of the
    plans above [id] are gone, the rows of the other plans are no longer
    marked failed, and a row that belongs to no plan is as it was. *)
Definition forced (id : VersionID) (ps : list migrationPlan) (t : gmap Z row) (i : Z)
    : option row :=
  if decide (i ∈ mp_id <$> ps)
  then if decide (id < i) then None else set_failed false <$> t !! i
  else t !! i.

(** A count of calls that [Definition.errs] lets pass: not zero and not
    above one (so 1, for a count that has not wrapped around). *)
Definition count_accepted (n : Z) : Prop := n ≠ 0 ∧ n ≤ 1.

(** An action that is a replay names a version that is defined and
    earlier than [id]. *)
Definition replay_ok (defs : gmap Z loc) (id : VersionID) (a : option Action) : Prop :=
  ∀ t, a = Some (Replay t) → t < id ∧ is_Some (defs !! t).

(** A definition that the compiler finds no fault with. *)
Definition valid_definition (defs : gmap Z loc) (d : Defn) : Prop :=
  count_accepted (upCount d) ∧ count_accepted (downCount d) ∧
  replay_ok defs (d_id d) (upAction d) ∧ replay_ok defs (d_id d) (downAction d).

(** The first and the last byte of a string, and the bytes that
    [strings.TrimSpace] stops at without further ado: the ASCII characters
    that are not spaces. *)
Definition first_byte (s : string) : option ascii :=
  match s with
  | EmptyString => None
  | String c _ => Some c
  end.

Fixpoint last_byte (s : string) : option ascii :=
  match s with
  | EmptyString => None
  | String c EmptyString => Some c
  | String _ s' => last_byte s'
  end.

Definition plain (c : ascii) : bool :=
  (nat_of_ascii c <? RuneSelf)%nat && negb (asciiSpace c).

(** A call of one of the four methods of a definition. *)
Inductive call :=
| call_Up (s : string)
| call_Down (s : string)
| call_UpAction (a : option Action)
| call_DownAction (a : option Action).

Definition run_call (l : loc) (h : heap) (c : call) : heap :=
  match c with
  | call_Up s => Definition_Up s l h
  | call_Down s => Definition_Down s l h
  | call_UpAction a => Definition_UpAction a l h
  | call_DownAction a => Definition_DownAction a l h
  end.

Definition run_calls (l : loc) (cs : list call) (h : heap) : heap :=
  foldl (run_call l) h cs.

(** * Properties *)

(** ** Sorting slices with distinct keys *)

Section sorting.

Context {A : Type} (key : A → Z).

Definition asc : relation A := λ a b, key a < key b.

Variable less : A → A → bool.

Hypothesis less_key : ∀ a b, less a b = (key a <? key b).

Lemma insert_by_perm x l : insert_by less x l ≡ₚ x :: l.
Proof.
  induction l as [|y l IH]; simpl; [done|].
  destruct (less x y); [done|]. rewrite IH. apply Permutation_swap.
Qed.

Lemma sort_Slice_perm l : sort_Slice less l ≡ₚ l.
Proof.
  induction l as [|x l IH]; simpl; [done|].
  rewrite insert_by_perm. by rewrite IH.
Qed.

Lemma insert_by_sorted x l :
  key x ∉ key <$> l → StronglySorted asc l → StronglySorted asc (insert_by less x l).
Proof.
  intros Hx Hl. induction Hl as [|y l Hl IH Hy]; simpl.
  { repeat constructor. }
  rewrite less_key. rewrite fmap_cons, not_elem_of_cons in Hx. destruct Hx as [Hxy Hx].
  destruct (Z.ltb_spec (key x) (key y)) as [Hlt|Hge].
  - constructor; [by constructor|].
    constructor; [done|]. eapply Forall_impl; [exact Hy|]. unfold asc. intros; simpl in *; lia.
  - constructor; [by apply IH|].
    rewrite (insert_by_perm x l). constructor; [unfold asc; lia|done].
Qed.

Lemma sort_Slice_sorted l :
  NoDup (key <$> l) → StronglySorted asc (sort_Slice less l).
Proof.
  induction l as [|x l IH]; simpl; intros Hnd.
  { constructor. }
  apply NoDup_cons in Hnd as [Hx Hnd].
  apply insert_by_sorted; [|by apply IH].
  intros Hin. apply Hx. by rewrite <-(sort_Slice_perm l).
Qed.

Lemma asc_unique l1 l2 :
  StronglySorted asc l1 → StronglySorted asc l2 → l1 ≡ₚ l2 → l1 = l2.
Proof.
  apply StronglySorted_unique_strong. unfold asc. intros; lia.
Qed.

Lemma asc_NoDup l : StronglySorted asc l → NoDup (key <$> l).
Proof.
  induction 1 as [|x l Hl IH Hx]; simpl; constructor; [|done].
  intros (y & Hy & Hin)%list_elem_of_fmap.
  rewrite Forall_forall in Hx. specialize (Hx y Hin). unfold asc in Hx. lia.
Qed.

Lemma sort_Slice_id l : StronglySorted asc l → sort_Slice less l = l.
Proof.
  intros Hl. apply asc_unique; [|done|apply sort_Slice_perm].
  by apply sort_Slice_sorted, asc_NoDup.
Qed.

Lemma asc_filter (P : A → Prop) `{!∀ x, Decision (P x)} l :
  StronglySorted asc l → StronglySorted asc (filter P l).
Proof.
  induction 1 as [|x l Hl IH Hx]; [constructor|].
  rewrite filter_cons. case_decide; [|done].
  constructor; [done|].
  rewrite Forall_forall in Hx |- *. intros y [_ Hy]%list_elem_of_filter. by apply Hx.
Qed.

End sorting.

Lemma asc_reverse {A} (key : A → Z) l :
  StronglySorted (asc key) l → StronglySorted (asc (λ a, - key a)) (reverse l).
Proof.
  induction 1 as [|x l Hl IH Hx]; [constructor|].
  rewrite reverse_cons. apply StronglySorted_app_2; [|done|repeat constructor].
  intros y z Hy ->%list_elem_of_singleton. rewrite elem_of_reverse in Hy.
  rewrite Forall_forall in Hx. specialize (Hx y Hy). unfold asc in *. lia.
Qed.

(** Sorting an ascending slice into descending order reverses it. *)
Lemma sort_Slice_reverse {A} (key : A → Z) l :
  StronglySorted (asc key) l →
  sort_Slice (λ a b, key b <? key a) l = reverse l.
Proof.
  intros Hl. apply (asc_unique (λ a, - key a)).
  - apply sort_Slice_sorted.
    + intros a b. destruct (Z.ltb_spec (key b) (key a)), (Z.ltb_spec (- key a) (- key b)); lia.
    + apply asc_NoDup in Hl. rewrite (list_fmap_compose key Z.opp).
      apply NoDup_fmap_2; [|done]. intros ???; lia.
  - by apply asc_reverse.
  - rewrite sort_Slice_perm. by rewrite reverse_Permutation.
Qed.

(** ** The plan compiler *)

Lemma sorted_ids_sorted defs : StronglySorted Z.lt (sorted_ids defs).
Proof.
  apply (sort_Slice_sorted (λ x : Z, x) Z.ltb); [done|].
  rewrite list_fmap_id. apply NoDup_fst_map_to_list.
Qed.

Lemma elem_of_sorted_ids defs id : id ∈ sorted_ids defs ↔ is_Some (defs !! id).
Proof.
  unfold sorted_ids. rewrite (sort_Slice_perm Z.ltb).
  rewrite list_elem_of_fmap. split.
  - intros ([i l] & -> & Hin). apply elem_of_map_to_list in Hin. by eexists.
  - intros [l Hl]. exists (id, l). split; [done|]. by apply elem_of_map_to_list.
Qed.

(** The loop of [complete] as a relation: [compiled h defs pm ids new]
    says that from the map [pm] of the plans made so far the ids [ids]
    yield the plans [new]. *)
Inductive compiled (h : heap) (defs : gmap Z loc) :
    gmap Z migrationPlan → list VersionID → list migrationPlan → Prop :=
| compiled_nil pm : compiled h defs pm [] []
| compiled_cons pm id ids l d new :
    defs !! id = Some l →
    h !! l = Some d →
    compiled h defs (<[id := newPlan d pm]> pm) ids new →
    compiled h defs pm (id :: ids) (newPlan d pm :: new).

Lemma compile_loop_compiled h defs ids acc pm ps :
  compile_loop h defs ids acc pm = Some ps →
  ∃ new, ps = acc ++ new ∧ compiled h defs pm ids new.
Proof.
  revert acc pm. induction ids as [|id ids IH]; intros acc pm; simpl.
  - intros [= <-]. exists []. split; [by rewrite app_nil_r|constructor].
  - destruct (defs !! id) as [l|] eqn:Hl; [|done]. simpl.
    destruct (h !! l) as [d|] eqn:Hd; [|done]. simpl.
    intros (new & -> & Hnew)%IH. exists (newPlan d pm :: new).
    split; [by rewrite <-app_assoc|]. by econstructor.
Qed.

Lemma compiled_compile_loop h defs ids acc pm new :
  compiled h defs pm ids new →
  compile_loop h defs ids acc pm = Some (acc ++ new).
Proof.
  intros Hc. revert acc. induction Hc as [pm|pm id ids l d new Hl Hd _ IH]; intros acc; simpl.
  - by rewrite app_nil_r.
  - rewrite Hl. simpl. rewrite Hd. simpl. rewrite IH. by rewrite <-app_assoc.
Qed.

(** Compilation reads the store only at the registered locations. *)
Lemma compiled_ext h1 h2 defs pm ids new :
  (∀ id l, defs !! id = Some l → h1 !! l = h2 !! l) →
  compiled h1 defs pm ids new → compiled h2 defs pm ids new.
Proof.
  intros Hext. induction 1 as [|pm id ids l d new Hl Hd _ IH]; econstructor; eauto.
  by rewrite <-(Hext id l).
Qed.

Lemma compile_ext h1 h2 defs :
  (∀ id l, defs !! id = Some l → h1 !! l = h2 !! l) →
  compile h1 defs = compile h2 defs.
Proof.
  intros Hext. unfold compile.
  destruct (compile_loop h1 defs (sorted_ids defs) [] ∅) as [ps|] eqn:H1.
  - apply compile_loop_compiled in H1 as (new & -> & Hc).
    symmetry. apply compiled_compile_loop. by eapply compiled_ext.
  - destruct (compile_loop h2 defs (sorted_ids defs) [] ∅) as [ps|] eqn:H2; [|done].
    apply compile_loop_compiled in H2 as (new & -> & Hc).
    eapply (compiled_ext h2 h1) in Hc; [|intros; symmetry; eauto].
    apply (compiled_compile_loop _ _ _ []) in Hc. congruence.
Qed.

Lemma wf_defs_lookup h defs id l :
  wf_defs h defs → defs !! id = Some l → ∃ d, h !! l = Some d ∧ d_id d = id.
Proof.
  intros Hwf Hl. specialize (Hwf id l Hl). simpl in Hwf.
  destruct (h !! l) as [d|]; simplify_eq/=. eauto.
Qed.

(** Over a well-formed store the compiler always returns. *)
Lemma compiled_total h defs pm ids :
  wf_defs h defs → (∀ id, id ∈ ids → is_Some (defs !! id)) →
  ∃ new, compiled h defs pm ids new.
Proof.
  intros Hwf. revert pm. induction ids as [|id ids IH]; intros pm Hids.
  { eexists. constructor. }
  destruct (Hids id) as [l Hl]; [left|].
  destruct (wf_defs_lookup _ _ _ _ Hwf Hl) as (d & Hd & _).
  destruct (IH (<[id := newPlan d pm]> pm)) as [new Hnew].
  { intros i Hi. apply Hids. by right. }
  eexists. by econstructor.
Qed.

Lemma compile_total h defs : wf_defs h defs → is_Some (compile h defs).
Proof.
  intros Hwf. destruct (compiled_total h defs ∅ (sorted_ids defs) Hwf) as [new Hc].
  { intros id. by rewrite elem_of_sorted_ids. }
  unfold compile. rewrite (compiled_compile_loop _ _ _ [] _ _ Hc). by eexists.
Qed.

Lemma newPlan_id d pm : mp_id (newPlan d pm) = d_id d.
Proof. unfold newPlan. by repeat case_match. Qed.

Lemma compiled_ids h defs pm ids new :
  wf_defs h defs → compiled h defs pm ids new → mp_id <$> new = ids.
Proof.
  intros Hwf. induction 1 as [|pm id ids l d new Hl Hd _ IH]; [done|].
  rewrite fmap_cons, IH, newPlan_id.
  destruct (wf_defs_lookup _ _ _ _ Hwf Hl) as (d' & Hd' & <-). congruence.
Qed.

Lemma lookup_plan_Some id ps p :
  lookup_plan id ps = Some p → p ∈ ps ∧ mp_id p = id.
Proof.
  unfold lookup_plan. induction ps as [|q ps IH]; simpl; [done|].
  destruct (Z.eqb_spec (mp_id q) id) as [Heq|Hne].
  - intros [= <-]. split; [left|done].
  - intros [Hin Hid]%IH. split; [by right|done].
Qed.

Lemma lookup_plan_elem_of id ps p :
  NoDup (mp_id <$> ps) → p ∈ ps → mp_id p = id → lookup_plan id ps = Some p.
Proof.
  unfold lookup_plan. induction ps as [|q ps IH]; simpl; intros Hnd Hin Hid.
  { by apply elem_of_nil in Hin. }
  apply NoDup_cons in Hnd as [Hq Hnd].
  apply elem_of_cons in Hin as [->|Hin].
  { by rewrite (proj2 (Z.eqb_eq _ _) Hid). }
  destruct (Z.eqb_spec (mp_id q) id) as [Heq|Hne]; [|by apply IH].
  exfalso. apply Hq. rewrite Heq, <-Hid. by apply list_elem_of_fmap_2.
Qed.

Lemma lookup_plan_None id ps : id ∉ mp_id <$> ps → lookup_plan id ps = None.
Proof.
  unfold lookup_plan. induction ps as [|q ps IH]; simpl; [done|].
  rewrite not_elem_of_cons. intros [Hne Hin].
  destruct (Z.eqb_spec (mp_id q) id); [congruence|by apply IH].
Qed.

Lemma Definition_errs_no_replay d e :
  e ∈ Definition_errs d → is_replay_error e = false.
Proof.
  unfold Definition_errs. rewrite !elem_of_app.
  intros [H|[H|[H|H]]]; case_match; try (by apply elem_of_nil in H);
    apply list_elem_of_singleton in H as ->; reflexivity.
Qed.

(** Resolution leaves no replay tag behind unless it reports an error. *)
Lemma resolve_replay_free pid pm a es a' es' :
  resolve_replay pid pm a es = (a', es') →
  (∀ i q, pm !! i = Some q → replayUp (mp_up q) = None) →
  (∀ e, e ∈ es' → is_replay_error e = false) →
  replayUp a' = None ∧ (∀ e, e ∈ es → is_replay_error e = false).
Proof.
  unfold resolve_replay. intros Hres Hpm Hes'.
  destruct (replayUp a) as [t|] eqn:Ha; [|by simplify_eq].
  destruct (pid <=? t).
  { simplify_eq. specialize (Hes' (mkError pid "replay must specify an earlier version")).
    rewrite elem_of_app, list_elem_of_singleton in Hes'. by specialize (Hes' (or_intror eq_refl)). }
  destruct (pm !! t) as [q|] eqn:Hq; simplify_eq.
  - split; [by eapply Hpm|done].
  - match type of Hes' with ∀ e, e ∈ _ ++ [?x] → _ => specialize (Hes' x) end.
    rewrite elem_of_app, list_elem_of_singleton in Hes'. by specialize (Hes' (or_intror eq_refl)).
Qed.

Lemma newPlan_free d pm :
  (∀ i q, pm !! i = Some q → replayUp (mp_up q) = None) →
  (∀ e, e ∈ mp_errs (newPlan d pm) → is_replay_error e = false) →
  replayUp (mp_up (newPlan d pm)) = None ∧ replayUp (mp_down (newPlan d pm)) = None.
Proof.
  unfold newPlan. intros Hpm.
  destruct (resolve_replay _ _ (apply_opt (upAction d)) _) as [up es1] eqn:Hup.
  destruct (resolve_replay _ _ (apply_opt (downAction d)) _) as [down es2] eqn:Hdown.
  simpl. intros Hes.
  destruct (resolve_replay_free _ _ _ _ _ _ Hdown Hpm Hes) as [Hd Hes1].
  destruct (resolve_replay_free _ _ _ _ _ _ Hup Hpm Hes1) as [Hu _]. done.
Qed.

Lemma compiled_free h defs pm ids new :
  compiled h defs pm ids new →
  (∀ i q, pm !! i = Some q → replayUp (mp_up q) = None) →
  (∀ p e, p ∈ new → e ∈ mp_errs p → is_replay_error e = false) →
  ∀ p, p ∈ new → replayUp (mp_up p) = None ∧ replayUp (mp_down p) = None.
Proof.
  induction 1 as [|pm id ids l d new Hl Hd _ IH]; intros Hpm Hes p Hp.
  { by apply elem_of_nil in Hp. }
  assert (replayUp (mp_up (newPlan d pm)) = None ∧ replayUp (mp_down (newPlan d pm)) = None)
    as Hfree.
  { apply newPlan_free; [done|]. intros e. apply Hes. left. }
  apply elem_of_cons in Hp as [->|Hp]; [done|].
  apply IH; [| |done].
  - intros i q. rewrite lookup_insert. case_decide; [|by apply Hpm].
    intros [= <-]. apply Hfree.
  - intros q e Hq. apply Hes. by right.
Qed.

(** What the compiler makes of an up and of a down action. *)
Lemma newPlan_up d pm :
  mp_up (newPlan d pm) =
  (resolve_replay (d_id d) pm (apply_opt (upAction d)) (Definition_errs d)).1.
Proof. unfold newPlan. by repeat case_match. Qed.

Lemma newPlan_down d pm :
  ∃ es, mp_down (newPlan d pm) =
        (resolve_replay (d_id d) pm (apply_opt (downAction d)) es).1.
Proof.
  unfold newPlan. destruct (resolve_replay _ _ (apply_opt (upAction d)) _) as [up es1].
  exists es1. by case_match.
Qed.

Lemma resolve_replay_copy pid pm t pt es :
  t < pid → pm !! t = Some pt →
  (resolve_replay pid pm (apply_opt (Some (Replay t))) es).1 = mp_up pt.
Proof.
  intros Hlt Hpt. unfold resolve_replay. simpl.
  destruct (Z.leb_spec pid t); [lia|]. by rewrite Hpt.
Qed.

Lemma resolve_replay_keep pid pm a es :
  replayUp a = None → (resolve_replay pid pm a es).1 = a.
Proof. unfold resolve_replay. by intros ->. Qed.

Lemma apply_opt_no_replay (a : option Action) :
  (∀ t, a ≠ Some (Replay t)) → replayUp (apply_opt a) = None.
Proof. destruct a as [[]|]; simpl; try done. intros H. by destruct (H id). Qed.

Lemma compiled_copy h defs pm ids new :
  wf_defs h defs →
  compiled h defs pm ids new →
  StronglySorted Z.lt ids →
  (∀ i q, pm !! i = Some q → mp_id q = i) →
  ∀ id l d, id ∈ ids → defs !! id = Some l → h !! l = Some d →
    ∃ p, p ∈ new ∧ mp_id p = id ∧
      ((∀ t, upAction d ≠ Some (Replay t)) → mp_up p = apply_opt (upAction d)) ∧
      ((∀ t, downAction d ≠ Some (Replay t)) → mp_down p = apply_opt (downAction d)) ∧
      ∀ t, t < id → is_Some (pm !! t) ∨ t ∈ ids →
        ∃ pt, (pt ∈ new ∨ pm !! t = Some pt) ∧ mp_id pt = t ∧
          (upAction d = Some (Replay t) → mp_up p = mp_up pt) ∧
          (downAction d = Some (Replay t) → mp_down p = mp_up pt).
Proof.
  intros Hwf. induction 1 as [|pm id0 ids l0 d0 new Hl0 Hd0 _ IH];
    intros Hsorted Hpm id l d Hid Hl Hd.
  { by apply elem_of_nil in Hid. }
  apply StronglySorted_cons in Hsorted as [Hlt Hsorted].
  destruct (wf_defs_lookup _ _ _ _ Hwf Hl0) as (d0' & Hd0' & Hid0).
  assert (d0' = d0) as -> by congruence.
  apply elem_of_cons in Hid as [->|Hid].
  - assert (l = l0) as -> by congruence. assert (d = d0) as -> by congruence.
    exists (newPlan d0 pm). split; [left|]. split; [by rewrite newPlan_id|].
    split; [|split].
    + intros Hup. rewrite newPlan_up. by apply resolve_replay_keep, apply_opt_no_replay.
    + intros Hdown. destruct (newPlan_down d0 pm) as [es ->].
      by apply resolve_replay_keep, apply_opt_no_replay.
    + intros t Ht [[pt Hpt]|Hin].
      * exists pt. split; [by right|]. split; [by eapply Hpm|]. split.
        -- intros Hup. rewrite newPlan_up, Hup, Hid0. by apply resolve_replay_copy.
        -- intros Hdown. destruct (newPlan_down d0 pm) as [es ->].
           rewrite Hdown, Hid0. by apply resolve_replay_copy.
      * exfalso. apply elem_of_cons in Hin as [->|Hin]; [lia|].
        rewrite Forall_forall in Hlt. specialize (Hlt t Hin). lia.
  - destruct (IH Hsorted) with (id := id) (l := l) (d := d)
      as (p & Hp & Hpid & Hup & Hdown & Hcopy); [|done..|].
    { intros i q. rewrite lookup_insert. case_decide; [|by apply Hpm].
      intros [= <-]. by rewrite newPlan_id, Hid0. }
    exists p. split; [by right|]. do 3 (split; [done|]).
    intros t Ht Hin.
    destruct (Hcopy t Ht) as (pt & Hpt & Hc).
    { destruct Hin as [[q Hq]|Hin].
      - left. rewrite lookup_insert. case_decide; by eexists.
      - apply elem_of_cons in Hin as [->|Hin]; [|by right].
        left. rewrite lookup_insert_eq. by eexists. }
    exists pt. split; [|done].
    destruct Hpt as [Hpt|Hpt]; [left; by right|].
    rewrite lookup_insert in Hpt. case_decide; [|by right].
    simplify_eq. left. left.
Qed.

Lemma compile_ids h defs ps :
  wf_defs h defs → compile h defs = Some ps → mp_id <$> ps = sorted_ids defs.
Proof.
  intros Hwf (new & -> & Hc)%compile_loop_compiled. by eapply compiled_ids.
Qed.

Lemma compile_NoDup h defs ps :
  wf_defs h defs → compile h defs = Some ps → NoDup (mp_id <$> ps).
Proof.
  intros Hwf Hc. rewrite (compile_ids _ _ _ Hwf Hc).
  rewrite <-(list_fmap_id (sorted_ids defs)).
  apply (asc_NoDup (λ x : Z, x)), sorted_ids_sorted.
Qed.

(** C1 (replay is resolved at compile time).  For a schema whose store is
    well formed and whose plans have not been compiled yet, [complete]
    gives one plan per definition, in ascending order of id, such that:
    when no plan carries a replay error, no plan's up or down action
    carries a replay tag; a definition whose up (down) action is
    [Replay t] with [t] below its id and [t] defined gets, as its plan's
    up (down) action, the resolved up action of the plan of [t]; and a
    chain [c] replays [b], [b] replays [a] ends with the plan of [c]
    holding the up action that [a] was defined with. *)
Theorem replay_resolved_at_compile (h : heap) (s s' : Schema) :
  wf_defs h (definitions s) →
  plans s = None →
  complete h s = Some s' →
  ∃ ps,
    plans s' = Some ps ∧
    mp_id <$> ps = sorted_ids (definitions s) ∧
    ((∀ p e, p ∈ ps → e ∈ mp_errs p → is_replay_error e = false) →
     ∀ p, p ∈ ps → replayUp (mp_up p) = None ∧ replayUp (mp_down p) = None) ∧
    (∀ id l d t,
       definitions s !! id = Some l → h !! l = Some d →
       t < id → is_Some (definitions s !! t) →
       ∃ p pt,
         lookup_plan id ps = Some p ∧ lookup_plan t ps = Some pt ∧
         (upAction d = Some (Replay t) → mp_up p = mp_up pt) ∧
         (downAction d = Some (Replay t) → mp_down p = mp_up pt)) ∧
    (∀ a b c la lb lc da db dc,
       definitions s !! a = Some la → h !! la = Some da →
       definitions s !! b = Some lb → h !! lb = Some db →
       definitions s !! c = Some lc → h !! lc = Some dc →
       a < b → b < c →
       (∀ t, upAction da ≠ Some (Replay t)) →
       upAction db = Some (Replay a) →
       upAction dc = Some (Replay b) →
       ∃ pc, lookup_plan c ps = Some pc ∧ mp_up pc = apply_opt (upAction da)).
Proof.
  intros Hwf Hnone Hcomplete. unfold complete in Hcomplete. rewrite Hnone in Hcomplete.
  destruct (compile h (definitions s)) as [ps|] eqn:Hcompile; simplify_eq/=.
  exists ps. split; [done|].
  pose proof (compile_ids _ _ _ Hwf Hcompile) as Hids.
  pose proof (compile_NoDup _ _ _ Hwf Hcompile) as Hnd.
  apply compile_loop_compiled in Hcompile as (new & -> & Hc). simpl in *.
  pose proof (sorted_ids_sorted (definitions s)) as Hsorted.
  assert (∀ id l d, definitions s !! id = Some l → h !! l = Some d →
    ∃ p, lookup_plan id new = Some p ∧
      ((∀ t, upAction d ≠ Some (Replay t)) → mp_up p = apply_opt (upAction d)) ∧
      ∀ t, t < id → is_Some (definitions s !! t) →
        ∃ pt, lookup_plan t new = Some pt ∧
          (upAction d = Some (Replay t) → mp_up p = mp_up pt) ∧
          (downAction d = Some (Replay t) → mp_down p = mp_up pt)) as Hcopy.
  { intros id l d Hl Hd.
    destruct (compiled_copy _ _ _ _ _ Hwf Hc Hsorted) with (id := id) (l := l) (d := d)
      as (p & Hp & Hpid & Hup & _ & Hcp); [|by apply elem_of_sorted_ids|done..|].
    { intros i q. by rewrite lookup_empty. }
    exists p. split; [by apply lookup_plan_elem_of|]. split; [done|].
    intros t Ht Hdef. destruct (Hcp t Ht) as (pt & [Hpt|Hpt] & Hptid & Hcp').
    { right. by apply elem_of_sorted_ids. }
    - exists pt. split; [by apply lookup_plan_elem_of|done].
    - by rewrite lookup_empty in Hpt. }
  split; [done|]. split.
  { intros Hes. eapply compiled_free; [done| |done]. intros i q. by rewrite lookup_empty. }
  split.
  - intros id l d t Hl Hd Ht Hdef.
    destruct (Hcopy id l d Hl Hd) as (p & Hp & _ & Hcp).
    destruct (Hcp t Ht Hdef) as (pt & Hpt & Hc'). by exists p, pt.
  - intros a b c la lb lc da db dc Hla Hda Hlb Hdb Hlc Hdc Hab Hbc Hna Hb Hcc.
    destruct (Hcopy c lc dc Hlc Hdc) as (pc & Hpc & _ & Hcpc).
    destruct (Hcpc b Hbc) as (pb & Hpb & Hcb & _); [by eexists|].
    destruct (Hcopy b lb db Hlb Hdb) as (pb' & Hpb' & _ & Hcpb).
    destruct (Hcpb a Hab) as (pa & Hpa & Hca & _); [by eexists|].
    destruct (Hcopy a la da Hla Hda) as (pa' & Hpa' & Hkeep & _).
    exists pc. split; [done|].
    rewrite (Hcb Hcc). assert (pb' = pb) as -> by congruence.
    rewrite (Hca Hb). assert (pa' = pa) as -> by congruence. by apply Hkeep.
Qed.

(** ** Defining a version twice *)

Lemma run_call_lookup_ne l l' c (h : heap) :
  l ≠ l' → run_call l' h c !! l = h !! l.
Proof.
  intros Hne. destruct c; simpl;
    unfold Definition_Up, Definition_Down, Definition_UpAction, Definition_DownAction;
    by rewrite list_lookup_alter_ne.
Qed.

Lemma run_calls_lookup_ne l l' cs (h : heap) :
  l ≠ l' → run_calls l' cs h !! l = h !! l.
Proof.
  intros Hne. unfold run_calls. revert h. induction cs as [|c cs IH]; intros h; simpl; [done|].
  by rewrite IH, run_call_lookup_ne.
Qed.

Lemma wf_defs_lt h defs id l : wf_defs h defs → defs !! id = Some l → (l < length h)%nat.
Proof.
  intros Hwf Hl. destruct (wf_defs_lookup _ _ _ _ Hwf Hl) as (d & Hd & _).
  by eapply lookup_lt_Some.
Qed.

(** C10 (a second [Define] of the same id).  When [id] is already
    registered, [Define id] appends the one error "defined more than
    once" for [id], leaves the map of definitions and every registered
    definition as they were, and returns a new definition that the schema
    does not hold: whatever sequence of [Up], [Down], [UpAction] and
    [DownAction] calls is made on it, the registered definitions, the
    compiled plans and the result of [Err] stay the same. *)
Theorem Define_twice_detached (h : heap) (s : Schema) (id : VersionID) (l0 : loc) :
  wf_defs h (definitions s) →
  definitions s !! id = Some l0 →
  ∃ h' s' l',
    Define id h s = (h', s', l') ∧
    errs s' = errs s ++ [mkError id "defined more than once"] ∧
    definitions s' = definitions s ∧
    plans s' = None ∧
    h' !! l' = Some (newDefinition id) ∧
    (∀ i l, definitions s' !! i = Some l → l ≠ l') ∧
    ∀ cs : list call,
      (∀ i l, definitions s' !! i = Some l → run_calls l' cs h' !! l = h !! l) ∧
      compile (run_calls l' cs h') (definitions s') = compile h (definitions s) ∧
      complete (run_calls l' cs h') s' = complete h' s' ∧
      Err (run_calls l' cs h') s' = Err h' s'.
Proof.
  intros Hwf Hl0. unfold Define. rewrite Hl0. do 3 eexists. split; [done|]. simpl.
  do 3 (split; [done|]).
  split. { by rewrite lookup_app_r, Nat.sub_diag. }
  assert (∀ i l, definitions s !! i = Some l → l ≠ length h) as Hne.
  { intros i l Hl. pose proof (wf_defs_lt _ _ _ _ Hwf Hl). lia. }
  split; [done|]. intros cs.
  assert (∀ i l, definitions s !! i = Some l →
    run_calls (length h) cs (h ++ [newDefinition id]) !! l = h !! l) as Hsame.
  { intros i l Hl. rewrite run_calls_lookup_ne by eauto.
    apply lookup_app_l. by eapply wf_defs_lt. }
  assert (∀ i l, definitions s !! i = Some l →
    (h ++ [newDefinition id]) !! l = h !! l) as Hsame'.
  { intros i l Hl. apply lookup_app_l. by eapply wf_defs_lt. }
  split; [done|].
  assert (compile (run_calls (length h) cs (h ++ [newDefinition id])) (definitions s)
          = compile h (definitions s)) as Hcompile by by apply compile_ext.
  assert (compile (h ++ [newDefinition id]) (definitions s)
          = compile h (definitions s)) as Hcompile' by by apply compile_ext.
  split; [done|].
  unfold Err, complete. simpl. by rewrite Hcompile, Hcompile'.
Qed.

(** ** The time scanner *)

Lemma parse_formats_None fs v :
  Forall (λ f, time_Parse env f v = None) fs → parse_formats fs v = None.
Proof. induction 1 as [|f fs Hf _ IH]; simpl; [done|]. by rewrite Hf. Qed.

(** C9 ([timeVal.Scan] is forgiving).  [Scan] never returns an error.  It
    yields the time itself for a [time.Time]; the time of that many
    seconds since the epoch, in UTC, for an integer; for a string, what
    [time.Parse] makes of it under the first of the layouts
    ["2006-01-02 15:04:05Z07:00"] (date and time separated by a space,
    with offset), [RFC3339] and [RFC3339Nano] (ISO 8601, the zone given
    as [Z] or as an offset) that accepts it; and the Unix epoch for nil,
    for a string none of the layouts accepts and for a value of any other
    type. *)
Theorem Scan_forgiving :
  (∀ src, (Scan src).2 = None) ∧
  (∀ t, tv_Time (Scan (VTime t)).1 = t) ∧
  (∀ v, tv_Time (Scan (VInt64 v)).1 = mkTime v 0 UTC) ∧
  (∀ s t,
     time_Parse env sqlite_layout s = Some t →
     tv_Time (Scan (VString s)).1 = t) ∧
  (∀ s t,
     time_Parse env sqlite_layout s = None →
     time_Parse env RFC3339 s = Some t →
     tv_Time (Scan (VString s)).1 = t) ∧
  (∀ s t,
     time_Parse env sqlite_layout s = None →
     time_Parse env RFC3339 s = None →
     time_Parse env RFC3339Nano s = Some t →
     tv_Time (Scan (VString s)).1 = t) ∧
  tv_Time (Scan VNil).1 = mkTime 0 0 UTC ∧
  (∀ s,
     time_Parse env sqlite_layout s = None →
     time_Parse env RFC3339 s = None →
     time_Parse env RFC3339Nano s = None →
     tv_Time (Scan (VString s)).1 = mkTime 0 0 UTC) ∧
  (∀ src,
     match src with
     | VFloat64 _ | VBool _ | VBytes _ => tv_Time (Scan src).1 = mkTime 0 0 UTC
     | _ => True
     end).
Proof.
  repeat split.
  - intros []; simpl; try done. by case_match.
  - intros s t H1. simpl. by rewrite H1.
  - intros s t H1 H2. simpl. by rewrite H1, H2.
  - intros s t H1 H2 H3. simpl. by rewrite H1, H2, H3.
  - intros s H1 H2 H3. simpl. by rewrite H1, H2, H3.
  - by intros [].
Qed.

(** ** The version summary *)

Lemma index_rows_spec rows i vid0 vm0 aset0 :
  ∃ vid vm aset,
    index_rows i rows (vid0, vm0, aset0) = (vid, vm, aset) ∧
    aset = list_to_set (ID <$> rows) ∪ aset0 ∧
    (∀ id, id ∉ ID <$> rows → vm !! id = vm0 !! id) ∧
    (NoDup (ID <$> rows) → ∀ k v, rows !! k = Some v → vm !! ID v = Some (i + k)%nat).
Proof.
  revert i vid0 vm0 aset0. induction rows as [|ver rows IH]; intros i vid0 vm0 aset0; simpl.
  { do 3 eexists. split; [done|]. split; [by rewrite (left_id_L ∅ (∪))|].
    split; [done|]. by intros _ k v. }
  destruct (IH (S i) (if vid0 <? ID ver then ID ver else vid0)
              (<[ID ver := i]> vm0) ({[ID ver]} ∪ aset0))
    as (vid & vm & aset & -> & -> & Hout & Hin).
  do 3 eexists. split; [done|]. split.
  { by rewrite (assoc_L (∪)), (comm_L (∪) _ {[ID ver]}). }
  split.
  - intros id [Hne Hid]%not_elem_of_cons. rewrite Hout by done. by rewrite lookup_insert_ne.
  - intros [Hver Hnd]%NoDup_cons [|k] v Hk; simpl in Hk.
    + simplify_eq. rewrite Hout by done. rewrite lookup_insert_eq. f_equal. lia.
    + rewrite (Hin Hnd k v Hk). f_equal. lia.
Qed.

Lemma lookup_plan_app id ps qs :
  lookup_plan id (ps ++ qs) =
  match lookup_plan id ps with Some p => Some p | None => lookup_plan id qs end.
Proof.
  unfold lookup_plan. induction ps as [|p ps IH]; simpl; [done|].
  by destruct (mp_id p =? id).
Qed.

(** The state of the loop over the plans once the plans [pps] are done. *)
Definition built (rows : list Version) (pps : list migrationPlan) (b : building) : Prop :=
  b_versions b = unsorted_versions pps rows ∧
  b_applied b = filter (has_row rows) pps ∧
  b_unapplied b = filter (no_row rows) pps ∧
  (∀ k v, rows !! k = Some v → b_vmap b !! ID v = Some k) ∧
  (∀ k p, filter (no_row rows) pps !! k = Some p →
     b_vmap b !! mp_id p = Some (length rows + k)%nat) ∧
  (∀ id, id ∉ ID <$> rows → id ∉ mp_id <$> filter (no_row rows) pps →
     b_vmap b !! id = None).

Lemma decorate_snoc_other pps plan v :
  ID v ≠ mp_id plan → decorate (pps ++ [plan]) v = decorate pps v.
Proof.
  intros Hne. unfold decorate. rewrite lookup_plan_app.
  destruct (lookup_plan (ID v) pps); [done|].
  unfold lookup_plan. simpl. by destruct (Z.eqb_spec (mp_id plan) (ID v)).
Qed.

Lemma decorate_snoc_same pps plan v :
  mp_id plan ∉ mp_id <$> pps → ID v = mp_id plan →
  decorate (pps ++ [plan]) v = set_Up_Down plan v ∧ decorate pps v = v.
Proof.
  intros Hnew Hid. unfold decorate. rewrite lookup_plan_app.
  rewrite Hid, (lookup_plan_None _ _ Hnew). unfold lookup_plan. simpl.
  by rewrite Z.eqb_refl.
Qed.

Lemma decorate_ID ps v : ID (decorate ps v) = ID v.
Proof. unfold decorate. by case_match. Qed.

Lemma alter_decorate rows pps plan k v :
  NoDup (ID <$> rows) →
  mp_id plan ∉ mp_id <$> pps →
  rows !! k = Some v → ID v = mp_id plan →
  alter (set_Up_Down plan) k (decorate pps <$> rows) = decorate (pps ++ [plan]) <$> rows.
Proof.
  intros Hnd Hnew Hk Hid. apply list_eq. intros j.
  destruct (decide (j = k)) as [->|Hjk].
  - rewrite list_lookup_alter_eq, !list_lookup_fmap, Hk. simpl.
    destruct (decorate_snoc_same pps plan v Hnew Hid) as [-> ->]. done.
  - rewrite list_lookup_alter_ne by done. rewrite !list_lookup_fmap.
    destruct (rows !! j) as [w|] eqn:Hj; [|done]. simpl. f_equal.
    symmetry. apply decorate_snoc_other. intros Hw.
    apply Hjk. eapply NoDup_lookup; [exact Hnd| |].
    + rewrite list_lookup_fmap, Hj. done.
    + rewrite list_lookup_fmap, Hk. simpl. congruence.
Qed.

Lemma built_step_row rows pps plan b k v :
  NoDup (ID <$> rows) →
  mp_id plan ∉ mp_id <$> pps →
  rows !! k = Some v → ID v = mp_id plan →
  built rows pps b →
  built rows (pps ++ [plan])
    (mkBuilding (alter (set_Up_Down plan) k (b_versions b))
       (b_applied b ++ [plan]) (b_unapplied b) (b_vmap b)).
Proof.
  intros Hnd Hnew Hk Hid (Hv & Ha & Hu & Hrow & Hph & Hnone).
  assert (has_row rows plan) as Hhas.
  { unfold has_row. rewrite <-Hid. apply list_elem_of_fmap_2. by eapply list_elem_of_lookup_2. }
  assert (filter (no_row rows) (pps ++ [plan]) = filter (no_row rows) pps) as Hf.
  { rewrite filter_app, filter_cons_False, filter_nil, app_nil_r; [done|]. by intros []. }
  unfold built, unsorted_versions in *. simpl. rewrite Hf. split; [|split; [|done]].
  - rewrite Hv, alter_app_l.
    + by rewrite (alter_decorate _ _ _ _ v).
    + rewrite length_fmap. by eapply lookup_lt_Some.
  - by rewrite Ha, filter_app, filter_cons_True, filter_nil.
Qed.

Lemma built_step_new rows pps plan b :
  mp_id plan ∉ mp_id <$> pps →
  no_row rows plan →
  built rows pps b →
  built rows (pps ++ [plan])
    (mkBuilding
       (b_versions b ++ [set_Up_Down plan (mkVersion (mp_id plan) None false false "" "")])
       (b_applied b) (b_unapplied b ++ [plan])
       (<[mp_id plan := length (b_versions b)]> (b_vmap b))).
Proof.
  intros Hnew Hno (Hv & Ha & Hu & Hrow & Hph & Hnone).
  assert (filter (no_row rows) (pps ++ [plan]) = filter (no_row rows) pps ++ [plan]) as Hf.
  { by rewrite filter_app, filter_cons_True, filter_nil. }
  assert (decorate (pps ++ [plan]) <$> rows = decorate pps <$> rows) as Hdec.
  { apply list_fmap_ext. intros j w Hj. apply decorate_snoc_other.
    intros Hw. apply Hno. rewrite <-Hw. apply list_elem_of_fmap_2.
    by eapply list_elem_of_lookup_2. }
  unfold built, unsorted_versions in *. simpl. rewrite Hf, Hdec. repeat split.
  - by rewrite Hv, fmap_app, <-app_assoc.
  - rewrite Ha, filter_app, filter_cons_False, filter_nil, app_nil_r; [done|].
    intros Hhas. by apply Hno.
  - by rewrite Hu.
  - intros k v Hk. rewrite lookup_insert_ne; [by apply Hrow|].
    intros Heq. apply Hno. rewrite Heq. apply list_elem_of_fmap_2.
    by eapply list_elem_of_lookup_2.
  - intros k p Hk. apply lookup_app_Some in Hk as [Hk|[Hlen Hk]].
    + rewrite lookup_insert_ne; [by apply Hph|].
      intros Heq. apply Hnew. rewrite Heq. apply list_elem_of_fmap_2.
      apply list_elem_of_lookup_2 in Hk. by apply list_elem_of_filter in Hk as [_ ?].
    + apply list_lookup_singleton_Some in Hk as [Hk0 <-].
      rewrite lookup_insert_eq. f_equal. rewrite Hv, length_app, !length_fmap. lia.
  - intros id Hid Hin. rewrite fmap_app, not_elem_of_app in Hin. destruct Hin as [Hin1 Hin2].
    rewrite lookup_insert_ne; [by apply Hnone|].
    intros Heq. apply Hin2. rewrite <-Heq. simpl. left.
Qed.

Lemma partition_plans_built rows pps ps b :
  NoDup (ID <$> rows) →
  NoDup (mp_id <$> (pps ++ ps)) →
  built rows pps b →
  ∃ b', partition_plans (list_to_set (ID <$> rows)) ps b = Some b' ∧
        built rows (pps ++ ps) b'.
Proof.
  intros Hnd. revert pps b. induction ps as [|plan ps IH]; intros pps b Hps Hb; simpl.
  { exists b. by rewrite app_nil_r. }
  assert (mp_id plan ∉ mp_id <$> pps) as Hnew.
  { rewrite fmap_app, fmap_cons in Hps. apply NoDup_app in Hps as (_ & Hps & _).
    intros Hin. apply (Hps _ Hin). left. }
  rewrite (assoc_L (++) pps [plan] ps : pps ++ plan :: ps = (pps ++ [plan]) ++ ps) in Hps |- *.
  destruct (decide (has_row rows plan)) as [Hhas|Hno].
  - rewrite bool_decide_eq_true_2 by (by apply elem_of_list_to_set).
    unfold has_row in Hhas. apply list_elem_of_fmap in Hhas as (v & Hid & Hv).
    apply list_elem_of_lookup in Hv as [k Hk].
    destruct Hb as (Hv & Ha & Hu & Hrow & Hph & Hnone).
    pose proof (Hrow k v Hk) as Hi. rewrite <-Hid in Hi. rewrite Hi. simpl.
    apply IH; [done|]. by apply (built_step_row _ _ _ _ _ v).
  - rewrite bool_decide_eq_false_2 by (by rewrite elem_of_list_to_set).
    apply IH; [done|]. by apply built_step_new.
Qed.

Lemma unsorted_versions_IDs ps rows :
  ID <$> unsorted_versions ps rows = (ID <$> rows) ++ (mp_id <$> filter (no_row rows) ps).
Proof.
  unfold unsorted_versions. rewrite fmap_app, <-!list_fmap_compose. f_equal.
  apply list_fmap_ext. intros ? v _. apply decorate_ID.
Qed.

Lemma unsorted_versions_NoDup ps rows :
  NoDup (ID <$> rows) → NoDup (mp_id <$> ps) → NoDup (ID <$> unsorted_versions ps rows).
Proof.
  intros Hrows Hps. rewrite unsorted_versions_IDs. apply NoDup_app. split; [done|]. split.
  - intros id Hid (p & -> & [Hno _]%list_elem_of_filter)%list_elem_of_fmap. by apply Hno.
  - eapply NoDup_fmap_2_strong; [|apply NoDup_filter; by eapply NoDup_fmap_1].
    intros p q [_ Hp]%list_elem_of_filter [_ Hq]%list_elem_of_filter Heq.
    apply list_elem_of_lookup in Hp as [i Hi]. apply list_elem_of_lookup in Hq as [j Hj].
    assert (i = j) as ->; [|congruence].
    eapply NoDup_lookup; [exact Hps| |]; rewrite list_lookup_fmap.
    + by rewrite Hi.
    + rewrite Hj. simpl. by rewrite Heq.
Qed.

(** The summary, for rows and plans with distinct ids: it never panics,
    and its fields are the sorted versions, the plans with a row in
    descending order, the plans without in ascending order, and the map
    from each id shown to its version. *)
Lemma summarize_spec ps rows :
  NoDup (ID <$> rows) → NoDup (mp_id <$> ps) →
  ∃ vs, summarize ps rows = Some vs ∧
    versions vs = sort_Slice (λ v1 v2, ID v1 <? ID v2) (unsorted_versions ps rows) ∧
    applied vs = sort_Slice (λ p1 p2, mp_id p2 <? mp_id p1) (filter (has_row rows) ps) ∧
    unapplied vs = sort_Slice (λ p1 p2, mp_id p1 <? mp_id p2) (filter (no_row rows) ps) ∧
    (∀ id v, vmap vs !! id = Some v ↔ v ∈ unsorted_versions ps rows ∧ ID v = id).
Proof.
  intros Hrows Hps. unfold summarize.
  destruct (index_rows_spec rows 0 0 ∅ ∅) as (vid & vm & aset & -> & -> & Hout & Hin).
  rewrite (right_id_L ∅ (∪)).
  destruct (partition_plans_built rows [] ps (mkBuilding rows [] [] vm)) as (b & -> & Hb);
    [done|done| |].
  { unfold built, unsorted_versions. simpl. repeat split.
    - rewrite app_nil_r. symmetry. rewrite <-(list_fmap_id rows) at 2.
      apply list_fmap_ext. by intros.
    - intros k v Hk. by rewrite (Hin Hrows k v Hk).
    - by intros k p.
    - intros id Hid _. by rewrite Hout, lookup_empty. }
  simpl in Hb. destruct Hb as (Hv & Ha & Hu & Hrow & Hph & Hnone).
  eexists. split; [done|]. simpl. rewrite Hv, Ha, Hu. do 3 (split; [done|]).
  intros id v. rewrite lookup_omap. split.
  - intros Hlook. destruct (b_vmap b !! id) as [i|] eqn:Hi; [|done]. simpl in Hlook.
    split; [by eapply list_elem_of_lookup_2|].
    destruct (decide (id ∈ ID <$> rows)) as [Hid|Hid].
    + apply list_elem_of_fmap in Hid as (w & -> & Hw).
      apply list_elem_of_lookup in Hw as [k Hk].
      rewrite (Hrow k w Hk) in Hi. simplify_eq.
      unfold unsorted_versions in Hlook. rewrite lookup_app_l in Hlook
        by (rewrite length_fmap; by eapply lookup_lt_Some).
      rewrite list_lookup_fmap, Hk in Hlook. simplify_eq/=. apply decorate_ID.
    + destruct (decide (id ∈ mp_id <$> filter (no_row rows) ps)) as [Hid'|Hid'].
      * apply list_elem_of_fmap in Hid' as (p & -> & Hp).
        apply list_elem_of_lookup in Hp as [k Hk].
        rewrite (Hph k p Hk) in Hi. simplify_eq.
        unfold unsorted_versions in Hlook. rewrite lookup_app_r in Hlook
          by (rewrite length_fmap; lia).
        rewrite length_fmap in Hlook.
        replace (length rows + k - length rows)%nat with k in Hlook by lia.
        rewrite list_lookup_fmap, Hk in Hlook. by simplify_eq/=.
      * by rewrite Hnone in Hi.
  - intros [Hv' <-]. unfold unsorted_versions in Hv'.
    apply elem_of_app in Hv' as [Hv'|Hv'].
    + apply list_elem_of_fmap in Hv' as (w & -> & Hw).
      apply list_elem_of_lookup in Hw as [k Hk].
      rewrite decorate_ID, (Hrow k w Hk). simpl.
      unfold unsorted_versions. rewrite lookup_app_l
        by (rewrite length_fmap; by eapply lookup_lt_Some).
      by rewrite list_lookup_fmap, Hk.
    + apply list_elem_of_fmap in Hv' as (p & -> & Hp).
      apply list_elem_of_lookup in Hp as [k Hk].
      simpl. rewrite (Hph k p Hk). simpl.
      unfold unsorted_versions. rewrite lookup_app_r by (rewrite length_fmap; lia).
      rewrite length_fmap.
      replace (length rows + k - length rows)%nat with k by lia.
      by rewrite list_lookup_fmap, Hk.
Qed.

(** *** The rows as the driver lists them *)

Lemma ListVersions_sorted t : StronglySorted (asc ID) (ListVersions t).
Proof.
  unfold ListVersions.
  eapply (StronglySorted_fmap _ (asc (λ kr : Z * row, kr.1))); [by intros [] []|].
  apply sort_Slice_sorted; [done|]. apply NoDup_fst_map_to_list.
Qed.

Lemma ListVersions_NoDup t : NoDup (ID <$> ListVersions t).
Proof. apply asc_NoDup, ListVersions_sorted. Qed.

Lemma elem_of_ListVersions t v :
  v ∈ ListVersions t ↔ ∃ r, t !! ID v = Some r ∧ v = scan_row (ID v, r).
Proof.
  unfold ListVersions. rewrite list_elem_of_fmap. split.
  - intros ([id r] & -> & Hin). exists r. split; [|done].
    rewrite sort_Slice_perm in Hin.
    by apply elem_of_map_to_list in Hin.
  - intros (r & Hr & Hv). exists (ID v, r). split; [done|].
    rewrite sort_Slice_perm.
    by apply elem_of_map_to_list.
Qed.

Lemma elem_of_ListVersions_IDs t id : id ∈ ID <$> ListVersions t ↔ is_Some (t !! id).
Proof.
  rewrite list_elem_of_fmap. split.
  - intros (v & -> & (r & Hr & _)%elem_of_ListVersions). by eexists.
  - intros [r Hr]. exists (scan_row (id, r)). split; [done|].
    apply elem_of_ListVersions. by exists r.
Qed.

Lemma has_row_ListVersions t ps :
  filter (has_row (ListVersions t)) ps = applied_of t ps.
Proof.
  apply list_filter_iff. intros p. unfold has_row. apply elem_of_ListVersions_IDs.
Qed.

Lemma no_row_ListVersions t ps :
  filter (no_row (ListVersions t)) ps = unapplied_of t ps.
Proof.
  apply list_filter_iff. intros p. unfold no_row.
  rewrite elem_of_ListVersions_IDs. by rewrite eq_None_not_Some.
Qed.

(** *** Looking a version up by its id *)

Lemma find_ID_Some id (l : list Version) v :
  find (λ ver, ID ver =? id) l = Some v → v ∈ l ∧ ID v = id.
Proof.
  induction l as [|w l IH]; simpl; [done|].
  destruct (Z.eqb_spec (ID w) id) as [Heq|Hne].
  - intros [= <-]. split; [left|done].
  - intros [Hin Hid]%IH. split; [by right|done].
Qed.

Lemma find_ID_elem_of id (l : list Version) v :
  NoDup (ID <$> l) → v ∈ l → ID v = id → find (λ ver, ID ver =? id) l = Some v.
Proof.
  induction l as [|w l IH]; simpl; intros Hnd Hin Hid.
  { by apply elem_of_nil in Hin. }
  apply NoDup_cons in Hnd as [Hw Hnd].
  apply elem_of_cons in Hin as [->|Hin].
  { by rewrite (proj2 (Z.eqb_eq _ _) Hid). }
  destruct (Z.eqb_spec (ID w) id) as [Heq|Hne]; [|by apply IH].
  exfalso. apply Hw. rewrite Heq, <-Hid. by apply list_elem_of_fmap_2.
Qed.

(** *** The summary of a table *)

Lemma decorate_fields ps v :
  ID (decorate ps v) = ID v ∧ AppliedAt (decorate ps v) = AppliedAt v ∧
  Failed (decorate ps v) = Failed v ∧ Locked (decorate ps v) = Locked v.
Proof. unfold decorate. by case_match. Qed.

Record summary_of (t : gmap Z row) (ps : list migrationPlan) (vs : versionSummary) : Prop := {
  so_applied : applied vs = reverse (applied_of t ps);
  so_unapplied : unapplied vs = unapplied_of t ps;
  so_sorted : StronglySorted (asc ID) (versions vs);
  so_perm : versions vs ≡ₚ unsorted_versions ps (ListVersions t);
  so_vmap : ∀ id v, vmap vs !! id = Some v ↔ v ∈ versions vs ∧ ID v = id
}.

Lemma summarize_table t ps :
  StronglySorted (asc mp_id) ps →
  ∃ vs, summarize ps (ListVersions t) = Some vs ∧ summary_of t ps vs.
Proof.
  intros Hps.
  destruct (summarize_spec ps (ListVersions t)) as (vs & Hvs & Hv & Ha & Hu & Hm).
  { apply ListVersions_NoDup. }
  { by apply asc_NoDup. }
  exists vs. split; [done|].
  assert (versions vs ≡ₚ unsorted_versions ps (ListVersions t)) as Hperm.
  { rewrite Hv. apply sort_Slice_perm. }
  split.
  - rewrite Ha, has_row_ListVersions. apply (sort_Slice_reverse mp_id).
    by apply asc_filter.
  - rewrite Hu, no_row_ListVersions. apply (sort_Slice_id mp_id); [done|].
    by apply asc_filter.
  - rewrite Hv. apply sort_Slice_sorted; [done|].
    apply unsorted_versions_NoDup; [apply ListVersions_NoDup|by apply asc_NoDup].
  - done.
  - intros id v. rewrite Hm. by rewrite Hperm.
Qed.

(** *** Workers made by [NewWorker] *)

Lemma wf_schema_empty : wf_schema [] empty_Schema.
Proof. split; [apply map_Forall_empty|done]. Qed.

Lemma wf_schema_Define id h s :
  wf_schema h s → wf_schema (Define id h s).1.1 (Define id h s).1.2.
Proof.
  intros [Hwf _]. unfold Define.
  assert (wf_defs (h ++ [newDefinition id]) (definitions s)) as Hwf'.
  { intros i l Hl. simpl. destruct (wf_defs_lookup _ _ _ _ Hwf Hl) as (d & Hd & Hid).
    by rewrite (lookup_app_l_Some _ _ _ _ Hd), <-Hid. }
  destruct (definitions s !! id) eqn:Hid; simpl; (split; [|done]); [done|].
  apply map_Forall_insert; [done|]. split; [|done].
  simpl. by rewrite lookup_app_r, Nat.sub_diag.
Qed.

Lemma wf_schema_run_call l c h s : wf_schema h s → wf_schema (run_call l h c) s.
Proof.
  intros [Hwf Hps]. split; [|done]. intros i l' Hl'. simpl.
  destruct (wf_defs_lookup _ _ _ _ Hwf Hl') as (d & Hd & Hid).
  destruct (decide (l' = l)) as [->|Hne]; [|by rewrite run_call_lookup_ne, Hd, <-Hid].
  destruct c; simpl;
    unfold Definition_Up, Definition_Down, Definition_UpAction, Definition_DownAction;
    rewrite list_lookup_alter_eq, Hd; simpl; by rewrite <-Hid.
Qed.

Lemma wf_schema_complete h s s' :
  wf_schema h s → complete h s = Some s' → wf_schema h s'.
Proof.
  intros [Hwf Hps]. unfold complete. destruct (plans s) as [ps|] eqn:Hplans.
  { intros [= <-]. split; [done|]. by rewrite Hplans. }
  destruct (compile h (definitions s)) as [ps|] eqn:Hc; intros; simplify_eq/=.
  split; [done|]. simpl. intros ps' [= <-]. by eapply compile_ids.
Qed.

Lemma NewWorker_ok pkgname h s m :
  wf_schema h s → NewWorker pkgname h s = Some (worker m) → worker_ok m.
Proof.
  intros Hwf. unfold NewWorker, Err.
  destruct (complete h s) as [s'|] eqn:Hc; [|done]. simpl.
  destruct (wf_schema_complete _ _ _ Hwf Hc) as [_ Hps].
  assert (is_Some (plans s')) as [ps Hplans].
  { unfold complete in Hc. destruct (plans s) eqn:Hp; simplify_eq/=; [by rewrite Hp|].
    destruct (compile h (definitions s)); simplify_eq/=. by eexists. }
  repeat case_match; intros; simplify_eq/=. exists ps. split; [done|]. by apply Hps.
Qed.

Lemma worker_ok_sorted m : worker_ok m → StronglySorted (asc mp_id) (schema_plans m).
Proof.
  intros (ps & Hps & Hids). unfold schema_plans. rewrite Hps. simpl.
  pose proof (sorted_ids_sorted (definitions (schema m))) as Hs. rewrite <-Hids in Hs.
  clear Hids Hps. induction ps as [|p ps IH]; [constructor|].
  rewrite fmap_cons in Hs. apply StronglySorted_cons in Hs as [Hp Hs].
  constructor; [by apply IH|]. by rewrite Forall_fmap in Hp.
Qed.

Lemma worker_ok_defined m id :
  worker_ok m → id ∈ mp_id <$> schema_plans m ↔ is_Some (definitions (schema m) !! id).
Proof.
  intros (ps & Hps & Hids). unfold schema_plans. rewrite Hps. simpl.
  by rewrite Hids, elem_of_sorted_ids.
Qed.

(** The summary the worker reads, in any state. *)
Lemma getVersionSummaryAllowFailed_ok m st :
  worker_ok m →
  ∃ vs, getVersionSummaryAllowFailed m st = (Ok vs, st) ∧
        summary_of (tbl st) (schema_plans m) vs.
Proof.
  intros Hm. destruct (summarize_table (tbl st) (schema_plans m)) as (vs & Hvs & Hso).
  { by apply worker_ok_sorted. }
  exists vs. split; [|done].
  unfold getVersionSummaryAllowFailed, bind, listVersions. by rewrite Hvs.
Qed.

Lemma persisted_decorate ps v : persisted (decorate ps v) = persisted v.
Proof. unfold persisted. by destruct (decorate_fields ps v) as (-> & -> & -> & ->). Qed.

(** C8 (shape of the version summary).  For a worker made for a compiled
    schema and any table of persisted rows, the summary is produced and:
    its applied plans are the plans that have a row, in strictly
    descending order of id; its unapplied plans are the plans that have
    none, in strictly ascending order; its versions are in strictly
    ascending order of id; and, as to id, applied_at, failed and locked,
    its versions are the persisted rows together with one placeholder
    (the id, no applied_at, not failed, not locked) for each plan that
    has no row. *)
Theorem summary_shape (m : Worker) (st : State) :
  worker_ok m →
  ∃ vs,
    getVersionSummaryAllowFailed m st = (Ok vs, st) ∧
    StronglySorted (λ p q, mp_id q < mp_id p) (applied vs) ∧
    StronglySorted (λ p q, mp_id p < mp_id q) (unapplied vs) ∧
    StronglySorted (λ v w, ID v < ID w) (versions vs) ∧
    (∀ p, p ∈ applied vs ↔ p ∈ schema_plans m ∧ is_Some (tbl st !! mp_id p)) ∧
    (∀ p, p ∈ unapplied vs ↔ p ∈ schema_plans m ∧ tbl st !! mp_id p = None) ∧
    persisted <$> versions vs ≡ₚ
      (row_content <$> map_to_list (tbl st)) ++ (placeholder_content <$> unapplied vs).
Proof.
  intros Hm. destruct (getVersionSummaryAllowFailed_ok m st Hm) as (vs & Hvs & Hso).
  pose proof (worker_ok_sorted m Hm) as Hsorted.
  exists vs. split; [done|]. destruct Hso as [Ha Hu Hs Hp Hmap].
  split; [|split; [|split; [done|split; [|split]]]].
  - rewrite Ha. apply (asc_filter mp_id (λ p, is_Some (tbl st !! mp_id p))) in Hsorted.
    apply asc_reverse in Hsorted. rewrite <-(list_fmap_id (reverse _)).
    eapply (StronglySorted_fmap id); [|exact Hsorted].
    unfold asc. intros; simpl in *; lia.
  - rewrite Hu. by apply (asc_filter mp_id).
  - intros p. rewrite Ha, elem_of_reverse. unfold applied_of.
    rewrite list_elem_of_filter. tauto.
  - intros p. rewrite Hu. unfold unapplied_of. rewrite list_elem_of_filter. tauto.
  - rewrite Hp, Hu. unfold unsorted_versions. rewrite fmap_app, no_row_ListVersions.
    apply Permutation_app.
    + unfold ListVersions. rewrite <-!list_fmap_compose.
      rewrite <-(sort_Slice_perm (λ a b : Z * row, a.1 <? b.1) (map_to_list (tbl st))) at 2.
      erewrite list_fmap_ext; [done|]. intros ? kr _. simpl.
      by rewrite persisted_decorate.
    + by rewrite <-list_fmap_compose.
Qed.

(** *** What a summary holds for a row and for a plan *)

Section summary_facts.

Context (t : gmap Z row) (ps : list migrationPlan) (vs : versionSummary).
Hypothesis Hso : summary_of t ps vs.

Lemma elem_of_versions v :
  v ∈ versions vs ↔
    (∃ r, t !! ID v = Some r ∧ v = decorate ps (scan_row (ID v, r))) ∨
    (∃ p, p ∈ ps ∧ t !! mp_id p = None ∧ v = placeholder p).
Proof.
  rewrite (so_perm _ _ _ Hso). unfold unsorted_versions.
  rewrite elem_of_app, !list_elem_of_fmap. split.
  - intros [(w & -> & (r & Hr & Hw)%elem_of_ListVersions)|(p & -> & Hp)].
    + left. exists r. rewrite decorate_ID. split; [done|]. by rewrite Hw at 1.
    + right. rewrite no_row_ListVersions in Hp. apply list_elem_of_filter in Hp as [Hp Hin].
      by exists p.
  - intros [(r & Hr & Hv)|(p & Hin & Hp & ->)].
    + left. exists (scan_row (ID v, r)). split; [done|].
      apply elem_of_ListVersions. by exists r.
    + right. exists p. split; [done|]. rewrite no_row_ListVersions.
      by apply list_elem_of_filter.
Qed.

Lemma versions_NoDup : NoDup (ID <$> versions vs).
Proof. apply asc_NoDup, (so_sorted _ _ _ Hso). Qed.

Lemma versions_row id r :
  t !! id = Some r →
  decorate ps (scan_row (id, r)) ∈ versions vs ∧
  vmap vs !! id = Some (decorate ps (scan_row (id, r))) ∧
  find (λ ver, ID ver =? id) (versions vs) = Some (decorate ps (scan_row (id, r))).
Proof.
  intros Hr.
  assert (decorate ps (scan_row (id, r)) ∈ versions vs) as Hin.
  { apply elem_of_versions. left. exists r. by rewrite decorate_ID. }
  split; [done|]. split.
  - apply (so_vmap _ _ _ Hso). split; [done|]. by rewrite decorate_ID.
  - apply find_ID_elem_of; [apply versions_NoDup|done|]. by rewrite decorate_ID.
Qed.

Lemma versions_plan p :
  p ∈ ps → ∃ v, find (λ ver, ID ver =? mp_id p) (versions vs) = Some v ∧ ID v = mp_id p.
Proof.
  intros Hp. destruct (t !! mp_id p) as [r|] eqn:Hr.
  - destruct (versions_row _ _ Hr) as (_ & _ & Hf). eexists. split; [done|].
    by rewrite decorate_ID.
  - exists (placeholder p). split; [|done].
    apply find_ID_elem_of; [apply versions_NoDup| |done].
    apply elem_of_versions. right. by exists p.
Qed.

Lemma existsb_Failed_true : some_failed t → existsb Failed (versions vs) = true.
Proof.
  intros (id & r & Hr & Hf). apply existsb_exists.
  exists (decorate ps (scan_row (id, r))). split.
  - apply list_elem_of_In. by apply versions_row.
  - by destruct (decorate_fields ps (scan_row (id, r))) as (_ & _ & -> & _).
Qed.

Lemma existsb_Failed_false : no_failed t → existsb Failed (versions vs) = false.
Proof.
  intros Hno. apply not_true_is_false. intros (v & Hin & Hf)%existsb_exists.
  apply list_elem_of_In, elem_of_versions in Hin as [(r & Hr & Hv)|(p & _ & _ & ->)].
  - destruct (decorate_fields ps (scan_row (ID v, r))) as (_ & _ & Hfd & _).
    rewrite Hv, Hfd in Hf. simpl in Hf. by rewrite (Hno _ _ Hr) in Hf.
  - done.
Qed.

Lemma applied_head p rest :
  applied vs = p :: rest → p ∈ ps ∧ is_Some (t !! mp_id p).
Proof.
  intros Ha. assert (p ∈ applied vs) as Hin by (rewrite Ha; left).
  rewrite (so_applied _ _ _ Hso), elem_of_reverse in Hin.
  apply list_elem_of_filter in Hin. tauto.
Qed.

End summary_facts.

Lemma failed_dec t : {some_failed t} + {no_failed t}.
Proof.
  destruct (decide (map_Exists (λ _ r, failed r = true) t)) as [Hex|Hno].
  - left. destruct Hex as (id & r & Hr & Hf). by exists id, r.
  - right. intros id r Hr. apply not_true_is_false. intros Hf. apply Hno. by exists id, r.
Qed.

Lemma getVersionSummary_failed m st :
  worker_ok m → some_failed (tbl st) →
  getVersionSummary m st = (Raise "previously failed", st).
Proof.
  intros Hm Hf. destruct (getVersionSummaryAllowFailed_ok m st Hm) as (vs & Hvs & Hso).
  unfold getVersionSummary, bind. rewrite Hvs.
  by rewrite (existsb_Failed_true _ _ _ Hso Hf).
Qed.

Lemma getVersionSummary_ok m st :
  worker_ok m → no_failed (tbl st) →
  ∃ vs, getVersionSummary m st = (Ok vs, st) ∧ summary_of (tbl st) (schema_plans m) vs.
Proof.
  intros Hm Hf. destruct (getVersionSummaryAllowFailed_ok m st Hm) as (vs & Hvs & Hso).
  exists vs. split; [|done]. unfold getVersionSummary, bind. rewrite Hvs.
  by rewrite (existsb_Failed_false _ _ _ Hso Hf).
Qed.

(** ** One step down, one step up *)

Lemma find_plan_elem_of m p :
  worker_ok m → p ∈ schema_plans m → find_plan m (mp_id p) = Some p.
Proof.
  intros Hm Hp. apply lookup_plan_elem_of; [|done..].
  by apply asc_NoDup, worker_ok_sorted.
Qed.

Lemma downOne_eq m st :
  worker_ok m → no_failed (tbl st) → downOne m st = downOne_result m st.
Proof.
  intros Hm Hf. destruct (getVersionSummary_ok m st Hm Hf) as (vs & Hvs & Hso).
  unfold downOne, downOne_result, bind, transact. rewrite Hvs.
  rewrite <-(so_applied _ _ _ Hso).
  destruct (applied vs) as [|p rest] eqn:Ha; [by destruct st|].
  destruct (applied_head _ _ _ Hso _ _ Ha) as [Hp [r Hr]]. rewrite Hr.
  destruct (versions_row _ _ _ Hso _ _ Hr) as (_ & _ & ->).
  destruct (decorate_fields (schema_plans m) (scan_row (mp_id p, r))) as (HID & _ & _ & HL).
  rewrite HL, HID. simpl.
  destruct (locked r); [by destruct st|].
  unfold chosen_effect, in_tx, run_effect, wrapping, ret, log, DeleteVersion.
  destruct st as [t d k lg ic]; simpl in *.
  destruct (txFunc (mp_down p)) as [ftx|] eqn:Htx; simpl.
  { destruct (ftx d) as [d' [msg|]]; reflexivity. }
  destruct (dbFunc (mp_down p)) as [fdb|] eqn:Hdb; simpl.
  { rewrite orb_true_r, andb_false_r. simpl. unfold downOneNoTx, bind, transact, wrapping,
      run_effect, SetVersionFailed, DeleteVersion, log, ret.
    rewrite (find_plan_elem_of m p Hm Hp). simpl. rewrite Hdb. simpl.
    destruct (fdb d) as [d' [msg|]]; simpl; [reflexivity|].
    by rewrite delete_alter_eq. }
  rewrite orb_false_r, andb_true_r.
  destruct (SupportsTransactionalDDL (drv m)); simpl.
  { destruct (exec_sql env (sql (mp_down p)) d) as [d' [msg|]]; reflexivity. }
  unfold downOneNoTx, bind, transact, wrapping, run_effect, SetVersionFailed,
    DeleteVersion, log, ret.
  rewrite (find_plan_elem_of m p Hm Hp). simpl. rewrite Hdb. simpl.
  destruct (exec_sql env (sql (mp_down p)) d) as [d' [msg|]]; simpl; [reflexivity|].
  by rewrite delete_alter_eq.
Qed.

Lemma unapplied_head t ps vs p rest :
  summary_of t ps vs → unapplied vs = p :: rest → p ∈ ps ∧ t !! mp_id p = None.
Proof.
  intros Hso Hu. assert (p ∈ unapplied vs) as Hin by (rewrite Hu; left).
  rewrite (so_unapplied _ _ _ Hso) in Hin. apply list_elem_of_filter in Hin. tauto.
Qed.

Lemma upOne_eq m st :
  worker_ok m → no_failed (tbl st) → upOne m st = upOne_result m st.
Proof.
  intros Hm Hf. destruct (getVersionSummary_ok m st Hm Hf) as (vs & Hvs & Hso).
  unfold upOne, upOne_result, bind, transact. rewrite Hvs.
  rewrite <-(so_unapplied _ _ _ Hso).
  destruct (unapplied vs) as [|p rest] eqn:Hu; [by destruct st|].
  destruct (unapplied_head _ _ _ _ _ Hso Hu) as [Hp Hr].
  unfold chosen_effect, in_tx, run_effect, wrapping, ret, log, time_Now, InsertVersion.
  destruct st as [t d k lg ic]; simpl in *.
  destruct (txFunc (mp_up p)) as [ftx|] eqn:Htx; simpl.
  { destruct (ftx d) as [d' [msg|]]; simpl; [reflexivity|]. by rewrite Hr. }
  destruct (dbFunc (mp_up p)) as [fdb|] eqn:Hdb; simpl.
  { rewrite orb_true_r, andb_false_r. simpl.
    unfold upOneNoTx, bind, transact, wrapping, run_effect, SetVersionFailed, InsertVersion,
      time_Now, log, ret.
    rewrite (find_plan_elem_of m p Hm Hp). simpl. rewrite Hr, Hdb. simpl.
    destruct (fdb d) as [d' [msg|]]; simpl; [reflexivity|].
    by rewrite alter_insert_eq. }
  rewrite orb_false_r, andb_true_r.
  destruct (SupportsTransactionalDDL (drv m)); simpl.
  { destruct (exec_sql env (sql (mp_up p)) d) as [d' [msg|]]; simpl; [reflexivity|].
    by rewrite Hr. }
  unfold upOneNoTx, bind, transact, wrapping, run_effect, SetVersionFailed, InsertVersion,
    time_Now, log, ret.
  rewrite (find_plan_elem_of m p Hm Hp). simpl. rewrite Hr, Hdb. simpl.
  destruct (exec_sql env (sql (mp_up p)) d) as [d' [msg|]]; simpl; [reflexivity|].
  by rewrite alter_insert_eq.
Qed.

(** ** Tables and the plans applied in them *)

Lemma filter_all {A} (P : A → Prop) `{!∀ x, Decision (P x)} (l : list A) :
  (∀ x, x ∈ l → P x) → filter P l = l.
Proof.
  induction l as [|x l IH]; intros Hl; [done|].
  rewrite filter_cons_True by (apply Hl; left). f_equal. apply IH.
  intros y Hy. apply Hl. by right.
Qed.

Lemma filter_none {A} (P : A → Prop) `{!∀ x, Decision (P x)} (l : list A) :
  (∀ x, x ∈ l → ¬ P x) → filter P l = [].
Proof.
  induction l as [|x l IH]; intros Hl; [done|].
  rewrite filter_cons_False by (apply Hl; left). apply IH.
  intros y Hy. apply Hl. by right.
Qed.

(** Two ascending lists with the same elements are the same list. *)
Lemma asc_ext {A} (key : A → Z) (l1 l2 : list A) :
  StronglySorted (asc key) l1 → StronglySorted (asc key) l2 →
  (∀ x, x ∈ l1 ↔ x ∈ l2) → l1 = l2.
Proof.
  intros H1 H2 Hext. apply (asc_unique key); [done..|].
  apply NoDup_Permutation; [| |done].
  - eapply NoDup_fmap_1. by apply asc_NoDup.
  - eapply NoDup_fmap_1. by apply asc_NoDup.
Qed.

Lemma asc_key_inj {A} (key : A → Z) (l : list A) x y :
  StronglySorted (asc key) l → x ∈ l → y ∈ l → key x = key y → x = y.
Proof.
  intros Hl Hx Hy Heq. apply asc_NoDup in Hl.
  apply list_elem_of_lookup in Hx as [i Hi]. apply list_elem_of_lookup in Hy as [j Hj].
  assert (i = j) as ->; [|congruence].
  eapply NoDup_lookup; [exact Hl| |]; rewrite list_lookup_fmap.
  - by rewrite Hi.
  - rewrite Hj. simpl. by rewrite Heq.
Qed.

Section tables.

Context (ps : list migrationPlan).
Hypothesis Hps : StronglySorted (asc mp_id) ps.

Lemma applied_of_sorted t : StronglySorted (asc mp_id) (applied_of t ps).
Proof. by apply asc_filter. Qed.

Lemma unapplied_of_sorted t : StronglySorted (asc mp_id) (unapplied_of t ps).
Proof. by apply asc_filter. Qed.

Lemma elem_of_applied_of t p : p ∈ applied_of t ps ↔ p ∈ ps ∧ is_Some (t !! mp_id p).
Proof. unfold applied_of. rewrite list_elem_of_filter. tauto. Qed.

Lemma elem_of_unapplied_of t p : p ∈ unapplied_of t ps ↔ p ∈ ps ∧ t !! mp_id p = None.
Proof. unfold unapplied_of. rewrite list_elem_of_filter. tauto. Qed.

Lemma asc_tail {A} (key : A → Z) x (l : list A) :
  StronglySorted (asc key) (x :: l) →
  StronglySorted (asc key) l ∧ ∀ y, y ∈ l → key x < key y.
Proof.
  intros [Hx Hl]%StronglySorted_cons. split; [done|]. by rewrite Forall_forall in Hx.
Qed.

(** Inserting the row of the lowest unapplied plan leaves the others. *)
Lemma unapplied_of_insert t p rest r :
  unapplied_of t ps = p :: rest →
  unapplied_of (<[mp_id p := r]> t) ps = rest.
Proof.
  intros Hu. pose proof (unapplied_of_sorted t) as Hs. rewrite Hu in Hs.
  apply asc_tail in Hs as [Hrest Hlt].
  apply (asc_ext mp_id); [apply unapplied_of_sorted|done|].
  intros q. rewrite elem_of_unapplied_of. split.
  - intros [Hq Hnone]. apply lookup_insert_None in Hnone as [Hnone Hne].
    assert (q ∈ unapplied_of t ps) as Hin by by apply elem_of_unapplied_of.
    rewrite Hu in Hin. apply elem_of_cons in Hin as [->|Hin]; [done|done].
  - intros Hq. assert (q ∈ unapplied_of t ps) as Hin by (rewrite Hu; by right).
    apply elem_of_unapplied_of in Hin as [Hin Hnone]. split; [done|].
    apply lookup_insert_None. split; [done|]. specialize (Hlt q Hq). lia.
Qed.

Lemma applied_of_insert t p r :
  p ∈ ps → ∀ q, q ∈ applied_of (<[mp_id p := r]> t) ps ↔ q = p ∨ q ∈ applied_of t ps.
Proof.
  intros Hp q. rewrite !elem_of_applied_of. split.
  - intros [Hq Hsome]. destruct (decide (mp_id q = mp_id p)) as [Heq|Hne].
    + left. by eapply asc_key_inj.
    + right. by rewrite lookup_insert_ne in Hsome.
  - intros [->|[Hq Hsome]].
    + split; [done|]. rewrite lookup_insert_eq. by eexists.
    + split; [done|]. rewrite lookup_insert. case_decide; [by eexists|done].
Qed.

(** Deleting the row of the highest applied plan leaves the others. *)
Lemma applied_of_delete t p rest :
  reverse (applied_of t ps) = p :: rest →
  reverse (applied_of (delete (mp_id p) t) ps) = rest.
Proof.
  intros Ha.
  assert (applied_of t ps = reverse rest ++ [p]) as Ha'.
  { rewrite <-(reverse_involutive (applied_of t ps)), Ha. by rewrite reverse_cons. }
  pose proof (applied_of_sorted t) as Hs. rewrite Ha' in Hs.
  apply StronglySorted_app in Hs as (Hlt & Hrest & _).
  rewrite <-(reverse_involutive rest). f_equal.
  apply (asc_ext mp_id); [apply applied_of_sorted|done|].
  intros q. rewrite elem_of_applied_of. split.
  - intros [Hq Hsome]. rewrite lookup_delete in Hsome.
    case_decide as Hne; [by destruct Hsome|].
    assert (q ∈ applied_of t ps) as Hin by by apply elem_of_applied_of.
    rewrite Ha' in Hin. apply elem_of_app in Hin as [Hin|Hin%list_elem_of_singleton];
      [done|by subst].
  - intros Hq. assert (q ∈ applied_of t ps) as Hin.
    { rewrite Ha'. apply elem_of_app. by left. }
    apply elem_of_applied_of in Hin as [Hin Hsome]. split; [done|].
    rewrite lookup_delete_ne; [done|].
    specialize (Hlt q p Hq). unfold asc in Hlt. cut (mp_id q < mp_id p); [lia|].
    apply Hlt. by apply list_elem_of_singleton.
Qed.

Lemma unapplied_of_delete t p :
  p ∈ ps → ∀ q, q ∈ unapplied_of (delete (mp_id p) t) ps ↔ q = p ∨ q ∈ unapplied_of t ps.
Proof.
  intros Hp q. rewrite !elem_of_unapplied_of. split.
  - intros [Hq Hnone]. destruct (decide (mp_id q = mp_id p)) as [Heq|Hne].
    + left. by eapply asc_key_inj.
    + right. by rewrite lookup_delete_ne in Hnone.
  - intros [->|[Hq Hnone]].
    + split; [done|]. by rewrite lookup_delete_eq.
    + split; [done|]. rewrite lookup_delete. by case_decide.
Qed.

End tables.

(** ** Pieces of the public operations *)

Lemma init_eq st : init st = (Ok (), after_init st).
Proof. unfold init, after_init. destruct st as [t d k lg []]; reflexivity. Qed.

Lemma after_init_idem st : initCalled st = true → after_init st = st.
Proof. destruct st as [t d k lg ic]. unfold after_init. simpl. by intros ->. Qed.

(** [finished] only logs. *)
Lemma finished_eq m msg st :
  worker_ok m → ∃ args, finished_ m msg st = (Ok (), logged args st).
Proof.
  intros Hm. destruct (getVersionSummaryAllowFailed_ok m st Hm) as (vs & Hvs & Hso).
  unfold finished_, finished, transact, bind. rewrite Hvs.
  destruct (applied vs) as [|p rest] eqn:Ha.
  { eexists. unfold log, logged. reflexivity. }
  destruct (applied_head _ _ _ Hso _ _ Ha) as [Hp [r Hr]].
  destruct (versions_row _ _ _ Hso _ _ Hr) as (_ & -> & _).
  eexists. unfold log, logged. reflexivity.
Qed.

Lemma checkLocked_loop_eq t ps vs id l :
  summary_of t ps vs →
  (∀ p, p ∈ l → is_Some (t !! mp_id p)) →
  checkLocked_loop (vmap vs) id l =
  match first_locked t id l with
  | Some V => Raise ("database schema version locked id=" +:+ fmt_d V)
  | None => Ok ()
  end.
Proof.
  intros Hso. induction l as [|a l IH]; intros Hl; simpl; [done|].
  destruct (mp_id a <=? id); [done|].
  destruct (Hl a) as [r Hr]; [left|]. rewrite Hr.
  destruct (versions_row _ _ _ Hso _ _ Hr) as (_ & -> & _).
  destruct (decorate_fields ps (scan_row (mp_id a, r))) as (_ & _ & _ & ->). simpl.
  destruct (locked r); [done|]. apply IH. intros p Hp. apply Hl. by right.
Qed.

Lemma checkLocked_eq t ps vs id :
  summary_of t ps vs →
  checkLocked vs id =
  match first_locked t id (reverse (applied_of t ps)) with
  | Some V => Raise ("database schema version locked id=" +:+ fmt_d V)
  | None => Ok ()
  end.
Proof.
  intros Hso. unfold checkLocked. rewrite (so_applied _ _ _ Hso).
  apply (checkLocked_loop_eq t ps); [done|].
  intros p Hp. rewrite elem_of_reverse in Hp. unfold applied_of in Hp.
  apply list_elem_of_filter in Hp. tauto.
Qed.

(** The first transaction of [gotoOne]. *)
Lemma goto_counts_failed m id st :
  worker_ok m → some_failed (tbl st) →
  goto_counts m id st = (Raise "previously failed", st).
Proof.
  intros Hm Hf. unfold goto_counts, transact, bind.
  rewrite (getVersionSummary_failed m st Hm Hf). by destruct st.
Qed.

Lemma goto_counts_eq m id st :
  worker_ok m → no_failed (tbl st) →
  goto_counts m id st =
  match first_locked (tbl st) id (reverse (applied_of (tbl st) (schema_plans m))) with
  | Some V => (Raise ("database schema version locked id=" +:+ fmt_d V), st)
  | None =>
      (Ok (count_down id (reverse (applied_of (tbl st) (schema_plans m))),
           count_up id (unapplied_of (tbl st) (schema_plans m))), st)
  end.
Proof.
  intros Hm Hf. destruct (getVersionSummary_ok m st Hm Hf) as (vs & Hvs & Hso).
  unfold goto_counts, transact, bind, lift. rewrite Hvs.
  rewrite (checkLocked_eq _ _ _ id Hso).
  rewrite (so_applied _ _ _ Hso), (so_unapplied _ _ _ Hso).
  destruct (first_locked _ _ _); [by destruct st|done].
Qed.

(** *** The two counts *)

Lemma count_down_zero id l :
  StronglySorted (asc (λ p, - mp_id p)) l →
  count_down id l = 0%nat ↔ ∀ q, q ∈ l → mp_id q ≤ id.
Proof.
  intros Hl. destruct l as [|a l]; simpl.
  { split; [|done]. intros _ q Hq. by apply elem_of_nil in Hq. }
  apply asc_tail in Hl as [_ Hlt].
  destruct (Z.leb_spec (mp_id a) id) as [Hle|Hgt]; split; try done.
  - intros _ q [->|Hq]%elem_of_cons; [done|]. specialize (Hlt q Hq). simpl in Hlt. lia.
  - intros Hall. assert (a ∈ a :: l) as Ha by left. specialize (Hall a Ha). lia.
Qed.

Lemma count_up_zero id l :
  StronglySorted (asc mp_id) l →
  count_up id l = 0%nat ↔ ∀ q, q ∈ l → id < mp_id q.
Proof.
  intros Hl. destruct l as [|a l]; simpl.
  { split; [|done]. intros _ q Hq. by apply elem_of_nil in Hq. }
  apply asc_tail in Hl as [_ Hlt].
  destruct (Z.ltb_spec id (mp_id a)) as [Hlt'|Hge]; split; try done.
  - intros _ q [->|Hq]%elem_of_cons; [done|]. specialize (Hlt q Hq). lia.
  - intros Hall. assert (a ∈ a :: l) as Ha by left. specialize (Hall a Ha). lia.
Qed.

Lemma count_down_zero_first_locked t id l :
  count_down id l = 0%nat → first_locked t id l = None.
Proof. destruct l as [|a l]; simpl; [done|]. by destruct (mp_id a <=? id). Qed.

(** ** The failed-state gate *)

Lemma rollback_same (st : State) : set_data (data st) (set_tbl (tbl st) st) = st.
Proof. by destruct st. Qed.

Lemma upOne_failed m st :
  worker_ok m → some_failed (tbl st) → upOne m st = (Raise "previously failed", st).
Proof.
  intros Hm Hf. unfold upOne, transact, bind.
  rewrite (getVersionSummary_failed m st Hm Hf). by rewrite rollback_same.
Qed.

Lemma downOne_failed m st :
  worker_ok m → some_failed (tbl st) → downOne m st = (Raise "previously failed", st).
Proof.
  intros Hm Hf. unfold downOne, transact, bind.
  rewrite (getVersionSummary_failed m st Hm Hf). by rewrite rollback_same.
Qed.

Lemma gotoOne_failed m id st :
  worker_ok m → some_failed (tbl st) → gotoOne m id st = (Raise "previously failed", st).
Proof.
  intros Hm Hf. unfold gotoOne, bind. by rewrite (goto_counts_failed m id st Hm Hf).
Qed.

Lemma checkVersion_defined m id st :
  is_Some (definitions (schema m) !! id) → checkVersion m id st = (Ok (), st).
Proof. intros [l Hl]. unfold checkVersion. by rewrite Hl. Qed.

Lemma checkVersion_undefined m id st :
  definitions (schema m) !! id = None →
  checkVersion m id st = (Raise ("invalid schema version id=" +:+ fmt_d id), st).
Proof. intros Hl. unfold checkVersion. by rewrite Hl. Qed.

Lemma lockHelper_failed m id verb lock st :
  worker_ok m → is_Some (definitions (schema m) !! id) → some_failed (tbl st) →
  lockHelper m id verb lock st = (Raise "previously failed", after_init st).
Proof.
  intros Hm Hid Hf. unfold lockHelper, bind, transact.
  rewrite (checkVersion_defined m id st Hid), init_eq.
  rewrite (getVersionSummary_failed m (after_init st) Hm Hf). by rewrite rollback_same.
Qed.

Lemma goto_first_eq m id st :
  id = 0 ∨ is_Some (definitions (schema m) !! id) →
  ((if id =? 0 then ret () else checkVersion m id) ;; init) st = (Ok (), after_init st).
Proof.
  intros Hid. unfold bind. destruct (Z.eqb_spec id 0) as [->|Hne].
  - unfold ret. by rewrite init_eq.
  - destruct Hid as [?|Hid]; [done|]. by rewrite (checkVersion_defined m id st Hid), init_eq.
Qed.

Lemma Worker_Versions_eq m st :
  worker_ok m →
  ∃ vs, Worker_Versions m st = (Ok (versions vs), after_init st) ∧
        summary_of (tbl st) (schema_plans m) vs.
Proof.
  intros Hm. destruct (getVersionSummaryAllowFailed_ok m (after_init st) Hm) as (vs & Hvs & Hso).
  exists vs. split; [|done]. unfold Worker_Versions, bind, transact. rewrite init_eq.
  unfold bind. by rewrite Hvs.
Qed.

Lemma Worker_Version_eq m id st :
  worker_ok m → is_Some (definitions (schema m) !! id) →
  ∃ v, Worker_Version m id st = (Ok v, after_init st) ∧ ID v = id.
Proof.
  intros Hm Hid.
  destruct (getVersionSummaryAllowFailed_ok m (after_init st) Hm) as (vs & Hvs & Hso).
  apply (worker_ok_defined m id Hm) in Hid as Hin.
  apply list_elem_of_fmap in Hin as (p & -> & Hp).
  destruct (versions_plan _ _ _ Hso p Hp) as (v & Hfind & HID).
  exists v. split; [|done]. unfold Worker_Version, bind, transact.
  rewrite (checkVersion_defined m _ st Hid), init_eq.
  unfold bind. rewrite Hvs. by rewrite Hfind.
Qed.

(** The loop of [Force] only deletes rows and clears failed marks. *)
Lemma force_loop_ok (vm : gmap Z Version) id l st :
  (∀ p, p ∈ l → is_Some (vm !! mp_id p)) →
  ∃ st', force_loop vm id l st = (Ok (), st') ∧ data st' = data st.
Proof.
  revert st. induction l as [|p l IH]; intros st Hl; simpl.
  { by exists st. }
  destruct (Hl p) as [ver Hver]; [left|]. unfold bind. rewrite Hver.
  assert (∀ q, q ∈ l → is_Some (vm !! mp_id q)) as Hl' by (intros q Hq; apply Hl; by right).
  destruct (id <? ID ver); [|destruct (Failed ver)];
    unfold DeleteVersion, SetVersionFailed, log, ret; simpl;
    match goal with
    | |- context [force_loop vm id l ?s] => destruct (IH s Hl') as (st' & -> & Hd)
    end; by exists st'.
Qed.

Lemma bind_ok {A B} (c : M A) (k : A → M B) st a st' :
  c st = (Ok a, st') → bind c k st = k a st'.
Proof. unfold bind. by intros ->. Qed.

Lemma check_id_ok m id st :
  id = 0 ∨ is_Some (definitions (schema m) !! id) →
  (if id =? 0 then ret () else checkVersion m id) st = (Ok (), st).
Proof.
  intros Hid. destruct (Z.eqb_spec id 0) as [->|Hne]; [done|].
  destruct Hid as [?|Hid]; [done|]. by apply checkVersion_defined.
Qed.

Lemma Worker_Force_ok m id st :
  worker_ok m →
  id = 0 ∨ (is_Some (definitions (schema m) !! id) ∧ is_Some (tbl st !! id)) →
  first_locked (tbl st) id (reverse (applied_of (tbl st) (schema_plans m))) = None →
  ∃ st', Worker_Force m id st = (Ok (), st') ∧ data st' = data st.
Proof.
  intros Hm Hid Hlock.
  destruct (getVersionSummaryAllowFailed_ok m (after_init st) Hm) as (vs & Hvs & Hso).
  assert (∀ p, p ∈ applied vs → is_Some (vmap vs !! mp_id p)) as Hvm.
  { intros p Hp. rewrite (so_applied _ _ _ Hso), elem_of_reverse in Hp.
    apply list_elem_of_filter in Hp as [[r Hr] _].
    destruct (versions_row _ _ _ Hso _ _ Hr) as (_ & Hv & _). by eexists. }
  destruct (force_loop_ok (vmap vs) id (applied vs) (after_init st) Hvm) as (st1 & Hloop & Hd).
  destruct (finished_eq m "database schema version forced" st1 Hm) as (args & Hfin).
  exists (logged args st1). split; [|by simpl; rewrite Hd].
  unfold Worker_Force.
  rewrite (bind_ok _ _ st () st) by (apply check_id_ok; destruct Hid as [?|[? _]]; auto).
  rewrite (bind_ok _ _ st () (after_init st)) by apply init_eq.
  rewrite (bind_ok _ _ (after_init st) () st1); [done|].
  unfold transact. rewrite (bind_ok _ _ _ _ _ Hvs).
  rewrite (bind_ok _ _ (after_init st) () (after_init st)).
  2:{ unfold lift. rewrite (checkLocked_eq _ _ _ id Hso). simpl. by rewrite Hlock. }
  rewrite (bind_ok _ _ (after_init st) () (after_init st)); [by rewrite Hloop|].
  destruct (Z.eqb_spec id 0) as [|Hne]; [done|].
  destruct Hid as [?|[Hdef [r Hr]]]; [done|].
  apply (worker_ok_defined m id Hm) in Hdef.
  apply list_elem_of_fmap in Hdef as (p & -> & Hp).
  assert (existsb (λ plan, mp_id plan =? mp_id p) (applied vs) = true) as ->; [|done].
  apply existsb_exists. exists p. split; [|apply Z.eqb_refl].
  apply list_elem_of_In. rewrite (so_applied _ _ _ Hso), elem_of_reverse.
  apply list_elem_of_filter. split; [by eexists|done].
Qed.

(** C3 (the failed-state gate).  In any state whose table holds a row
    marked failed, [Up], [Down], [Goto] (to a defined id or to 0), [Lock]
    and [Unlock] (of a defined id) return the error "previously failed"
    and leave the table, the data and the log as they were; with an id
    that is not defined, [Goto], [Lock] and [Unlock] are refused as well,
    by the check of the id.  [Versions], [Version] (of a defined id) and
    [Force] (to 0 or to an applied version, no locked version above it)
    read the summary with the failed rows in it and succeed. *)
Theorem failed_gate (m : Worker) (st : State) :
  worker_ok m →
  some_failed (tbl st) →
  (∀ fuel, Worker_Up m (S fuel) st = Some (Raise "previously failed", after_init st)) ∧
  (∀ fuel, Worker_Down m (S fuel) st = Some (Raise "previously failed", after_init st)) ∧
  (∀ id fuel,
     id = 0 ∨ is_Some (definitions (schema m) !! id) →
     Worker_Goto m id (S fuel) st = Some (Raise "previously failed", after_init st)) ∧
  (∀ id,
     is_Some (definitions (schema m) !! id) →
     Worker_Lock m id st = (Raise "previously failed", after_init st) ∧
     Worker_Unlock m id st = (Raise "previously failed", after_init st)) ∧
  (∀ id,
     definitions (schema m) !! id = None →
     (id ≠ 0 → ∀ fuel,
        Worker_Goto m id fuel st
        = Some (Raise ("invalid schema version id=" +:+ fmt_d id), st)) ∧
     Worker_Lock m id st = (Raise ("invalid schema version id=" +:+ fmt_d id), st) ∧
     Worker_Unlock m id st = (Raise ("invalid schema version id=" +:+ fmt_d id), st)) ∧
  (∃ vs, Worker_Versions m st = (Ok vs, after_init st)) ∧
  (∀ id,
     is_Some (definitions (schema m) !! id) →
     ∃ v, Worker_Version m id st = (Ok v, after_init st) ∧ ID v = id) ∧
  (∀ id,
     id = 0 ∨ (is_Some (definitions (schema m) !! id) ∧ is_Some (tbl st !! id)) →
     first_locked (tbl st) id (reverse (applied_of (tbl st) (schema_plans m))) = None →
     ∃ st', Worker_Force m id st = (Ok (), st')).
Proof.
  intros Hm Hf. repeat split.
  - intros fuel. unfold Worker_Up, then_loop. rewrite init_eq. simpl.
    by rewrite (upOne_failed m (after_init st) Hm Hf).
  - intros fuel. unfold Worker_Down, then_loop. rewrite init_eq. simpl.
    by rewrite (downOne_failed m (after_init st) Hm Hf).
  - intros id fuel Hid. unfold Worker_Goto, then_loop. rewrite (goto_first_eq m id st Hid).
    simpl. by rewrite (gotoOne_failed m id (after_init st) Hm Hf).
  - by apply lockHelper_failed.
  - by apply lockHelper_failed.
  - intros Hne fuel. unfold Worker_Goto, then_loop, bind.
    destruct (Z.eqb_spec id 0); [done|]. by rewrite checkVersion_undefined.
  - unfold Worker_Lock, lockHelper, bind. by rewrite checkVersion_undefined.
  - unfold Worker_Unlock, lockHelper, bind. by rewrite checkVersion_undefined.
  - destruct (Worker_Versions_eq m st Hm) as (vs & Hvs & _). by eexists.
  - intros id Hid. by apply Worker_Version_eq.
  - intros id Hid Hlock. destruct (Worker_Force_ok m id st Hm Hid Hlock) as (st' & Hst' & _).
    by exists st'.
Qed.

(** ** Goto *)

Lemma no_failed_delete t id : no_failed t → no_failed (delete id t).
Proof.
  intros Hf i r. rewrite lookup_delete. case_decide; [done|]. apply Hf.
Qed.

Lemma no_failed_insert t id r : no_failed t → failed r = false → no_failed (<[id := r]> t).
Proof.
  intros Hf Hr i r'. rewrite lookup_insert. case_decide; [by intros [= <-]|]. apply Hf.
Qed.

Lemma no_failed_not_some t : no_failed t → some_failed t → False.
Proof. intros Hno (id & r & Hr & Hf). by rewrite (Hno id r Hr) in Hf. Qed.

(** At rest, [gotoOne] counts nothing to do and does nothing. *)
Lemma gotoOne_at_rest m id st :
  worker_ok m → at_rest id (tbl st) (schema_plans m) →
  goto_counts m id st = (Ok (0, 0)%nat, st) ∧ gotoOne m id st = (Ok false, st).
Proof.
  intros Hm (Hf & Hd & Hu).
  assert (goto_counts m id st = (Ok (0, 0)%nat, st)) as Hc.
  { rewrite (goto_counts_eq m id st Hm Hf).
    by rewrite (count_down_zero_first_locked _ _ _ Hd), Hd, Hu. }
  split; [done|]. unfold gotoOne. by rewrite (bind_ok _ _ _ _ _ Hc).
Qed.

(** When [gotoOne] reports that nothing is left, the table is at rest. *)
Lemma gotoOne_last m id st st' :
  worker_ok m → gotoOne m id st = (Ok false, st') →
  at_rest id (tbl st') (schema_plans m) ∧ initCalled st' = initCalled st.
Proof.
  intros Hm. pose proof (worker_ok_sorted m Hm) as Hps.
  destruct (failed_dec (tbl st)) as [Hf|Hf].
  { by rewrite (gotoOne_failed m id st Hm Hf). }
  unfold gotoOne, bind. rewrite (goto_counts_eq m id st Hm Hf).
  destruct (first_locked _ _ _) as [V|] eqn:Hlock; [done|].
  pose proof (λ q, elem_of_applied_of (schema_plans m) (tbl st) q) as HinA.
  pose proof (λ q, elem_of_unapplied_of (schema_plans m) (tbl st) q) as HinU.
  pose proof (applied_of_sorted _ Hps (tbl st)) as HsA. apply asc_reverse in HsA.
  pose proof (unapplied_of_sorted _ Hps (tbl st)) as HsU.
  case_bool_decide as HD.
  - (* one step down *)
    rewrite (downOne_eq m st Hm Hf). unfold downOne_result.
    destruct (reverse (applied_of (tbl st) (schema_plans m))) as [|p rest] eqn:HA;
      [simpl in HD; lia|].
    simpl in HD, Hlock |- *. destruct (Z.leb_spec (mp_id p) id) as [|Hgt]; [lia|].
    destruct (tbl st !! mp_id p) as [r|] eqn:Hr; [|done].
    destruct (locked r); [done|].
    destruct (chosen_effect (mp_down p) (data st)) as [d [msg|]]; [by case_match|].
    intros [= Hmore <-]; simpl. split; [|done].
    apply bool_decide_eq_false in Hmore.
    assert (p ∈ schema_plans m) as Hp.
    { apply HinA. rewrite <-elem_of_reverse, HA. left. }
    split; [by apply no_failed_delete|]. split.
    + rewrite (applied_of_delete _ Hps _ _ _ HA). lia.
    + apply count_up_zero; [by apply unapplied_of_sorted|].
      intros q [->|Hq]%(unapplied_of_delete _ Hps); [lia| |done].
      assert (count_up id (unapplied_of (tbl st) (schema_plans m)) = 0%nat) as HU by lia.
      by apply (proj1 (count_up_zero id _ HsU) HU).
  - case_bool_decide as HU.
    + (* one step up *)
      rewrite (upOne_eq m st Hm Hf). unfold upOne_result.
      destruct (unapplied_of (tbl st) (schema_plans m)) as [|p rest] eqn:HUe;
        [simpl in HU; lia|].
      simpl in HU |- *. destruct (Z.ltb_spec id (mp_id p)) as [|Hle]; [lia|].
      assert (p ∈ schema_plans m ∧ tbl st !! mp_id p = None) as [Hp Hnone].
      { apply HinU. left. }
      assert (count_down id (reverse (applied_of (tbl st) (schema_plans m))) = 0%nat)
        as HA0 by lia.
      pose proof (proj1 (count_down_zero id _ HsA) HA0) as HA.
      destruct (chosen_effect (mp_up p) (data st)) as [d [msg|]];
        destruct (in_tx (drv m) (mp_up p)); try done;
        (intros [= Hmore <-]; simpl; split; [|done];
         apply bool_decide_eq_false in Hmore;
         split; [by apply no_failed_insert|]; split;
         [ apply count_down_zero; [by apply asc_reverse, applied_of_sorted|];
           intros q Hq; rewrite elem_of_reverse in Hq;
           apply (applied_of_insert _ Hps) in Hq as [->|Hq]; [lia| |done];
           apply HA; by rewrite elem_of_reverse
         | rewrite (unapplied_of_insert _ Hps _ _ _ _ HUe); lia ]).
    + (* nothing to do *)
      intros [= _ <-]. split; [|done]. split; [done|]. split; lia.
Qed.

Lemma step_loop_success m fuel step msg st st' :
  step_loop m fuel step msg st = Some (Ok (), st') →
  ∃ s1 s2, step s1 = (Ok false, s2) ∧ finished_ m msg s2 = (Ok (), st').
Proof.
  revert st. induction fuel as [|fuel IH]; intros st; simpl; [done|].
  destruct (step st) as [[[]|e|] s] eqn:Hstep; try done.
  - apply IH.
  - intros [= Hfin]. by exists st, s.
Qed.

(** C7 ([Goto] twice).  If [Goto id] has returned without error, the
    first transaction of a further [gotoOne id] counts no pending down
    step and no pending up step, [gotoOne id] itself returns at once with
    the state as it is, and a second [Goto id], whatever number of turns
    its loop is allowed, returns without error and leaves every row of
    the table, and the data, as they are. *)
Theorem Goto_twice (m : Worker) (id : VersionID) (fuel : nat) (st st' : State) :
  worker_ok m →
  Worker_Goto m id fuel st = Some (Ok (), st') →
  goto_counts m id st' = (Ok (0, 0)%nat, st') ∧
  gotoOne m id st' = (Ok false, st') ∧
  ∀ fuel', ∃ st'',
    Worker_Goto m id (S fuel') st' = Some (Ok (), st'') ∧
    tbl st'' = tbl st' ∧ data st'' = data st' ∧ ticks st'' = ticks st'.
Proof.
  intros Hm. unfold Worker_Goto, then_loop.
  destruct (((if id =? 0 then ret () else checkVersion m id);; init) st) as [[[]|e|] s0] eqn:H0;
    [|done..].
  assert (id = 0 ∨ is_Some (definitions (schema m) !! id)) as Hid.
  { destruct (Z.eqb_spec id 0) as [|Hne]; [by left|]. right.
    unfold bind, checkVersion in H0.
    destruct (definitions (schema m) !! id); [by eexists|done]. }
  intros (s1 & s2 & Hlast & Hfin)%step_loop_success.
  destruct (gotoOne_last m id s1 s2 Hm Hlast) as [Hrest _].
  destruct (finished_eq m "migrate goto finished" s2 Hm) as (args & Hfin').
  rewrite Hfin' in Hfin. injection Hfin as <-.
  assert (at_rest id (tbl (logged args s2)) (schema_plans m)) as Hrest' by done.
  destruct (gotoOne_at_rest m id _ Hm Hrest') as [Hc Hg].
  split; [done|]. split; [done|]. intros fuel'.
  rewrite (goto_first_eq m id _ Hid). simpl.
  assert (at_rest id (tbl (after_init (logged args s2))) (schema_plans m)) as Hrest'' by done.
  destruct (gotoOne_at_rest m id _ Hm Hrest'') as [_ ->].
  destruct (finished_eq m "migrate goto finished" (after_init (logged args s2)) Hm)
    as (args' & ->).
  by eexists.
Qed.

(** ** Up *)

(** The loop of [Up] started on an empty table, after the plans [pre]
    and before the plans [todo]. *)
Record up_inv (m : Worker) (st0 st : State) (pre todo : list migrationPlan) : Prop := {
  ui_plans : schema_plans m = pre ++ todo;
  ui_unapplied : unapplied_of (tbl st) (schema_plans m) = todo;
  ui_rows : ∀ i, is_Some (tbl st !! i) ↔ i ∈ mp_id <$> pre;
  ui_clean : ∀ i r, tbl st !! i = Some r →
    failed r = false ∧ locked r = false ∧
    ∃ k, applied_at r = VTime (clock env k) ∧ (k < ticks st)%nat;
  ui_order : ∀ i j ri rj, tbl st !! i = Some ri → tbl st !! j = Some rj → i < j →
    ∃ ti tj, applied_at ri = VTime ti ∧ applied_at rj = VTime tj ∧ time_le ti tj;
  ui_data : data st = run_ups pre (data st0);
  ui_logs : logs st = logs st0 ++ (up_message <$> pre)
}.

Lemma up_inv_no_failed m st0 st pre todo : up_inv m st0 st pre todo → no_failed (tbl st).
Proof. intros [] i r Hr. by destruct (ui_clean0 i r Hr). Qed.

Lemma up_inv_start m st :
  worker_ok m → tbl st = ∅ → up_inv m (after_init st) (after_init st) [] (schema_plans m).
Proof.
  intros Hm Hempty. split; simpl; rewrite ?Hempty.
  - done.
  - unfold unapplied_of. apply filter_all. intros p _. apply lookup_empty.
  - intros i. rewrite lookup_empty. split; [by intros []|by intros ?%elem_of_nil].
  - intros i r. by rewrite lookup_empty.
  - intros i j ri rj. by rewrite lookup_empty.
  - done.
  - by rewrite app_nil_r.
Qed.

Lemma up_inv_insert m st0 st pre p rest k n ic :
  worker_ok m → monotone_clock →
  up_inv m st0 st pre (p :: rest) →
  (ticks st ≤ k)%nat → (k < n)%nat →
  up_inv m st0
    (mkState (<[mp_id p := mkRow (VTime (clock env k)) false false]> (tbl st))
       (chosen_effect (mp_up p) (data st)).1 n (logs st ++ [up_message p]) ic)
    (pre ++ [p]) rest.
Proof.
  intros Hm Hclock [Hplans Hun Hrows Hclean Horder Hdata Hlogs] Hk Hn.
  pose proof (worker_ok_sorted m Hm) as Hps.
  assert (∀ i, i ∈ mp_id <$> pre → i < mp_id p) as Hbelow.
  { intros i (q & -> & Hq)%list_elem_of_fmap. rewrite Hplans in Hps.
    apply (StronglySorted_app_1_elem_of _ _ _ q p) in Hps; [done|done|left]. }
  split; simpl.
  - by rewrite Hplans, <-app_assoc.
  - by apply unapplied_of_insert.
  - intros i. rewrite fmap_app, elem_of_app, <-Hrows. simpl.
    rewrite list_elem_of_singleton, lookup_insert.
    case_decide; subst; (split; [intros ?|intros [?|?]]); eauto; done.
  - intros i r. rewrite lookup_insert. case_decide.
    + intros [= <-]. simpl. eauto.
    + intros Hr. destruct (Hclean i r Hr) as (? & ? & k' & ? & ?).
      do 2 (split; [done|]). exists k'. split; [done|lia].
  - intros i j ri rj. rewrite !lookup_insert. repeat case_decide; subst.
    + lia.
    + intros _ Hj Hlt. exfalso.
      assert (j < mp_id p); [|lia]. apply Hbelow, Hrows. by eexists.
    + intros Hi [= <-] _. destruct (Hclean i ri Hi) as (_ & _ & k' & Hk' & Hlt).
      exists (clock env k'), (clock env k). do 2 (split; [done|]). apply Hclock. lia.
    + apply Horder.
  - unfold run_ups. by rewrite foldl_app, Hdata.
  - by rewrite Hlogs, fmap_app, <-app_assoc.
Qed.

Lemma up_inv_step m st0 st pre p rest b st' :
  worker_ok m → monotone_clock →
  up_inv m st0 st pre (p :: rest) →
  upOne m st = (Ok b, st') →
  up_inv m st0 st' (pre ++ [p]) rest ∧ b = bool_decide (1 < length (p :: rest))%nat.
Proof.
  intros Hm Hclock Hinv.
  rewrite (upOne_eq m st Hm (up_inv_no_failed _ _ _ _ _ Hinv)).
  unfold upOne_result. rewrite (ui_unapplied _ _ _ _ _ Hinv).
  pose proof (up_inv_insert m st0 st pre p rest) as Hins.
  destruct (chosen_effect (mp_up p) (data st)) as [d e] eqn:He.
  simpl in Hins.
  destruct (in_tx (drv m) (mp_up p)), e as [msg|]; try done; intros [= <- <-].
  - split; [|done]. apply (Hins (ticks st)); try done; lia.
  - split; [|done]. apply (Hins (S (ticks st))); try done; lia.
Qed.

Lemma up_inv_done m st0 st pre :
  worker_ok m → up_inv m st0 st pre [] → upOne m st = (Ok false, st).
Proof.
  intros Hm Hinv. rewrite (upOne_eq m st Hm (up_inv_no_failed _ _ _ _ _ Hinv)).
  unfold upOne_result. by rewrite (ui_unapplied _ _ _ _ _ Hinv).
Qed.

Lemma up_loop m fuel msg st0 st pre todo st' :
  worker_ok m → monotone_clock →
  up_inv m st0 st pre todo →
  step_loop m fuel (upOne m) msg st = Some (Ok (), st') →
  ∃ s args, up_inv m st0 s (schema_plans m) [] ∧ st' = logged args s.
Proof.
  intros Hm Hclock. revert st pre todo.
  induction fuel as [|fuel IH]; intros st pre todo Hinv; simpl; [done|].
  destruct (upOne m st) as [[b|e|] s] eqn:Hstep; [|done..].
  assert (b = true ∨ b = false) as [->| ->] by (destruct b; auto).
  - destruct todo as [|p rest].
    { by rewrite (up_inv_done m st0 st pre Hm Hinv) in Hstep. }
    destruct (up_inv_step _ _ _ _ _ _ _ _ Hm Hclock Hinv Hstep) as [Hinv' _].
    by apply (IH s (pre ++ [p]) rest).
  - destruct (finished_eq m msg s Hm) as (args & ->). intros [= <-].
    exists s, args. split; [|done].
    destruct todo as [|p rest].
    { rewrite (up_inv_done m st0 st pre Hm Hinv) in Hstep. injection Hstep as <-.
      pose proof (ui_plans _ _ _ _ _ Hinv) as Hp. rewrite app_nil_r in Hp. by rewrite Hp. }
    destruct (up_inv_step _ _ _ _ _ _ _ _ Hm Hclock Hinv Hstep) as [Hinv' Hb].
    symmetry in Hb. apply bool_decide_eq_false in Hb.
    destruct rest as [|q rest]; [|simpl in Hb; lia].
    pose proof (ui_plans _ _ _ _ _ Hinv') as Hp. rewrite app_nil_r in Hp. by rewrite Hp.
Qed.

(** The loop of [Up] ends within one turn per unapplied plan, and one
    more. *)
Lemma up_loop_total m fuel msg st :
  worker_ok m →
  (length (unapplied_of (tbl st) (schema_plans m)) < fuel)%nat →
  is_Some (step_loop m fuel (upOne m) msg st).
Proof.
  intros Hm. pose proof (worker_ok_sorted m Hm) as Hps.
  revert st. induction fuel as [|fuel IH]; intros st Hlen; [lia|]. simpl.
  destruct (failed_dec (tbl st)) as [Hf|Hf].
  { by rewrite (upOne_failed m st Hm Hf). }
  rewrite (upOne_eq m st Hm Hf). unfold upOne_result.
  destruct (unapplied_of (tbl st) (schema_plans m)) as [|p rest] eqn:HU; [done|].
  simpl in Hlen.
  destruct (chosen_effect (mp_up p) (data st)) as [d [e|]];
    destruct (in_tx (drv m) (mp_up p)); try done;
    (case_bool_decide; [|done]; apply IH; simpl;
     rewrite (unapplied_of_insert _ Hps _ _ _ _ HU); lia).
Qed.

(** C5 ([Up] on an empty table).  For a worker made for a compiled schema
    and a clock that never runs backwards: started on an empty table,
    the loop of [Up] returns within one turn per plan and one more; and
    when [Up] returns without error, the table holds exactly one row for
    each plan, none failed or locked, the applied_at of a row with a
    lower id is not after that of a row with a higher id, the data is
    what the up actions of the plans give when run once each in
    ascending order of id, and the log shows one step per plan in that
    order. *)
Theorem Up_from_empty (m : Worker) (fuel : nat) (st : State) :
  worker_ok m →
  monotone_clock →
  tbl st = ∅ →
  ((length (schema_plans m) < fuel)%nat → is_Some (Worker_Up m fuel st)) ∧
  ∀ st',
    Worker_Up m fuel st = Some (Ok (), st') →
    dom (tbl st') = list_to_set (mp_id <$> schema_plans m) ∧
    (∀ i r, tbl st' !! i = Some r → failed r = false ∧ locked r = false) ∧
    (∀ i j ri rj,
       tbl st' !! i = Some ri → tbl st' !! j = Some rj → i < j →
       ∃ ti tj, applied_at ri = VTime ti ∧ applied_at rj = VTime tj ∧ time_le ti tj) ∧
    data st' = run_ups (schema_plans m) (data st) ∧
    ∃ args, logs st' = logs st ++ (up_message <$> schema_plans m) ++ [args].
Proof.
  intros Hm Hclock Hempty. unfold Worker_Up, then_loop. rewrite init_eq. split.
  - intros Hfuel. apply up_loop_total; [done|].
    eapply Nat.le_lt_trans; [apply length_filter|done].
  - intros st' Hloop.
    destruct (up_loop m fuel _ _ _ _ _ st' Hm Hclock (up_inv_start m st Hm Hempty) Hloop)
      as (s & args & [Hplans Hun Hrows Hclean Horder Hdata Hlogs] & ->).
    simpl. split; [|split; [|split; [done|split; [done|]]]].
    + apply set_eq. intros i. by rewrite elem_of_dom, Hrows, elem_of_list_to_set.
    + intros i r Hr. destruct (Hclean i r Hr) as (? & ? & _). done.
    + exists args. by rewrite Hlogs, <-app_assoc.
Qed.

(** ** Down *)

(** The loop of [Down] started on the state [st0], with the plans [keep]
    still applied and the plans [gone] reversed. *)
Record down_inv (m : Worker) (st0 st : State) (keep gone : list migrationPlan) : Prop := {
  di_plans : schema_plans m = keep ++ gone;
  di_tbl : ∀ i, tbl st !! i = if decide (i ∈ mp_id <$> gone) then None else tbl st0 !! i;
  di_unlocked : ∀ p, p ∈ gone → ∃ r, tbl st0 !! mp_id p = Some r ∧ locked r = false;
  di_data : data st = run_downs (reverse gone) (data st0);
  di_logs : logs st = logs st0 ++ (down_message <$> reverse gone)
}.

Section down_loop.

Context (m : Worker) (st0 : State).
Hypothesis Hm : worker_ok m.
Hypothesis Hfull : ∀ i, is_Some (tbl st0 !! i) ↔ i ∈ mp_id <$> schema_plans m.
Hypothesis Hclean : no_failed (tbl st0).

Lemma down_inv_start : down_inv m st0 (after_init st0) (schema_plans m) [].
Proof.
  split; simpl; try done.
  - by rewrite app_nil_r.
  - by intros p ?%elem_of_nil.
  - by rewrite app_nil_r.
Qed.

Lemma down_inv_no_failed st keep gone : down_inv m st0 st keep gone → no_failed (tbl st).
Proof.
  intros [_ Htbl _ _ _] i r. rewrite Htbl. case_decide; [done|]. apply Hclean.
Qed.

Lemma down_inv_split keep gone p :
  schema_plans m = keep ++ gone → p ∈ keep → mp_id p ∉ mp_id <$> gone.
Proof.
  intros Hplans Hp Hin. pose proof (worker_ok_sorted m Hm) as Hps. rewrite Hplans in Hps.
  apply list_elem_of_fmap in Hin as (q & Heq & Hq).
  apply (StronglySorted_app_1_elem_of _ _ _ p q) in Hps; [|done..].
  unfold asc in Hps. lia.
Qed.

Lemma down_inv_applied st keep gone :
  down_inv m st0 st keep gone → applied_of (tbl st) (schema_plans m) = keep.
Proof.
  intros [Hplans Htbl _ _ _]. pose proof (worker_ok_sorted m Hm) as Hps.
  apply (asc_ext mp_id); [by apply applied_of_sorted| |].
  { rewrite Hplans in Hps. by apply StronglySorted_app_1_l in Hps. }
  intros q. rewrite elem_of_applied_of, Htbl. split.
  - intros [Hq Hsome]. case_decide as Hg; [by destruct Hsome|].
    rewrite Hplans in Hq. apply elem_of_app in Hq as [Hq|Hq]; [done|].
    destruct Hg. by apply list_elem_of_fmap_2.
  - intros Hq. split; [rewrite Hplans, elem_of_app; by left|].
    rewrite decide_False by by apply (down_inv_split keep gone).
    apply Hfull, list_elem_of_fmap_2. rewrite Hplans, elem_of_app. by left.
Qed.

Lemma down_inv_delete st rest p gone d ic :
  down_inv m st0 st (reverse (p :: rest)) gone →
  (∃ r, tbl st0 !! mp_id p = Some r ∧ locked r = false) →
  d = (chosen_effect (mp_down p) (data st)).1 →
  down_inv m st0
    (mkState (delete (mp_id p) (tbl st)) d (ticks st) (logs st ++ [down_message p]) ic)
    (reverse rest) (p :: gone).
Proof.
  intros [Hplans Htbl Hunl Hdata Hlogs] Hp ->. split; simpl.
  - by rewrite Hplans, reverse_cons, <-app_assoc.
  - intros i. rewrite lookup_delete, Htbl.
    destruct (decide (mp_id p = i)) as [<-|Hne];
      [|destruct (decide (i ∈ mp_id <$> gone)) as [Hg|Hg]]; case_decide as Hin; try done.
    + destruct Hin. left.
    + destruct Hin. by right.
    + by apply elem_of_cons in Hin as [?|?].
  - intros q [->|Hq]%elem_of_cons; [done|by apply Hunl].
  - unfold run_downs. by rewrite reverse_cons, foldl_app, Hdata.
  - by rewrite Hlogs, reverse_cons, fmap_app, <-app_assoc.
Qed.

(** One turn of the loop. *)
Lemma down_inv_step st keep gone b st' :
  down_inv m st0 st keep gone →
  downOne m st = (Ok b, st') →
  (keep = [] ∧ b = false ∧ st' = st) ∨
  (∃ p r, last keep = Some p ∧ tbl st0 !! mp_id p = Some r ∧ locked r = true ∧ b = false ∧
          st' = logged ["locked version=" +:+ fmt_d (mp_id p)] st) ∨
  (∃ p rest, keep = reverse (p :: rest) ∧ down_inv m st0 st' (reverse rest) (p :: gone) ∧
             b = bool_decide (1 < length (p :: rest))%nat).
Proof.
  intros Hinv. rewrite (downOne_eq m st Hm (down_inv_no_failed _ _ _ Hinv)).
  unfold downOne_result. rewrite (down_inv_applied _ _ _ Hinv).
  destruct (reverse keep) as [|p rest] eqn:Hkeep.
  { intros [= <- <-]. left. split; [|done].
    by rewrite <-(reverse_involutive keep), Hkeep. }
  assert (keep = reverse (p :: rest)) as -> by by rewrite <-Hkeep, reverse_involutive.
  assert (p ∈ reverse (p :: rest)) as Hp by (rewrite elem_of_reverse; left).
  rewrite (di_tbl _ _ _ _ _ Hinv).
  rewrite decide_False by by apply (down_inv_split _ gone _ (di_plans _ _ _ _ _ Hinv)).
  destruct (tbl st0 !! mp_id p) as [r|] eqn:Hr; [|done].
  destruct (locked r) eqn:Hlocked.
  { intros [= <- <-]. right. left. exists p, r. split; [|done].
    by rewrite reverse_cons, last_snoc. }
  destruct (chosen_effect (mp_down p) (data st)) as [d [msg|]] eqn:He; [done|].
  intros [= <- <-]. right. right. exists p, rest. split; [done|]. split; [|done].
  apply down_inv_delete; [done|by exists r|by rewrite He].
Qed.

Lemma down_loop fuel msg st keep gone st' :
  down_inv m st0 st keep gone →
  step_loop m fuel (downOne m) msg st = Some (Ok (), st') →
  ∃ s keep' gone' tail,
    down_inv m st0 s keep' gone' ∧
    tbl st' = tbl s ∧ data st' = data s ∧ logs st' = logs s ++ tail ∧
    ((keep' = [] ∧ ∃ args, tail = [args]) ∨
     (∃ p r args,
        last keep' = Some p ∧ tbl st0 !! mp_id p = Some r ∧ locked r = true ∧
        tail = [["locked version=" +:+ fmt_d (mp_id p)]; args])).
Proof.
  revert st keep gone. induction fuel as [|fuel IH]; intros st keep gone Hinv; simpl; [done|].
  destruct (downOne m st) as [[b|e|] s] eqn:Hstep; [|done..].
  destruct (down_inv_step _ _ _ _ _ Hinv Hstep)
    as [(-> & -> & ->)|[(p & r & Hlast & Hr & Hlocked & -> & ->)|(p & rest & -> & Hinv' & ->)]].
  - destruct (finished_eq m msg st Hm) as (args & ->). intros [= <-].
    exists st, [], gone, [args]. do 4 (split; [done|]). left. eauto.
  - destruct (finished_eq m msg (logged ["locked version=" +:+ fmt_d (mp_id p)] st) Hm)
      as (args & ->). intros [= <-].
    exists st, keep, gone, [["locked version=" +:+ fmt_d (mp_id p)]; args].
    split; [done|]. do 2 (split; [done|]). split; [simpl; by rewrite <-app_assoc|].
    right. by exists p, r, args.
  - case_bool_decide as Hmore.
    + by apply (IH s (reverse rest) (p :: gone)).
    + destruct (finished_eq m msg s Hm) as (args & ->). intros [= <-].
      exists s, (reverse rest), (p :: gone), [args]. do 4 (split; [done|]). left.
      split; [|eauto]. destruct rest; [done|simpl in Hmore; lia].
Qed.

End down_loop.

(** The loop of [Down] ends within one turn per applied plan, and one
    more. *)
Lemma down_loop_total m fuel msg st :
  worker_ok m →
  (length (applied_of (tbl st) (schema_plans m)) < fuel)%nat →
  is_Some (step_loop m fuel (downOne m) msg st).
Proof.
  intros Hm. pose proof (worker_ok_sorted m Hm) as Hps.
  revert st. induction fuel as [|fuel IH]; intros st Hlen; [lia|]. simpl.
  destruct (failed_dec (tbl st)) as [Hf|Hf].
  { by rewrite (downOne_failed m st Hm Hf). }
  rewrite (downOne_eq m st Hm Hf). unfold downOne_result.
  rewrite <-length_reverse in Hlen.
  destruct (reverse (applied_of (tbl st) (schema_plans m))) as [|p rest] eqn:HA; [done|].
  simpl in Hlen.
  destruct (tbl st !! mp_id p) as [r|]; [|done].
  destruct (locked r); [done|].
  destruct (chosen_effect (mp_down p) (data st)) as [d [e|]]; [done|].
  case_bool_decide; [|done]. apply IH. simpl.
  rewrite <-length_reverse, (applied_of_delete _ Hps _ _ _ HA). lia.
Qed.

(** C6 ([Down] on a fully applied table).  For a worker made for a
    compiled schema and a table that holds a row for exactly the plans:
    the loop of [Down] returns within one turn per plan and one more; and
    when [Down] returns without error, the plans split, in ascending
    order, into those kept and those gone, where every plan gone was
    unlocked, and either nothing is kept, or the highest plan kept is
    locked and the log says so (no error is returned for it); every
    locked version is at or below the highest plan kept; the rows of the
    plans kept are as they were and no other row is left; and the data
    is what the down actions of the plans gone give when run once each,
    highest id first.  In particular the table ends empty when no
    version is locked. *)
Theorem Down_from_full (m : Worker) (fuel : nat) (st : State) :
  worker_ok m →
  dom (tbl st) = list_to_set (mp_id <$> schema_plans m) →
  ((length (schema_plans m) < fuel)%nat → is_Some (Worker_Down m fuel st)) ∧
  ∀ st',
    Worker_Down m fuel st = Some (Ok (), st') →
    ∃ keep gone tail,
      schema_plans m = keep ++ gone ∧
      (∀ p, p ∈ gone → ∃ r, tbl st !! mp_id p = Some r ∧ locked r = false) ∧
      ((keep = [] ∧ ∃ args, tail = [args]) ∨
       (∃ p r args,
          last keep = Some p ∧ tbl st !! mp_id p = Some r ∧ locked r = true ∧
          tail = [["locked version=" +:+ fmt_d (mp_id p)]; args])) ∧
      (∀ i r, tbl st !! i = Some r → locked r = true →
         ∃ p, last keep = Some p ∧ i ≤ mp_id p) ∧
      (∀ i, tbl st' !! i = if decide (i ∈ mp_id <$> keep) then tbl st !! i else None) ∧
      ((∀ i r, tbl st !! i = Some r → locked r = false) → tbl st' = ∅) ∧
      data st' = run_downs (reverse gone) (data st) ∧
      logs st' = logs st ++ (down_message <$> reverse gone) ++ tail.
Proof.
  intros Hm Hdom. unfold Worker_Down, then_loop. rewrite init_eq.
  pose proof (worker_ok_sorted m Hm) as Hps.
  assert (∀ i, is_Some (tbl st !! i) ↔ i ∈ mp_id <$> schema_plans m) as Hfull.
  { intros i. by rewrite <-elem_of_dom, Hdom, elem_of_list_to_set. }
  split.
  { intros Hfuel. apply down_loop_total; [done|].
    eapply Nat.le_lt_trans; [apply length_filter|done]. }
  intros st' Hloop.
  destruct (failed_dec (tbl st)) as [Hf|Hf].
  { destruct fuel; [done|]. simpl in Hloop.
    by rewrite (downOne_failed m (after_init st) Hm Hf) in Hloop. }
  destruct (down_loop m (after_init st) Hm Hfull Hf fuel _ _ _ _ st'
              (down_inv_start m (after_init st)) Hloop)
    as (s & keep & gone & tail & [Hplans Htbl Hunl Hdata Hlogs] & Ht & Hd & Hl & Hend).
  simpl in *.
  assert (∀ i r, tbl st !! i = Some r → locked r = true → i ∈ mp_id <$> keep) as Hlocked.
  { intros i r Hr Hlk. assert (i ∈ mp_id <$> schema_plans m) as Hi by (apply Hfull; by eexists).
    rewrite Hplans, fmap_app, elem_of_app in Hi. destruct Hi as [Hi|Hi]; [done|].
    apply list_elem_of_fmap in Hi as (q & -> & Hq).
    destruct (Hunl q Hq) as (r' & Hr' & Hlk'). congruence. }
  assert (∀ i, tbl st' !! i = if decide (i ∈ mp_id <$> keep) then tbl st !! i else None)
    as Hrows.
  { intros i. rewrite Ht, Htbl. case_decide as Hg; case_decide as Hk; try done.
    - apply list_elem_of_fmap in Hk as (q & -> & Hq).
      destruct (down_inv_split m Hm keep gone q Hplans Hq Hg).
    - destruct (tbl st !! i) eqn:Hi; [|done]. exfalso.
      assert (i ∈ mp_id <$> schema_plans m) as Hin by (apply Hfull; by eexists).
      rewrite Hplans, fmap_app, elem_of_app in Hin. tauto. }
  exists keep, gone, tail. split; [done|]. split; [done|]. split; [done|].
  split; [|split; [done|split; [|split]]].
  - intros i r Hr Hlk. apply (Hlocked i r Hr) in Hlk as Hi.
    apply list_elem_of_fmap in Hi as (q & -> & Hq).
    destruct (last keep) as [p|] eqn:Hlast.
    2:{ apply last_None in Hlast. subst. by apply elem_of_nil in Hq. }
    exists p. split; [done|].
    apply last_Some in Hlast as [keep' ->].
    apply elem_of_app in Hq as [Hq|Hq]; [|apply list_elem_of_singleton in Hq as ->; lia].
    rewrite Hplans in Hps. apply StronglySorted_app_1_l in Hps.
    apply (StronglySorted_app_1_elem_of _ _ _ q p) in Hps; [|done|left].
    unfold asc in Hps. lia.
  - intros Hnone. apply map_eq. intros i. rewrite Hrows, lookup_empty.
    case_decide as Hk; [|done]. destruct (tbl st !! i) as [r|] eqn:Hr; [|done].
    destruct Hend as [[-> _]|(p & r' & args & Hlast & Hr' & Hlk & _)].
    + by apply elem_of_nil in Hk.
    + by rewrite (Hnone _ _ Hr') in Hlk.
  - by rewrite Hd.
  - by rewrite Hl, Hlogs, <-app_assoc.
Qed.

(** ** Locks *)

Lemma first_locked_None t id l :
  (∀ q r, q ∈ l → id < mp_id q → t !! mp_id q = Some r → locked r = false) →
  first_locked t id l = None.
Proof.
  induction l as [|a l IH]; intros Hl; simpl; [done|].
  destruct (Z.leb_spec (mp_id a) id) as [|Hgt]; [done|].
  assert (first_locked t id l = None) as ->.
  { apply IH. intros q r Hq. apply Hl. by right. }
  destruct (t !! mp_id a) as [r|] eqn:Hr; [|done].
  rewrite (Hl a r); [done|left|done..].
Qed.

(** The lock check names the highest locked applied version above the
    target. *)
Lemma first_locked_highest t id l p r :
  StronglySorted (asc (λ q, - mp_id q)) l →
  p ∈ l → t !! mp_id p = Some r → locked r = true → id < mp_id p →
  (∀ q r', q ∈ l → mp_id p < mp_id q → t !! mp_id q = Some r' → locked r' = false) →
  first_locked t id l = Some (mp_id p).
Proof.
  induction l as [|a l IH]; intros Hs Hp Hr Hlk Hid Hhigh; simpl.
  { by apply elem_of_nil in Hp. }
  apply asc_tail in Hs as [Hs Hlt].
  apply elem_of_cons in Hp as [<-|Hp].
  { destruct (Z.leb_spec (mp_id p) id); [lia|]. by rewrite Hr, Hlk. }
  specialize (Hlt p Hp). simpl in Hlt.
  destruct (Z.leb_spec (mp_id a) id); [lia|].
  assert (first_locked t id l = Some (mp_id p)) as ->.
  { apply IH; try done. intros q r' Hq. apply Hhigh. by right. }
  destruct (t !! mp_id a) as [r'|] eqn:Hr'; [|done].
  rewrite (Hhigh a r'); [done|left|lia|done].
Qed.

Lemma Goto_locked m id st V :
  worker_ok m → no_failed (tbl st) →
  id = 0 ∨ is_Some (definitions (schema m) !! id) →
  first_locked (tbl st) id (reverse (applied_of (tbl st) (schema_plans m))) = Some V →
  ∀ fuel,
    Worker_Goto m id (S fuel) st
    = Some (Raise ("database schema version locked id=" +:+ fmt_d V), after_init st).
Proof.
  intros Hm Hf Hid Hlock fuel. unfold Worker_Goto, then_loop.
  rewrite (goto_first_eq m id st Hid). simpl.
  unfold gotoOne, bind. rewrite (goto_counts_eq m id (after_init st) Hm Hf). simpl.
  by rewrite Hlock.
Qed.

Lemma lockHelper_ok m id verb lock st p :
  worker_ok m → no_failed (tbl st) →
  p ∈ schema_plans m → mp_id p = id → is_Some (tbl st !! id) →
  lockHelper m id verb lock st
  = (Ok (), logged [verb +:+ " version=" +:+ fmt_d id]
              (set_tbl (alter (set_locked lock) id (tbl st)) (after_init st))).
Proof.
  intros Hm Hf Hp Hid Hrow.
  destruct (getVersionSummary_ok m (after_init st) Hm Hf) as (vs & Hvs & Hso).
  assert (is_Some (definitions (schema m) !! id)) as Hdef.
  { apply (worker_ok_defined m id Hm). rewrite <-Hid. by apply list_elem_of_fmap_2. }
  unfold lockHelper.
  rewrite (bind_ok _ _ st () st) by by apply checkVersion_defined.
  rewrite (bind_ok _ _ st () (after_init st)) by apply init_eq.
  rewrite (bind_ok _ _ (after_init st) ()
             (set_tbl (alter (set_locked lock) id (tbl st)) (after_init st))); [done|].
  unfold transact. rewrite (bind_ok _ _ _ _ _ Hvs).
  assert (existsb (λ plan, mp_id plan =? id) (applied vs) = true) as ->; [|done].
  apply existsb_exists. exists p. split; [|by apply Z.eqb_eq].
  apply list_elem_of_In. rewrite (so_applied _ _ _ Hso), elem_of_reverse.
  apply list_elem_of_filter. by rewrite Hid.
Qed.

(** *** Going to a target when nothing stands in the way *)

Lemma count_up_filter id l :
  StronglySorted (asc mp_id) l →
  count_up id l = length (filter (λ q, mp_id q ≤ id) l).
Proof.
  induction 1 as [|a l Hl IH Ha]; simpl; [done|].
  destruct (Z.ltb_spec id (mp_id a)) as [Hlt|Hge].
  - rewrite filter_none; [done|]. intros q [->|Hq]%elem_of_cons; [lia|].
    rewrite Forall_forall in Ha. specialize (Ha q Hq). unfold asc in Ha. lia.
  - rewrite filter_cons_True by done. simpl. by rewrite IH.
Qed.

Lemma count_up_delete_above ps t id p :
  StronglySorted (asc mp_id) ps → id < mp_id p →
  count_up id (unapplied_of (delete (mp_id p) t) ps) = count_up id (unapplied_of t ps).
Proof.
  intros Hps Hp. rewrite !count_up_filter by by apply unapplied_of_sorted.
  unfold unapplied_of. rewrite !list_filter_filter. f_equal.
  apply list_filter_iff. intros q. split; intros [Hq Hnone]; (split; [done|]).
  - rewrite lookup_delete_ne in Hnone; [done|lia].
  - rewrite lookup_delete_ne; [done|lia].
Qed.

Lemma count_down_le id l : (count_down id l ≤ length l)%nat.
Proof. induction l as [|a l IH]; simpl; [done|]. case_match; lia. Qed.

Lemma count_up_le id l : (count_up id l ≤ length l)%nat.
Proof. induction l as [|a l IH]; simpl; [done|]. case_match; lia. Qed.

Lemma applied_unapplied_length t ps :
  (length (applied_of t ps) + length (unapplied_of t ps) = length ps)%nat.
Proof.
  unfold applied_of, unapplied_of. induction ps as [|p ps IH]; [done|].
  rewrite !filter_cons. destruct (t !! mp_id p) eqn:Hp.
  - rewrite decide_True by by eexists. rewrite decide_False by done. simpl. lia.
  - rewrite decide_False by by intros []. rewrite decide_True by done. simpl. lia.
Qed.

Lemma pending_le id t ps : (pending id t ps ≤ length ps)%nat.
Proof.
  unfold pending. pose proof (count_down_le id (reverse (applied_of t ps))) as H1.
  pose proof (count_up_le id (unapplied_of t ps)) as H2.
  rewrite length_reverse in H1. pose proof (applied_unapplied_length t ps). lia.
Qed.

Lemma unlocked_above_delete id t ps i :
  unlocked_above id t ps → unlocked_above id (delete i t) ps.
Proof.
  intros Hu q r Hq Hlt. rewrite lookup_delete. case_decide; [done|]. by apply Hu.
Qed.

Lemma unlocked_above_insert id t ps i r :
  unlocked_above id t ps → locked r = false → unlocked_above id (<[i := r]> t) ps.
Proof.
  intros Hu Hr q r' Hq Hlt. rewrite lookup_insert. case_decide; [by intros [= <-]|].
  by apply Hu.
Qed.

(** One turn of the loop of [Goto] when no row is failed, no applied
    version above the target is locked and the actions succeed. *)
Lemma gotoOne_ok m id st :
  worker_ok m → no_failed (tbl st) →
  unlocked_above id (tbl st) (schema_plans m) →
  actions_succeed id (schema_plans m) →
  ∃ b st',
    gotoOne m id st = (Ok b, st') ∧
    no_failed (tbl st') ∧ unlocked_above id (tbl st') (schema_plans m) ∧
    (b = true → (pending id (tbl st') (schema_plans m)
                 < pending id (tbl st) (schema_plans m))%nat).
Proof.
  intros Hm Hf Hunl Hact. pose proof (worker_ok_sorted m Hm) as Hps.
  pose proof (λ q, elem_of_applied_of (schema_plans m) (tbl st) q) as HinA.
  pose proof (λ q, elem_of_unapplied_of (schema_plans m) (tbl st) q) as HinU.
  pose proof (applied_of_sorted _ Hps (tbl st)) as HsA. apply asc_reverse in HsA.
  unfold gotoOne, bind, pending. rewrite (goto_counts_eq m id st Hm Hf).
  rewrite first_locked_None.
  2:{ intros q r Hq. rewrite elem_of_reverse in Hq. apply HinA in Hq as [Hq _]. by apply Hunl. }
  case_bool_decide as HD.
  - rewrite (downOne_eq m st Hm Hf). unfold downOne_result.
    destruct (reverse (applied_of (tbl st) (schema_plans m))) as [|p rest] eqn:HA;
      [simpl in HD; lia|].
    simpl in HD |- *. destruct (Z.leb_spec (mp_id p) id) as [|Hgt]; [lia|].
    assert (p ∈ schema_plans m ∧ is_Some (tbl st !! mp_id p)) as [Hp [r Hr]].
    { apply HinA. rewrite <-elem_of_reverse, HA. left. }
    rewrite Hr, (Hunl p r Hp Hgt Hr).
    destruct (Hact p (data st) Hp) as [Hdown _]. specialize (Hdown Hgt).
    destruct (chosen_effect (mp_down p) (data st)) as [d e]. simpl in Hdown. subst e.
    do 2 eexists. split; [done|]. simpl.
    split; [by apply no_failed_delete|]. split; [by apply unlocked_above_delete|].
    intros _. rewrite (applied_of_delete _ Hps _ _ _ HA).
    rewrite (count_up_delete_above _ _ _ _ Hps Hgt). lia.
  - case_bool_decide as HU.
    + rewrite (upOne_eq m st Hm Hf). unfold upOne_result.
      destruct (unapplied_of (tbl st) (schema_plans m)) as [|p rest] eqn:HUe;
        [simpl in HU; lia|].
      simpl in HU |- *. destruct (Z.ltb_spec id (mp_id p)) as [|Hle]; [lia|].
      assert (p ∈ schema_plans m ∧ tbl st !! mp_id p = None) as [Hp Hnone].
      { apply HinU. left. }
      assert (count_down id (reverse (applied_of (tbl st) (schema_plans m))) = 0%nat)
        as HA0 by lia.
      pose proof (proj1 (count_down_zero id _ HsA) HA0) as HA.
      destruct (Hact p (data st) Hp) as [_ Hup]. specialize (Hup Hle).
      destruct (chosen_effect (mp_up p) (data st)) as [d e]. simpl in Hup. subst e.
      destruct (in_tx (drv m) (mp_up p));
        (do 2 eexists; split; [done|]; simpl;
         split; [by apply no_failed_insert|];
         split; [by apply unlocked_above_insert|];
         intros _; rewrite (unapplied_of_insert _ Hps _ _ _ _ HUe);
         match goal with
         | |- (?x + _ < _)%nat => assert (x = 0%nat) as ->; [|rewrite HA0; lia]
         end;
         apply count_down_zero; [by apply asc_reverse, applied_of_sorted|];
         intros q Hq; rewrite elem_of_reverse in Hq;
         apply (applied_of_insert _ Hps) in Hq as [->|Hq]; [lia| |done];
         apply HA; by rewrite elem_of_reverse).
    + do 2 eexists. split; [done|]. split; [done|]. split; [done|]. intros Hb.
      apply bool_decide_eq_true in Hb. lia.
Qed.

Lemma goto_loop_ok m id fuel msg st :
  worker_ok m → no_failed (tbl st) →
  unlocked_above id (tbl st) (schema_plans m) →
  actions_succeed id (schema_plans m) →
  (pending id (tbl st) (schema_plans m) < fuel)%nat →
  ∃ st', step_loop m fuel (gotoOne m id) msg st = Some (Ok (), st').
Proof.
  intros Hm. revert st. induction fuel as [|fuel IH]; intros st Hf Hunl Hact Hfuel; [lia|].
  simpl. destruct (gotoOne_ok m id st Hm Hf Hunl Hact) as (b & s & -> & Hf' & Hunl' & Hlt).
  destruct b.
  - apply IH; try done. specialize (Hlt eq_refl). lia.
  - destruct (finished_eq m msg s Hm) as (args & ->). by eexists.
Qed.

(** At rest, the applied plans are exactly those at or below the
    target. *)
Lemma at_rest_rows m id t :
  worker_ok m → at_rest id t (schema_plans m) →
  ∀ q, q ∈ schema_plans m → is_Some (t !! mp_id q) ↔ mp_id q ≤ id.
Proof.
  intros Hm (_ & Hd0 & Hu0) q Hq. pose proof (worker_ok_sorted m Hm) as Hps.
  pose proof (proj1 (count_down_zero id _
    (asc_reverse _ _ (applied_of_sorted _ Hps t))) Hd0) as Hd.
  pose proof (proj1 (count_up_zero id _ (unapplied_of_sorted _ Hps t)) Hu0) as Hu.
  split.
  - intros Hsome. apply Hd. rewrite elem_of_reverse. by apply elem_of_applied_of.
  - intros Hle. destruct (t !! mp_id q) as [r|] eqn:Hr; [by eexists|].
    assert (id < mp_id q); [|lia]. apply Hu. by apply elem_of_unapplied_of.
Qed.

Lemma Goto_ok m id fuel st :
  worker_ok m → no_failed (tbl st) →
  id = 0 ∨ is_Some (definitions (schema m) !! id) →
  unlocked_above id (tbl st) (schema_plans m) →
  actions_succeed id (schema_plans m) →
  (length (schema_plans m) < fuel)%nat →
  ∃ st', Worker_Goto m id fuel st = Some (Ok (), st') ∧
         ∀ q, q ∈ schema_plans m → is_Some (tbl st' !! mp_id q) ↔ mp_id q ≤ id.
Proof.
  intros Hm Hf Hid Hunl Hact Hfuel. unfold Worker_Goto, then_loop.
  rewrite (goto_first_eq m id st Hid).
  destruct (goto_loop_ok m id fuel "migrate goto finished" (after_init st) Hm Hf Hunl Hact)
    as (st' & Hloop).
  { eapply Nat.le_lt_trans; [apply pending_le|done]. }
  exists st'. split; [done|].
  apply step_loop_success in Hloop as (s1 & s2 & Hlast & Hfin).
  destruct (gotoOne_last m id s1 s2 Hm Hlast) as [Hrest _].
  destruct (finished_eq m "migrate goto finished" s2 Hm) as (args & Hfin').
  rewrite Hfin' in Hfin. injection Hfin as <-. by apply at_rest_rows.
Qed.

(** C4, as amended (going below a lock).  In a state without failed rows,
    let [V] be a plan with a locked row such that no plan above [V] has a
    locked row, and let the target [t] be below [V], and be 0 or a
    defined id.  Then [Goto t] returns the locked-version error that
    names [V], and leaves the table, the data and the log as they were;
    [Unlock V] succeeds and only clears the lock of [V]; and after it, if
    no other plan above [t] has a locked row and the actions to run
    succeed, [Goto t] returns without error within one turn per plan and
    one more, leaving applied exactly the plans at or below [t]. *)
Theorem Goto_below_highest_lock (m : Worker) (t V : VersionID) (st : State)
    (p : migrationPlan) (r : row) :
  worker_ok m →
  no_failed (tbl st) →
  t = 0 ∨ is_Some (definitions (schema m) !! t) →
  p ∈ schema_plans m → mp_id p = V →
  tbl st !! V = Some r → locked r = true →
  t < V →
  (∀ q r', q ∈ schema_plans m → V < mp_id q → tbl st !! mp_id q = Some r' →
     locked r' = false) →
  (∀ fuel,
     Worker_Goto m t (S fuel) st
     = Some (Raise ("database schema version locked id=" +:+ fmt_d V), after_init st)) ∧
  ∃ st1,
    Worker_Unlock m V st = (Ok (), st1) ∧
    tbl st1 = alter (set_locked false) V (tbl st) ∧
    data st1 = data st ∧
    ((∀ q r', q ∈ schema_plans m → t < mp_id q → mp_id q ≠ V →
        tbl st !! mp_id q = Some r' → locked r' = false) →
     actions_succeed t (schema_plans m) →
     ∀ fuel, (length (schema_plans m) < fuel)%nat →
       ∃ st2,
         Worker_Goto m t fuel st1 = Some (Ok (), st2) ∧
         ∀ q, q ∈ schema_plans m → is_Some (tbl st2 !! mp_id q) ↔ mp_id q ≤ t).
Proof.
  intros Hm Hf Ht Hp HV Hr Hlk HtV Hhigh. subst V.
  pose proof (worker_ok_sorted m Hm) as Hps. split.
  - apply Goto_locked; try done.
    apply (first_locked_highest _ _ _ p r); try done.
    + by apply asc_reverse, applied_of_sorted.
    + rewrite elem_of_reverse. apply elem_of_applied_of. split; [done|by eexists].
    + intros q r' Hq. rewrite elem_of_reverse in Hq.
      apply elem_of_applied_of in Hq as [Hq _]. by apply Hhigh.
  - eexists. split.
    { unfold Worker_Unlock. by apply (lockHelper_ok m _ _ _ _ p). }
    split; [done|]. split; [done|]. intros Hothers Hact fuel Hfuel.
    apply Goto_ok; try done; simpl.
    + intros i r'. rewrite lookup_alter. case_decide; [|by apply Hf].
      rewrite Hr. intros [= <-]. simpl. by apply (Hf (mp_id p)).
    + intros q r' Hq Hlt. rewrite lookup_alter. case_decide as Heq.
      * rewrite Hr. by intros [= <-].
      * apply Hothers; [done..|]. congruence.
Qed.

(** ** The two-phase protocol outside a transaction *)

(** [upOneNoTx]: the row is inserted marked failed before the action
    runs; it stays so when the action fails, and the mark is cleared when
    the action succeeds. *)
Lemma upOneNoTx_eq m p st :
  worker_ok m → p ∈ schema_plans m → tbl st !! mp_id p = None →
  txFunc (mp_up p) = None →
  upOneNoTx m (mp_id p) st =
  let '(d, e) := chosen_effect (mp_up p) (data st) in
  match e with
  | Some msg =>
      (Raise (wrapf msg (fmt_d (mp_id p))),
       mkState (<[mp_id p := mkRow (VTime (clock env (ticks st))) true false]> (tbl st))
         d (S (ticks st)) (logs st) (initCalled st))
  | None =>
      (Ok (),
       mkState (<[mp_id p := mkRow (VTime (clock env (ticks st))) false false]> (tbl st))
         d (S (ticks st)) (logs st) (initCalled st))
  end.
Proof.
  intros Hm Hp Hnone Htx.
  unfold upOneNoTx, chosen_effect, bind, transact, wrapping, run_effect, SetVersionFailed,
    InsertVersion, time_Now, ret.
  rewrite (find_plan_elem_of m p Hm Hp), Htx. destruct st as [t d k lg ic]; simpl in *.
  rewrite Hnone. simpl.
  destruct (dbFunc (mp_up p)) as [f|]; simpl.
  - destruct (f d) as [d' [msg|]]; simpl; [done|]. by rewrite alter_insert_eq.
  - destruct (exec_sql env (sql (mp_up p)) d) as [d' [msg|]]; simpl; [done|].
    by rewrite alter_insert_eq.
Qed.

(** [downOneNoTx]: the first transaction writes [failed = false] into the
    row, so that a row which was not failed is still not marked failed
    when the action fails; the row is deleted when the action succeeds. *)
Lemma downOneNoTx_eq m p st :
  worker_ok m → p ∈ schema_plans m →
  txFunc (mp_down p) = None →
  downOneNoTx m (mp_id p) st =
  let '(d, e) := chosen_effect (mp_down p) (data st) in
  match e with
  | Some msg =>
      (Raise (wrapf msg (fmt_d (mp_id p))),
       mkState (alter (set_failed false) (mp_id p) (tbl st)) d (ticks st) (logs st)
         (initCalled st))
  | None =>
      (Ok (),
       mkState (delete (mp_id p) (tbl st)) d (ticks st) (logs st) (initCalled st))
  end.
Proof.
  intros Hm Hp Htx.
  unfold downOneNoTx, chosen_effect, bind, transact, wrapping, run_effect, SetVersionFailed,
    DeleteVersion, ret.
  rewrite (find_plan_elem_of m p Hm Hp), Htx. destruct st as [t d k lg ic]; simpl in *.
  destruct (dbFunc (mp_down p)) as [f|]; simpl.
  - destruct (f d) as [d' [msg|]]; simpl; [done|]. by rewrite delete_alter_eq.
  - destruct (exec_sql env (sql (mp_down p)) d) as [d' [msg|]]; simpl; [done|].
    by rewrite delete_alter_eq.
Qed.

(** ** Locking and unlocking ([Worker.lockHelper]) *)

Lemma alter_lookup_Some {A} (f : A → A) (t : gmap Z A) i x :
  t !! i = Some x → alter f i t = <[i := f x]> t.
Proof.
  intros Hx. apply map_eq. intros j. destruct (decide (i = j)) as [<-|Hne].
  - by rewrite lookup_alter_eq, lookup_insert_eq, Hx.
  - by rewrite lookup_alter_ne, lookup_insert_ne.
Qed.

Lemma no_failed_alter_locked t id b : no_failed t → no_failed (alter (set_locked b) id t).
Proof.
  intros Hf i r Hr. destruct (decide (id = i)) as [<-|Hne].
  - rewrite lookup_alter_eq in Hr. destruct (t !! id) as [r0|] eqn:Hr0; [|done].
    injection Hr as <-. simpl. by apply (Hf id r0).
  - rewrite lookup_alter_ne in Hr by done. by apply (Hf i r).
Qed.

(** X1.  [Lock] of an applied version sets the lock of its row and nothing
    else, a second [Lock] changes nothing, and [Unlock] clears the lock:
    locking and then unlocking a version that was not locked gives back
    the table as it was.  Neither touches the data. *)
Theorem Lock_Unlock_round_trip (m : Worker) (st : State) (p : migrationPlan) (r : row) :
  worker_ok m → no_failed (tbl st) →
  p ∈ schema_plans m → tbl st !! mp_id p = Some r →
  ∃ st1 st2 st3,
    Worker_Lock m (mp_id p) st = (Ok (), st1) ∧
    tbl st1 = <[mp_id p := set_locked true r]> (tbl st) ∧
    data st1 = data st ∧
    logs st1 = logs st ++ [["lock version=" +:+ fmt_d (mp_id p)]] ∧
    Worker_Lock m (mp_id p) st1 = (Ok (), st2) ∧
    tbl st2 = tbl st1 ∧
    Worker_Unlock m (mp_id p) st1 = (Ok (), st3) ∧
    tbl st3 = <[mp_id p := set_locked false r]> (tbl st) ∧
    data st3 = data st ∧
    logs st3 = logs st1 ++ [["unlock version=" +:+ fmt_d (mp_id p)]] ∧
    (locked r = false → tbl st3 = tbl st).
Proof.
  intros Hm Hf Hp Hr.
  pose proof (lockHelper_ok m (mp_id p) "lock" true st p Hm Hf Hp eq_refl
                (mk_is_Some _ _ Hr)) as H1.
  set (st1 := logged ["lock" +:+ " version=" +:+ fmt_d (mp_id p)]
                (set_tbl (alter (set_locked true) (mp_id p) (tbl st)) (after_init st))) in *.
  assert (tbl st1 = <[mp_id p := set_locked true r]> (tbl st)) as Ht1.
  { simpl. by apply alter_lookup_Some. }
  assert (no_failed (tbl st1)) as Hf1 by by apply no_failed_alter_locked.
  assert (tbl st1 !! mp_id p = Some (set_locked true r)) as Hr1.
  { by rewrite Ht1, lookup_insert_eq. }
  pose proof (lockHelper_ok m (mp_id p) "lock" true st1 p Hm Hf1 Hp eq_refl
                (mk_is_Some _ _ Hr1)) as H2.
  pose proof (lockHelper_ok m (mp_id p) "unlock" false st1 p Hm Hf1 Hp eq_refl
                (mk_is_Some _ _ Hr1)) as H3.
  eexists st1, _, _. split; [exact H1|]. split; [exact Ht1|]. split; [done|].
  split; [done|]. split; [exact H2|]. split.
  { cbn [tbl logged set_tbl]. rewrite (alter_lookup_Some _ _ _ _ Hr1), Ht1.
    by rewrite insert_insert_eq. }
  split; [exact H3|].
  assert (alter (set_locked false) (mp_id p) (tbl st1)
          = <[mp_id p := set_locked false r]> (tbl st)) as Ht3.
  { rewrite (alter_lookup_Some _ _ _ _ Hr1), Ht1. by rewrite insert_insert_eq. }
  split; [exact Ht3|]. split; [done|]. split; [done|].
  intros Hl. cbn [tbl logged set_tbl]. rewrite Ht3. apply insert_id.
  rewrite Hr. f_equal. destruct r as [a f l]. simpl in *. by subst l.
Qed.

Lemma lockHelper_unapplied m id verb lock st :
  worker_ok m → no_failed (tbl st) →
  is_Some (definitions (schema m) !! id) → tbl st !! id = None →
  lockHelper m id verb lock st
  = (Raise ("cannot " +:+ verb +:+ " unapplied version id=" +:+ fmt_d id), after_init st).
Proof.
  intros Hm Hf Hdef Hnone.
  destruct (getVersionSummary_ok m (after_init st) Hm Hf) as (vs & Hvs & Hso).
  assert (existsb (λ plan, mp_id plan =? id) (applied vs) = false) as Hex.
  { apply not_true_is_false. intros Hex. apply existsb_exists in Hex as (q & Hq & Hid).
    apply list_elem_of_In in Hq. rewrite (so_applied _ _ _ Hso), elem_of_reverse in Hq.
    apply list_elem_of_filter in Hq as [[r Hr] _]. apply Z.eqb_eq in Hid.
    simpl in Hr. rewrite Hid, Hnone in Hr. done. }
  unfold lockHelper.
  rewrite (bind_ok _ _ st () st) by by apply checkVersion_defined.
  rewrite (bind_ok _ _ st () (after_init st)) by apply init_eq.
  unfold bind at 1. unfold transact. rewrite (bind_ok _ _ _ _ _ Hvs), Hex.
  unfold raise. by rewrite rollback_same.
Qed.

(** X2.  [Lock] and [Unlock] of a version that is defined but not applied are
    refused, each with its own verb in the message, and nothing is
    changed. *)
Theorem Lock_unapplied_refused (m : Worker) (id : VersionID) (st : State) :
  worker_ok m → no_failed (tbl st) →
  is_Some (definitions (schema m) !! id) → tbl st !! id = None →
  Worker_Lock m id st
    = (Raise ("cannot lock unapplied version id=" +:+ fmt_d id), after_init st) ∧
  Worker_Unlock m id st
    = (Raise ("cannot unlock unapplied version id=" +:+ fmt_d id), after_init st).
Proof.
  intros Hm Hf Hdef Hnone. split; by apply lockHelper_unapplied.
Qed.

(** ** The details of one version ([Worker.Version]) *)

(** X3.  [Version] of the id of a plan never fails: it gives the persisted
    row of the version as the scanner reads it, or a version that is
    not applied, not failed and not locked when there is no row, with the
    plan's up and down actions rendered into [Up] and [Down].  The error
    "cannot find version" is never returned for a defined id. *)
Theorem Version_of_plan (m : Worker) (st : State) (p : migrationPlan) :
  worker_ok m → p ∈ schema_plans m →
  Worker_Version m (mp_id p) st =
  (Ok (match tbl st !! mp_id p with
       | Some r =>
           mkVersion (mp_id p) (Some (tv_Time (Scan (applied_at r)).1)) (failed r) (locked r)
             (render (mp_up p)) (render (mp_down p))
       | None =>
           mkVersion (mp_id p) None false false (render (mp_up p)) (render (mp_down p))
       end),
   after_init st).
Proof.
  intros Hm Hp.
  destruct (getVersionSummaryAllowFailed_ok m (after_init st) Hm) as (vs & Hvs & Hso).
  pose proof (worker_ok_sorted m Hm) as Hps.
  assert (lookup_plan (mp_id p) (schema_plans m) = Some p) as Hlk.
  { apply lookup_plan_elem_of; [|done..]. by apply (asc_NoDup mp_id). }
  assert (is_Some (definitions (schema m) !! mp_id p)) as Hdef.
  { apply (worker_ok_defined m _ Hm). by apply list_elem_of_fmap_2. }
  unfold Worker_Version.
  rewrite (bind_ok _ _ st () st) by by apply checkVersion_defined.
  rewrite (bind_ok _ _ st () (after_init st)) by apply init_eq.
  unfold transact. rewrite (bind_ok _ _ _ _ _ Hvs).
  change (tbl (after_init st)) with (tbl st) in Hso.
  destruct (tbl st !! mp_id p) as [r|] eqn:Hr.
  - destruct (versions_row _ _ _ Hso _ _ Hr) as (_ & _ & ->).
    unfold decorate. cbn [ID scan_row fst snd]. by rewrite Hlk.
  - assert (placeholder p ∈ versions vs) as Hin.
    { apply (elem_of_versions _ _ _ Hso). right. by exists p. }
    rewrite (find_ID_elem_of (mp_id p) (versions vs) (placeholder p));
      [done|by apply (versions_NoDup _ _ _ Hso)|done|done].
Qed.

(** ** Forcing a version ([Worker.Force]) *)

Lemma forced_nil id t i : forced id [] t i = t !! i.
Proof. unfold forced. rewrite decide_False; [done|]. apply not_elem_of_nil. Qed.

Lemma omap_ext_in {A B} (f g : A → option B) (l : list A) :
  (∀ x, x ∈ l → f x = g x) → omap f l = omap g l.
Proof.
  induction l as [|x l IH]; intros Hfg; simpl; [done|].
  rewrite (Hfg x) by left.
  change (list_omap A B f l) with (omap f l). change (list_omap A B g l) with (omap g l).
  rewrite IH; [done|]. intros y Hy. apply Hfg. by right.
Qed.

(** The loop of [Force] over applied plans with distinct ids, the map of
    versions being a snapshot of the table. *)
Lemma force_loop_spec (vm : gmap Z Version) id l st :
  NoDup (mp_id <$> l) →
  (∀ p, p ∈ l → ∃ v r,
     vm !! mp_id p = Some v ∧ ID v = mp_id p ∧
     tbl st !! mp_id p = Some r ∧ Failed v = failed r) →
  ∃ st',
    force_loop vm id l st = (Ok (), st') ∧
    data st' = data st ∧ ticks st' = ticks st ∧ initCalled st' = initCalled st ∧
    logs st' = logs st ++ omap (force_log (tbl st) id) l ∧
    ∀ i, tbl st' !! i = forced id l (tbl st) i.
Proof.
  revert st. induction l as [|p l IH]; intros st Hnd Hl; simpl.
  { exists st. do 4 (split; [done|]). split; [by rewrite app_nil_r|].
    intros i. by rewrite forced_nil. }
  apply NoDup_cons in Hnd as [Hp Hnd].
  destruct (Hl p) as (v & r & Hv & HID & Hr & HF); [left|].
  unfold bind at 1. rewrite Hv. rewrite HID.
  set (step := (if id <? mp_id p
                then DeleteVersion (mp_id p) ;;
                     log ["deleted database schema version id=" +:+ fmt_d (mp_id p)]
                else if Failed v
                     then SetVersionFailed (mp_id p) false ;;
                          log ["cleared database schema version failure id=" +:+ fmt_d id]
                     else ret ())).
  assert (∃ s1, step st = (Ok (), s1) ∧
            data s1 = data st ∧ ticks s1 = ticks st ∧ initCalled s1 = initCalled st ∧
            logs s1 = logs st ++ from_option (λ x, [x]) [] (force_log (tbl st) id p) ∧
            tbl s1 = (if id <? mp_id p then delete (mp_id p) (tbl st)
                      else alter (set_failed false) (mp_id p) (tbl st))) as
    (s1 & Hstep & Hd1 & Hk1 & Hi1 & Hl1 & Ht1).
  { unfold step, force_log. rewrite Hr, <-HF. destruct (id <? mp_id p).
    - eexists. split; [reflexivity|]. done.
    - destruct (Failed v) eqn:HFv.
      + eexists. split; [reflexivity|]. done.
      + exists st. split; [reflexivity|]. repeat split; try done.
        * simpl. by rewrite app_nil_r.
        * symmetry. rewrite (alter_lookup_Some _ _ _ _ Hr). apply insert_id.
          rewrite Hr. f_equal. destruct r as [a f k]. simpl in *. by subst f. }
  rewrite Hstep.
  assert (∀ q, q ∈ l → tbl s1 !! mp_id q = tbl st !! mp_id q) as Hsame.
  { intros q Hq. assert (mp_id p ≠ mp_id q) as Hne.
    { intros Heq. apply Hp. rewrite Heq. by apply list_elem_of_fmap_2. }
    rewrite Ht1. destruct (id <? mp_id p).
    - by rewrite lookup_delete_ne.
    - by rewrite lookup_alter_ne. }
  destruct (IH s1 Hnd) as (st' & Hloop & Hd & Hk & Hi & Hlg & Ht).
  { intros q Hq. destruct (Hl q) as (v' & r' & ? & ? & ? & ?); [by right|].
    exists v', r'. by rewrite (Hsame q Hq). }
  exists st'. split; [exact Hloop|]. split; [congruence|]. split; [congruence|].
  split; [congruence|]. split.
  - rewrite Hlg, Hl1, <-app_assoc. f_equal.
    rewrite (omap_ext_in (force_log (tbl s1) id) (force_log (tbl st) id)).
    + by destruct (force_log (tbl st) id p).
    + intros q Hq. unfold force_log. by rewrite (Hsame q Hq).
  - intros i. rewrite Ht. unfold forced. rewrite fmap_cons.
    destruct (decide (i = mp_id p)) as [->|Hne].
    + rewrite (decide_False (P := mp_id p ∈ mp_id <$> l)) by done.
      rewrite (decide_True (P := mp_id p ∈ mp_id p :: (mp_id <$> l))) by left.
      rewrite Ht1. destruct (Z.ltb_spec id (mp_id p)).
      * rewrite decide_True by done. apply lookup_delete_eq.
      * rewrite decide_False by lia. apply lookup_alter_eq.
    + assert (tbl s1 !! i = tbl st !! i) as Hi'.
      { rewrite Ht1. destruct (id <? mp_id p).
        - by rewrite lookup_delete_ne.
        - by rewrite lookup_alter_ne. }
      destruct (decide (i ∈ mp_id <$> l)) as [Hin|Hnin].
      * rewrite (decide_True (P := i ∈ mp_id p :: (mp_id <$> l))) by by right.
        by rewrite Hi'.
      * rewrite (decide_False (P := i ∈ mp_id p :: (mp_id <$> l))); [done|].
        intros [?|?]%elem_of_cons; done.
Qed.

Lemma forced_applied id ps t i :
  forced id (reverse (applied_of t ps)) t i = forced id ps t i.
Proof.
  unfold forced.
  destruct (decide (i ∈ mp_id <$> ps)) as [Hin|Hnin].
  - destruct (t !! i) as [r|] eqn:Hr.
    + rewrite decide_True; [done|]. apply list_elem_of_fmap in Hin as (p & -> & Hp).
      apply list_elem_of_fmap_2. rewrite elem_of_reverse. apply list_elem_of_filter.
      split; [by eexists|done].
    + by repeat case_decide.
  - rewrite decide_False; [done|]. intros (p & -> & Hp)%list_elem_of_fmap.
    apply Hnin. rewrite elem_of_reverse in Hp. apply list_elem_of_filter in Hp as [_ Hp].
    by apply list_elem_of_fmap_2.
Qed.

(** X4.  [Force id], for [id] zero or an applied version and no applied plan
    above [id] locked, succeeds without running any migration action: it
    deletes the rows of the plans above [id] and clears the failed mark
    of the rows of the other plans, and leaves the data and the rows that
    belong to no plan as they are.  When every failed row belongs to a
    plan, no row is failed afterwards, so that [Up], [Down] and [Goto]
    are no longer refused.  The log tells each deletion with the id of
    its row, and each clearing with the target [id]. *)
Theorem Force_clears (m : Worker) (id : VersionID) (st : State) :
  worker_ok m →
  id = 0 ∨ (is_Some (definitions (schema m) !! id) ∧ is_Some (tbl st !! id)) →
  unlocked_above id (tbl st) (schema_plans m) →
  ∃ st' args,
    Worker_Force m id st = (Ok (), st') ∧
    data st' = data st ∧
    (∀ i, tbl st' !! i = forced id (schema_plans m) (tbl st) i) ∧
    logs st' = logs st
               ++ omap (force_log (tbl st) id) (reverse (applied_of (tbl st) (schema_plans m)))
               ++ [args] ∧
    ((∀ i r, tbl st !! i = Some r → failed r = true → i ∈ mp_id <$> schema_plans m) →
     no_failed (tbl st')).
Proof.
  intros Hm Hid Hun.
  pose proof (worker_ok_sorted m Hm) as Hps.
  destruct (getVersionSummaryAllowFailed_ok m (after_init st) Hm) as (vs & Hvs & Hso).
  change (tbl (after_init st)) with (tbl st) in Hso.
  assert (first_locked (tbl st) id (reverse (applied_of (tbl st) (schema_plans m))) = None)
    as Hlock.
  { apply first_locked_None. intros q r Hq. rewrite elem_of_reverse in Hq.
    apply list_elem_of_filter in Hq as [_ Hq]. by apply Hun. }
  destruct (force_loop_spec (vmap vs) id (applied vs) (after_init st))
    as (st1 & Hloop & Hd & _ & _ & Hlg & Ht).
  { rewrite (so_applied _ _ _ Hso), reverse_Permutation.
    apply (asc_NoDup mp_id). by apply applied_of_sorted. }
  { intros p Hp. rewrite (so_applied _ _ _ Hso), elem_of_reverse in Hp.
    apply list_elem_of_filter in Hp as [[r Hr] Hp].
    destruct (versions_row _ _ _ Hso _ _ Hr) as (_ & Hv & _).
    eexists _, r. split; [exact Hv|]. rewrite decorate_ID.
    destruct (decorate_fields (schema_plans m) (scan_row (mp_id p, r))) as (_ & _ & -> & _).
    done. }
  destruct (finished_eq m "database schema version forced" st1 Hm) as (args & Hfin).
  assert (∀ i, tbl st1 !! i = forced id (schema_plans m) (tbl st) i) as Ht'.
  { intros i. rewrite Ht, (so_applied _ _ _ Hso). apply forced_applied. }
  exists (logged args st1), args. split; [|split; [by simpl; rewrite Hd|split; [exact Ht'|split]]].
  - unfold Worker_Force.
    rewrite (bind_ok _ _ st () st) by (apply check_id_ok; destruct Hid as [?|[? _]]; auto).
    rewrite (bind_ok _ _ st () (after_init st)) by apply init_eq.
    rewrite (bind_ok _ _ (after_init st) () st1); [done|].
    unfold transact. rewrite (bind_ok _ _ _ _ _ Hvs).
    rewrite (bind_ok _ _ (after_init st) () (after_init st)).
    2:{ unfold lift. rewrite (checkLocked_eq _ _ _ id Hso). simpl. by rewrite Hlock. }
    rewrite (bind_ok _ _ (after_init st) () (after_init st)); [by rewrite Hloop|].
    destruct (Z.eqb_spec id 0) as [|Hne]; [done|].
    destruct Hid as [?|[Hdef [r Hr]]]; [done|].
    apply (worker_ok_defined m id Hm) in Hdef.
    apply list_elem_of_fmap in Hdef as (p & -> & Hp).
    assert (existsb (λ plan, mp_id plan =? mp_id p) (applied vs) = true) as ->; [|done].
    apply existsb_exists. exists p. split; [|apply Z.eqb_refl].
    apply list_elem_of_In. rewrite (so_applied _ _ _ Hso), elem_of_reverse.
    apply list_elem_of_filter. split; [by eexists|done].
  - cbn [logs logged]. rewrite Hlg, (so_applied _ _ _ Hso). cbn [logs after_init tbl].
    by rewrite <-app_assoc.
  - intros Hplans i r Hr. cbn [tbl logged] in Hr. rewrite Ht' in Hr. unfold forced in Hr.
    destruct (decide (i ∈ mp_id <$> schema_plans m)) as [Hin|Hnin].
    + destruct (decide (id < i)); [done|].
      destruct (tbl st !! i) as [r0|]; [|done]. by injection Hr as <-.
    + destruct (failed r) eqn:Hfr; [|done]. exfalso. apply Hnin. by apply (Hplans i r).
Qed.

(** X5.  [Force] refuses an id that is not defined (other than 0), a target
    below a locked applied version, in the name of the highest such
    version, and a defined version that is not applied; the table, the
    data and the log stay as they were.  The lock is checked before the
    version is looked for among the applied ones. *)
Theorem Force_refused (m : Worker) (id : VersionID) (st : State) :
  worker_ok m →
  (id ≠ 0 → definitions (schema m) !! id = None →
   Worker_Force m id st = (Raise ("invalid schema version id=" +:+ fmt_d id), st)) ∧
  (∀ p r,
     id = 0 ∨ is_Some (definitions (schema m) !! id) →
     p ∈ schema_plans m → tbl st !! mp_id p = Some r → locked r = true → id < mp_id p →
     (∀ q r', q ∈ schema_plans m → mp_id p < mp_id q → tbl st !! mp_id q = Some r' →
        locked r' = false) →
     Worker_Force m id st
     = (Raise ("database schema version locked id=" +:+ fmt_d (mp_id p)), after_init st)) ∧
  (is_Some (definitions (schema m) !! id) → id ≠ 0 → tbl st !! id = None →
   unlocked_above id (tbl st) (schema_plans m) →
   Worker_Force m id st
   = (Raise ("cannot force unapplied version id=" +:+ fmt_d id), after_init st)).
Proof.
  intros Hm. pose proof (worker_ok_sorted m Hm) as Hps.
  destruct (getVersionSummaryAllowFailed_ok m (after_init st) Hm) as (vs & Hvs & Hso).
  change (tbl (after_init st)) with (tbl st) in Hso.
  split; [|split].
  - intros Hne Hundef. unfold Worker_Force. unfold bind at 1.
    destruct (Z.eqb_spec id 0); [done|]. by rewrite checkVersion_undefined.
  - intros p r Hid Hp Hr Hlk Hlt Hhigh. unfold Worker_Force.
    rewrite (bind_ok _ _ st () st) by by apply check_id_ok.
    rewrite (bind_ok _ _ st () (after_init st)) by apply init_eq.
    unfold bind at 1. unfold transact. rewrite (bind_ok _ _ _ _ _ Hvs).
    unfold bind at 1. unfold lift. rewrite (checkLocked_eq _ _ _ id Hso).
    rewrite (first_locked_highest (tbl st) id _ p r); [by rewrite rollback_same|..|done|done|done|].
    + apply (asc_reverse mp_id). by apply applied_of_sorted.
    + rewrite elem_of_reverse. apply list_elem_of_filter. split; [by eexists|done].
    + intros q r' Hq. rewrite elem_of_reverse in Hq.
      apply list_elem_of_filter in Hq as [_ Hq]. by apply Hhigh.
  - intros Hdef Hne Hnone Hun. unfold Worker_Force.
    rewrite (bind_ok _ _ st () st) by (apply check_id_ok; auto).
    rewrite (bind_ok _ _ st () (after_init st)) by apply init_eq.
    unfold bind at 1. unfold transact. rewrite (bind_ok _ _ _ _ _ Hvs).
    rewrite (bind_ok _ _ (after_init st) () (after_init st)).
    2:{ unfold lift. rewrite (checkLocked_eq _ _ _ id Hso).
        rewrite first_locked_None; [done|]. intros q r Hq. rewrite elem_of_reverse in Hq.
        apply list_elem_of_filter in Hq as [_ Hq]. by apply Hun. }
    unfold bind at 1. destruct (Z.eqb_spec id 0) as [|_]; [done|].
    assert (existsb (λ plan, mp_id plan =? id) (applied vs) = false) as ->.
    { apply not_true_is_false. intros Hex. apply existsb_exists in Hex as (q & Hq & Hqid).
      apply list_elem_of_In in Hq. rewrite (so_applied _ _ _ Hso), elem_of_reverse in Hq.
      apply list_elem_of_filter in Hq as [[r Hr] _]. apply Z.eqb_eq in Hqid.
      simpl in Hr. rewrite Hqid, Hnone in Hr. done. }
    unfold raise. by rewrite rollback_same.
Qed.

(** ** Going to a version ([Worker.Goto]) *)

(** X6.  [Goto id], for [id] zero or a defined version, on a table without
    failed rows and without a locked applied plan above [id], and with
    actions that succeed, returns without error within one turn of its
    loop per plan and one more, and leaves applied exactly the plans at or
    below [id]: it migrates down, up, or both. *)
Theorem Goto_reaches_target (m : Worker) (id : VersionID) (fuel : nat) (st : State) :
  worker_ok m → no_failed (tbl st) →
  id = 0 ∨ is_Some (definitions (schema m) !! id) →
  unlocked_above id (tbl st) (schema_plans m) →
  actions_succeed id (schema_plans m) →
  (length (schema_plans m) < fuel)%nat →
  ∃ st',
    Worker_Goto m id fuel st = Some (Ok (), st') ∧
    no_failed (tbl st') ∧
    ∀ q, q ∈ schema_plans m → is_Some (tbl st' !! mp_id q) ↔ mp_id q ≤ id.
Proof.
  intros Hm Hf Hid Hun Hact Hfuel.
  destruct (Goto_ok m id fuel st Hm Hf Hid Hun Hact Hfuel) as (st' & Hgoto & Hrows).
  exists st'. split; [done|]. split; [|done].
  revert Hgoto. unfold Worker_Goto, then_loop. rewrite goto_first_eq by done.
  intros Hloop. apply step_loop_success in Hloop as (s1 & s2 & Hstep & Hfin).
  destruct (gotoOne_last m id s1 s2 Hm Hstep) as [(Hnf & _) _].
  destruct (finished_eq m "migrate goto finished" s2 Hm) as (args & Hfin').
  rewrite Hfin' in Hfin. injection Hfin as <-. done.
Qed.

(** ** Migrating up and down from any table ([Worker.Up], [Worker.Down]) *)

(** A step of [upOne] whose action succeeds. *)
Lemma upOne_step m st p rest :
  worker_ok m → no_failed (tbl st) →
  unapplied_of (tbl st) (schema_plans m) = p :: rest →
  (chosen_effect (mp_up p) (data st)).2 = None →
  ∃ k s,
    upOne m st = (Ok (bool_decide (1 < length (p :: rest))%nat), s) ∧
    tbl s = <[mp_id p := mkRow (VTime (clock env k)) false false]> (tbl st) ∧
    data s = (chosen_effect (mp_up p) (data st)).1 ∧
    logs s = logs st ++ [up_message p] ∧
    initCalled s = initCalled st.
Proof.
  intros Hm Hf HU He. rewrite (upOne_eq m st Hm Hf). unfold upOne_result. rewrite HU.
  destruct (chosen_effect (mp_up p) (data st)) as [d e]. simpl in He. subst e.
  destruct (in_tx (drv m) (mp_up p)).
  - exists (ticks st). eexists. split; [reflexivity|]. done.
  - exists (S (ticks st)). eexists. split; [reflexivity|]. done.
Qed.

Lemma unapplied_of_NoDup t ps :
  StronglySorted (asc mp_id) ps → NoDup (mp_id <$> unapplied_of t ps).
Proof. intros Hps. apply (asc_NoDup mp_id). by apply unapplied_of_sorted. Qed.

Lemma applied_of_NoDup t ps :
  StronglySorted (asc mp_id) ps → NoDup (mp_id <$> applied_of t ps).
Proof. intros Hps. apply (asc_NoDup mp_id). by apply applied_of_sorted. Qed.

(** The loop of [Up] when the up actions of the unapplied plans
    succeed. *)
Lemma up_steps m msg todo :
  worker_ok m →
  ∀ fuel st,
    no_failed (tbl st) →
    unapplied_of (tbl st) (schema_plans m) = todo →
    ups_succeed todo (data st) →
    (length todo < fuel)%nat →
    ∃ s args,
      step_loop m fuel (upOne m) msg st = Some (Ok (), logged args s) ∧
      data s = run_ups todo (data st) ∧
      logs s = logs st ++ (up_message <$> todo) ∧
      (∀ i, i ∉ mp_id <$> todo → tbl s !! i = tbl st !! i) ∧
      (∀ p, p ∈ todo →
         ∃ k, tbl s !! mp_id p = Some (mkRow (VTime (clock env k)) false false)).
Proof.
  intros Hm. pose proof (worker_ok_sorted m Hm) as Hps.
  induction todo as [|p rest IH]; intros fuel st Hf HU Hok Hfuel;
    (destruct fuel as [|fuel]; [simpl in Hfuel; lia|]); simpl.
  - rewrite (upOne_eq m st Hm Hf). unfold upOne_result. rewrite HU.
    destruct (finished_eq m msg st Hm) as (args & ->).
    exists st, args. split; [done|]. split; [done|]. split; [by rewrite app_nil_r|].
    split; [done|]. intros p Hp. by apply elem_of_nil in Hp.
  - destruct Hok as [He Hok].
    destruct (upOne_step m st p rest Hm Hf HU He) as (k & s1 & -> & Ht1 & Hd1 & Hl1 & _).
    pose proof (unapplied_of_NoDup (tbl st) _ Hps) as Hnd. rewrite HU in Hnd.
    apply NoDup_cons in Hnd as [Hp _].
    assert (tbl s1 !! mp_id p = Some (mkRow (VTime (clock env k)) false false)) as Hrow.
    { by rewrite Ht1, lookup_insert_eq. }
    case_bool_decide as Hmore.
    + destruct (IH fuel s1) as (s & args & -> & Hd & Hl & Hother & Hnew).
      { rewrite Ht1. by apply no_failed_insert. }
      { rewrite Ht1. by apply (unapplied_of_insert _ Hps). }
      { by rewrite Hd1. }
      { simpl in Hfuel. lia. }
      exists s, args. split; [done|]. split; [by rewrite Hd, Hd1|].
      split; [by rewrite Hl, Hl1, <-app_assoc|]. split.
      * intros i Hi. rewrite ?fmap_cons in Hi. apply not_elem_of_cons in Hi as [Hne Hi].
        by rewrite (Hother i Hi), Ht1, lookup_insert_ne.
      * intros q [->|Hq]%elem_of_cons; [|by apply Hnew].
        exists k. by rewrite (Hother _ Hp).
    + destruct rest as [|q rest]; [|simpl in Hmore; lia].
      destruct (finished_eq m msg s1 Hm) as (args & ->).
      exists s1, args. split; [done|]. split; [by rewrite Hd1|]. split; [by rewrite Hl1|].
      split.
      * intros i Hi. rewrite ?fmap_cons in Hi. apply not_elem_of_cons in Hi as [Hne _].
        by rewrite Ht1, lookup_insert_ne.
      * intros q [->|Hq]%elem_of_cons; [by exists k|by apply elem_of_nil in Hq].
Qed.

(** The loop of [Up] when the up action of an unapplied plan fails after
    those of the plans [pre] before it have succeeded. *)
Lemma up_steps_fail m msg pre p rest d e :
  worker_ok m →
  ∀ fuel st,
    no_failed (tbl st) →
    unapplied_of (tbl st) (schema_plans m) = pre ++ p :: rest →
    ups_succeed pre (data st) →
    chosen_effect (mp_up p) (run_ups pre (data st)) = (d, Some e) →
    (length pre < fuel)%nat →
    ∃ s,
      step_loop m fuel (upOne m) msg st = Some (Raise (wrapf e (fmt_d (mp_id p))), s) ∧
      logs s = logs st ++ (up_message <$> pre) ∧
      (∀ i, i ∉ mp_id <$> pre → i ≠ mp_id p → tbl s !! i = tbl st !! i) ∧
      (∀ q, q ∈ pre →
         ∃ k, tbl s !! mp_id q = Some (mkRow (VTime (clock env k)) false false)) ∧
      (if in_tx (drv m) (mp_up p)
       then tbl s !! mp_id p = None ∧ data s = run_ups pre (data st)
       else (∃ k, tbl s !! mp_id p = Some (mkRow (VTime (clock env k)) true false)) ∧
            data s = d).
Proof.
  intros Hm. pose proof (worker_ok_sorted m Hm) as Hps.
  induction pre as [|q pre IH]; intros fuel st Hf HU Hok He Hfuel;
    (destruct fuel as [|fuel]; [simpl in Hfuel; lia|]); simpl.
  - rewrite (upOne_eq m st Hm Hf). unfold upOne_result. simpl in HU, He. rewrite HU, He.
    assert (tbl st !! mp_id p = None) as Hnone.
    { assert (p ∈ unapplied_of (tbl st) (schema_plans m)) as Hp by (rewrite HU; left).
      by apply list_elem_of_filter in Hp as [Hp _]. }
    destruct (in_tx (drv m) (mp_up p)); eexists; (split; [reflexivity|]);
      (split; [by simpl; rewrite app_nil_r|]).
    + split; [done|]. split; [by intros ? ?%elem_of_nil|]. done.
    + split; [by intros i _ Hne; simpl; rewrite lookup_insert_ne|].
      split; [by intros ? ?%elem_of_nil|]. split; [|done].
      eexists. simpl. by rewrite lookup_insert_eq.
  - destruct Hok as [Heq Hok]. simpl in HU.
    destruct (upOne_step m st q (pre ++ p :: rest) Hm Hf HU Heq)
      as (k & s1 & -> & Ht1 & Hd1 & Hl1 & _).
    pose proof (unapplied_of_NoDup (tbl st) _ Hps) as Hnd. rewrite HU in Hnd.
    rewrite fmap_cons, fmap_app, fmap_cons in Hnd.
    apply NoDup_cons in Hnd as [Hq _].
    rewrite elem_of_app, elem_of_cons in Hq.
    rewrite bool_decide_eq_true_2 by (simpl; rewrite length_app; simpl; lia).
    destruct (IH fuel s1) as (s & -> & Hl & Hother & Hnew & Hlast).
    { rewrite Ht1. by apply no_failed_insert. }
    { rewrite Ht1. by apply (unapplied_of_insert _ Hps). }
    { by rewrite Hd1. }
    { by rewrite Hd1. }
    { simpl in Hfuel. lia. }
    exists s. split; [done|]. split; [by rewrite Hl, Hl1, <-app_assoc|].
    assert (tbl s !! mp_id q = Some (mkRow (VTime (clock env k)) false false)) as Hrow.
    { rewrite Hother by tauto. by rewrite Ht1, lookup_insert_eq. }
    split; [|split].
    + intros i Hi Hne. rewrite ?fmap_cons in Hi. apply not_elem_of_cons in Hi as [Hiq Hi].
      by rewrite (Hother i Hi Hne), Ht1, lookup_insert_ne.
    + intros q' [->|Hq']%elem_of_cons; [by exists k|by apply Hnew].
    + simpl. by rewrite Hd1 in Hlast.
Qed.

(** X7.  [Up] on any table without failed rows, when the up actions of the
    unapplied plans succeed: it returns without error within one turn of
    its loop per unapplied plan and one more, having run the up actions
    of exactly the unapplied plans, once each in ascending order of id,
    wherever they lie among the applied ones.  Every plan then has a
    row; the rows that were there are as they were, and the new ones are
    stamped with a reading of the clock, not failed and not locked. *)
Theorem Up_applies_pending (m : Worker) (fuel : nat) (st : State) :
  worker_ok m → no_failed (tbl st) →
  ups_succeed (unapplied_of (tbl st) (schema_plans m)) (data st) →
  (length (unapplied_of (tbl st) (schema_plans m)) < fuel)%nat →
  ∃ st' args,
    Worker_Up m fuel st = Some (Ok (), st') ∧
    data st' = run_ups (unapplied_of (tbl st) (schema_plans m)) (data st) ∧
    logs st' = logs st ++ (up_message <$> unapplied_of (tbl st) (schema_plans m)) ++ [args] ∧
    (∀ i r, tbl st !! i = Some r → tbl st' !! i = Some r) ∧
    (∀ p, p ∈ schema_plans m → tbl st !! mp_id p = None →
       ∃ k, tbl st' !! mp_id p = Some (mkRow (VTime (clock env k)) false false)) ∧
    (∀ i, i ∉ mp_id <$> schema_plans m → tbl st' !! i = tbl st !! i) ∧
    no_failed (tbl st').
Proof.
  intros Hm Hf Hok Hfuel. pose proof (worker_ok_sorted m Hm) as Hps.
  destruct (up_steps m "migrate up finished" _ Hm fuel (after_init st) Hf eq_refl Hok Hfuel)
    as (s & args & Hloop & Hd & Hl & Hother & Hnew).
  cbn [tbl data logs after_init] in *.
  assert (∀ i r, tbl st !! i = Some r → tbl s !! i = Some r) as Hold.
  { intros i r Hr. rewrite Hother; [done|].
    intros (p & -> & Hp)%list_elem_of_fmap. apply list_elem_of_filter in Hp as [Hp _].
    simpl in Hp. by rewrite Hr in Hp. }
  exists (logged args s), args. split; [|split; [done|split; [|split; [done|split; [|split]]]]].
  - unfold Worker_Up, then_loop. by rewrite init_eq.
  - cbn [logs logged]. by rewrite Hl, <-app_assoc.
  - intros p Hp Hnone. apply Hnew. by apply list_elem_of_filter.
  - intros i Hi. apply Hother. intros (p & -> & Hp)%list_elem_of_fmap.
    apply Hi, list_elem_of_fmap_2. by apply list_elem_of_filter in Hp as [_ Hp].
  - intros i r Hr. cbn [tbl logged] in Hr.
    destruct (decide (i ∈ mp_id <$> unapplied_of (tbl st) (schema_plans m))) as [Hin|Hnin].
    + apply list_elem_of_fmap in Hin as (p & -> & Hp).
      destruct (Hnew p Hp) as (k & Hk). rewrite Hk in Hr. by injection Hr as <-.
    + rewrite (Hother i Hnin) in Hr. by apply (Hf i r).
Qed.

(** X8.  [Up] stops at the first unapplied plan whose up action fails, with
    that error prefixed by the id of the plan: the plans before it stay
    applied and those after it are not tried.  A failure inside a
    transaction is rolled back: the failing plan has no row, the data is
    as the plans before it left it, and no row is marked failed, so that
    the next [Up] starts again at that plan.  A failure outside a
    transaction leaves the row of the plan marked failed and the data as
    the failed action left it. *)
Theorem Up_stops_at_failure (m : Worker) (fuel : nat) (st : State)
    (pre rest : list migrationPlan) (p : migrationPlan) (d : Data) (e : string) :
  worker_ok m → no_failed (tbl st) →
  unapplied_of (tbl st) (schema_plans m) = pre ++ p :: rest →
  ups_succeed pre (data st) →
  chosen_effect (mp_up p) (run_ups pre (data st)) = (d, Some e) →
  (length pre < fuel)%nat →
  ∃ st',
    Worker_Up m fuel st = Some (Raise (fmt_d (mp_id p) +:+ ": " +:+ e), st') ∧
    logs st' = logs st ++ (up_message <$> pre) ∧
    (∀ i r, tbl st !! i = Some r → tbl st' !! i = Some r) ∧
    (∀ q, q ∈ pre →
       ∃ k, tbl st' !! mp_id q = Some (mkRow (VTime (clock env k)) false false)) ∧
    (∀ q, q ∈ rest → tbl st' !! mp_id q = None) ∧
    (if in_tx (drv m) (mp_up p)
     then tbl st' !! mp_id p = None ∧ data st' = run_ups pre (data st) ∧
          no_failed (tbl st') ∧
          unapplied_of (tbl st') (schema_plans m) = p :: rest
     else (∃ k, tbl st' !! mp_id p = Some (mkRow (VTime (clock env k)) true false)) ∧
          data st' = d ∧ some_failed (tbl st')).
Proof.
  intros Hm Hf HU Hok He Hfuel. pose proof (worker_ok_sorted m Hm) as Hps.
  destruct (up_steps_fail m "migrate up finished" pre p rest d e Hm fuel (after_init st)
              Hf HU Hok He Hfuel) as (s & Hloop & Hl & Hother & Hnew & Hlast).
  cbn [tbl data logs after_init] in *.
  pose proof (unapplied_of_NoDup (tbl st) _ Hps) as Hnd. rewrite HU in Hnd.
  rewrite fmap_app, fmap_cons in Hnd.
  apply NoDup_app in Hnd as (_ & Hdisj & Hnd2). apply NoDup_cons in Hnd2 as [Hp_rest _].
  assert (∀ q, q ∈ pre ++ p :: rest → q ∈ schema_plans m ∧ tbl st !! mp_id q = None) as Hun.
  { intros q Hq. rewrite <-HU in Hq. by apply list_elem_of_filter in Hq as [? ?]. }
  assert (∀ i r, tbl st !! i = Some r → tbl s !! i = Some r) as Hold.
  { intros i r Hr. rewrite Hother; [done|..].
    - intros (q & -> & Hq)%list_elem_of_fmap.
      destruct (Hun q) as [_ Hnone]; [apply elem_of_app; by left|]. by rewrite Hr in Hnone.
    - intros ->. destruct (Hun p) as [_ Hnone]; [apply elem_of_app; right; left|].
      by rewrite Hr in Hnone. }
  assert (∀ q, q ∈ rest → tbl s !! mp_id q = None) as Hrest.
  { intros q Hq. destruct (Hun q) as [_ Hnone]; [apply elem_of_app; right; by right|].
    rewrite Hother; [done|..].
    - intros Hin. apply (Hdisj (mp_id q) Hin). right. by apply list_elem_of_fmap_2.
    - intros Heq. apply Hp_rest. rewrite <-Heq. by apply list_elem_of_fmap_2. }
  exists s. split; [|split; [done|split; [done|split; [done|split; [done|]]]]].
  { unfold Worker_Up, then_loop. by rewrite init_eq. }
  destruct (in_tx (drv m) (mp_up p)).
  - destruct Hlast as [Hnone Hd]. split; [done|]. split; [done|].
    assert (no_failed (tbl s)) as Hnf.
    { intros i r Hr.
      destruct (decide (i ∈ mp_id <$> pre)) as [Hin|Hnin].
      + apply list_elem_of_fmap in Hin as (q & -> & Hq).
        destruct (Hnew q Hq) as (k & Hk). rewrite Hk in Hr. by injection Hr as <-.
      + destruct (decide (i = mp_id p)) as [->|Hne]; [by rewrite Hnone in Hr|].
        rewrite (Hother i Hnin Hne) in Hr. by apply (Hf i r). }
    split; [done|].
    apply (asc_ext mp_id).
    + by apply unapplied_of_sorted.
    + pose proof (unapplied_of_sorted _ Hps (tbl st)) as Hs. rewrite HU in Hs.
      by apply StronglySorted_app_1_r in Hs.
    + intros q. rewrite elem_of_unapplied_of by done. split.
      * intros [Hq Hnone_q].
        assert (q ∈ pre ++ p :: rest) as Hin.
        { rewrite <-HU. apply list_elem_of_filter. split; [|done]. simpl.
          destruct (tbl st !! mp_id q) as [r|] eqn:Hr; [|done].
          by rewrite (Hold _ _ Hr) in Hnone_q. }
        apply elem_of_app in Hin as [Hin|Hin]; [|done].
        destruct (Hnew q Hin) as (k & Hk). by rewrite Hk in Hnone_q.
      * intros [->|Hq]%elem_of_cons.
        -- split; [|done]. apply Hun. apply elem_of_app. right. left.
        -- split; [|by apply Hrest]. apply Hun. apply elem_of_app. right. by right.
  - destruct Hlast as [(k & Hk) Hd]. split; [by exists k|]. split; [done|].
    by exists (mp_id p), (mkRow (VTime (clock env k)) true false).
Qed.

(** The loop of [Down]: the applied plans [gone], highest id first, are
    not locked and their down actions succeed; the next applied plan, if
    there is one, is locked. *)
Lemma down_steps m msg gone :
  worker_ok m →
  ∀ fuel st keep,
    no_failed (tbl st) →
    reverse (applied_of (tbl st) (schema_plans m)) = gone ++ keep →
    (∀ q, q ∈ gone → ∃ r, tbl st !! mp_id q = Some r ∧ locked r = false) →
    (∀ q r, head keep = Some q → tbl st !! mp_id q = Some r → locked r = true) →
    downs_succeed gone (data st) →
    (length gone < fuel)%nat →
    ∃ s tail,
      step_loop m fuel (downOne m) msg st = Some (Ok (), s) ∧
      data s = run_downs gone (data st) ∧
      logs s = logs st ++ (down_message <$> gone) ++ tail ∧
      (∀ i, tbl s !! i = if decide (i ∈ mp_id <$> gone) then None else tbl st !! i) ∧
      match head keep with
      | None => ∃ args, tail = [args]
      | Some q => ∃ args, tail = [["locked version=" +:+ fmt_d (mp_id q)]; args]
      end.
Proof.
  intros Hm. pose proof (worker_ok_sorted m Hm) as Hps.
  induction gone as [|p gone IH]; intros fuel st keep Hf HA Hgone Hkeep Hok Hfuel;
    (destruct fuel as [|fuel]; [simpl in Hfuel; lia|]); simpl.
  - rewrite (downOne_eq m st Hm Hf). unfold downOne_result. simpl in HA. rewrite HA.
    destruct keep as [|q keep]; simpl.
    + destruct (finished_eq m msg st Hm) as (args & ->).
      exists (logged args st), [args]. split; [done|]. split; [done|]. split; [done|].
      split; [done|]. by exists args.
    + assert (q ∈ applied_of (tbl st) (schema_plans m)) as Hq.
      { rewrite <-elem_of_reverse, HA. left. }
      apply list_elem_of_filter in Hq as [[r Hr] _]. rewrite Hr.
      rewrite (Hkeep q r eq_refl Hr).
      destruct (finished_eq m msg (logged ["locked version=" +:+ fmt_d (mp_id q)] st) Hm)
        as (args & ->).
      eexists _, [["locked version=" +:+ fmt_d (mp_id q)]; args]. split; [done|].
      split; [done|]. split; [by simpl; rewrite <-app_assoc|].
      split; [done|]. by exists args.
  - destruct Hok as [He Hok]. simpl in HA.
    rewrite (downOne_eq m st Hm Hf). unfold downOne_result. rewrite HA.
    destruct (Hgone p) as (r & Hr & Hlk); [left|]. rewrite Hr, Hlk.
    destruct (chosen_effect (mp_down p) (data st)) as [d e] eqn:Heff. simpl in He, Hok.
    subst e.
    set (s1 := mkState (delete (mp_id p) (tbl st)) d (ticks st)
                 (logs st ++ [["migrated down version=" +:+ fmt_d (mp_id p)]])
                 (initCalled st)).
    assert (NoDup (mp_id <$> p :: gone ++ keep)) as Hnd.
    { rewrite <-HA, reverse_Permutation. by apply applied_of_NoDup. }
    rewrite fmap_cons in Hnd. apply NoDup_cons in Hnd as [Hp _].
    rewrite fmap_app, elem_of_app in Hp.
    assert (∀ q, q ∈ gone ++ keep → tbl s1 !! mp_id q = tbl st !! mp_id q) as Hsame.
    { intros q Hq. simpl. apply lookup_delete_ne. intros Heq. apply Hp.
      apply elem_of_app in Hq as [Hq|Hq]; [left|right]; rewrite Heq;
        by apply list_elem_of_fmap_2. }
    case_bool_decide as Hmore.
    + destruct (IH fuel s1 keep) as (s & tail & -> & Hd & Hl & Ht & Htail).
      { by apply no_failed_delete. }
      { by apply (applied_of_delete _ Hps). }
      { intros q Hq. rewrite Hsame by (apply elem_of_app; by left). apply Hgone. by right. }
      { intros q r' Hq. rewrite Hsame; [by apply Hkeep|].
        apply elem_of_app. right. destruct keep; [done|]. injection Hq as ->. left. }
      { done. }
      { simpl in Hfuel. lia. }
      exists s, tail. split; [done|]. split; [by rewrite Hd|].
      split; [by rewrite Hl; simpl; rewrite <-app_assoc|]. split; [|done].
      intros i. rewrite Ht. simpl.
      destruct (decide (i = mp_id p)) as [->|Hne].
      * rewrite (decide_True (P := mp_id p ∈ mp_id p :: _)) by left.
        case_decide; [done|]. apply lookup_delete_eq.
      * rewrite lookup_delete_ne by done.
        destruct (decide (i ∈ mp_id <$> gone)) as [Hin|Hnin].
        -- by rewrite (decide_True (P := i ∈ mp_id p :: _)) by by right.
        -- rewrite (decide_False (P := i ∈ mp_id p :: _)); [done|].
           intros [?|?]%elem_of_cons; done.
    + assert (gone = [] ∧ keep = []) as [-> ->].
      { destruct gone, keep; simpl in Hmore; try done; rewrite ?length_app in Hmore;
          simpl in Hmore; lia. }
      destruct (finished_eq m msg s1 Hm) as (args & ->).
      exists (logged args s1), [args]. split; [done|]. split; [done|].
      split; [by simpl; rewrite <-app_assoc|]. split; [|by exists args].
      intros i. simpl. destruct (decide (i = mp_id p)) as [->|Hne].
      * rewrite (decide_True (P := mp_id p ∈ [mp_id p])) by left. apply lookup_delete_eq.
      * rewrite lookup_delete_ne by done. rewrite decide_False; [done|].
        by intros ->%list_elem_of_singleton.
Qed.

(** X9.  [Down] on any table without failed rows: let the applied plans,
    highest id first, be [gone] and then [keep], the plans of [gone] not
    locked and their down actions succeeding, and the first plan of
    [keep], if there is one, locked.  Then [Down] returns without error
    within one turn of its loop per plan of [gone] and one more; it has
    run the down actions of [gone], highest id first, and deleted their
    rows, and all other rows are as they were: the locked version and
    all below it, the rows that belong to no plan.  It reports the
    locked version in its log and not as an error. *)
Theorem Down_rolls_back (m : Worker) (fuel : nat) (st : State)
    (gone keep : list migrationPlan) :
  worker_ok m → no_failed (tbl st) →
  reverse (applied_of (tbl st) (schema_plans m)) = gone ++ keep →
  (∀ q, q ∈ gone → ∃ r, tbl st !! mp_id q = Some r ∧ locked r = false) →
  (∀ q r, head keep = Some q → tbl st !! mp_id q = Some r → locked r = true) →
  downs_succeed gone (data st) →
  (length gone < fuel)%nat →
  ∃ st' tail,
    Worker_Down m fuel st = Some (Ok (), st') ∧
    data st' = run_downs gone (data st) ∧
    logs st' = logs st ++ (down_message <$> gone) ++ tail ∧
    (∀ i, tbl st' !! i = if decide (i ∈ mp_id <$> gone) then None else tbl st !! i) ∧
    reverse (applied_of (tbl st') (schema_plans m)) = keep ∧
    match head keep with
    | None => ∃ args, tail = [args]
    | Some q => ∃ args, tail = [["locked version=" +:+ fmt_d (mp_id q)]; args]
    end.
Proof.
  intros Hm Hf HA Hgone Hkeep Hok Hfuel. pose proof (worker_ok_sorted m Hm) as Hps.
  destruct (down_steps m "migrate down finished" gone Hm fuel (after_init st) keep
              Hf HA Hgone Hkeep Hok Hfuel) as (s & tail & Hloop & Hd & Hl & Ht & Htail).
  cbn [tbl data logs after_init] in *.
  exists s, tail. split; [|split; [done|split; [done|split; [done|split; [|done]]]]].
  { unfold Worker_Down, then_loop. by rewrite init_eq. }
  pose proof (applied_of_sorted _ Hps (tbl st)) as Hsorted.
  apply (asc_reverse mp_id) in Hsorted. rewrite HA in Hsorted.
  apply (asc_ext (λ q, - mp_id q)).
  - apply (asc_reverse mp_id). by apply applied_of_sorted.
  - by apply StronglySorted_app_1_r in Hsorted.
  - intros q. rewrite elem_of_reverse, elem_of_applied_of by done. rewrite Ht.
    assert (NoDup (mp_id <$> gone ++ keep)) as Hnd.
    { rewrite <-HA, reverse_Permutation. by apply applied_of_NoDup. }
    rewrite fmap_app in Hnd. apply NoDup_app in Hnd as (_ & Hdisj & _).
    split.
    + intros [Hq Hrow]. case_decide as Hin; [by destruct Hrow|].
      assert (q ∈ gone ++ keep) as Hq'.
      { rewrite <-HA, elem_of_reverse. by apply list_elem_of_filter. }
      apply elem_of_app in Hq' as [Hq'|Hq']; [|done].
      exfalso. apply Hin. by apply list_elem_of_fmap_2.
    + intros Hq.
      assert (q ∈ applied_of (tbl st) (schema_plans m)) as Hq'.
      { rewrite <-elem_of_reverse, HA. apply elem_of_app. by right. }
      apply list_elem_of_filter in Hq' as [Hrow Hq']. split; [done|].
      rewrite decide_False; [done|]. intros Hin. apply (Hdisj _ Hin).
      by apply list_elem_of_fmap_2.
Qed.

(** X10.  [Up] on an empty table followed by [Down], when the actions
    succeed: both return without error, the table is empty again, and
    the data has seen the up actions of all plans in ascending order of
    id and then their down actions in descending order. *)
Theorem Up_then_Down (m : Worker) (fuel : nat) (st : State) :
  worker_ok m → tbl st = ∅ →
  ups_succeed (schema_plans m) (data st) →
  downs_succeed (reverse (schema_plans m)) (run_ups (schema_plans m) (data st)) →
  (length (schema_plans m) < fuel)%nat →
  ∃ st1 st2,
    Worker_Up m fuel st = Some (Ok (), st1) ∧
    dom (tbl st1) = list_to_set (mp_id <$> schema_plans m) ∧
    Worker_Down m fuel st1 = Some (Ok (), st2) ∧
    tbl st2 = ∅ ∧
    data st2 = run_downs (reverse (schema_plans m)) (run_ups (schema_plans m) (data st)).
Proof.
  intros Hm Hempty Hups Hdowns Hfuel. pose proof (worker_ok_sorted m Hm) as Hps.
  assert (unapplied_of (tbl st) (schema_plans m) = schema_plans m) as HU.
  { apply filter_all. intros q _. simpl. by rewrite Hempty. }
  assert (no_failed (tbl st)) as Hf.
  { intros i r Hr. by rewrite Hempty in Hr. }
  destruct (up_steps m "migrate up finished" _ Hm fuel (after_init st) Hf HU Hups Hfuel)
    as (s & args & Hup & Hd & _ & Hother & Hnew).
  cbn [tbl data logs after_init] in *.
  set (st1 := logged args s) in *.
  assert (∀ i, is_Some (tbl st1 !! i) ↔ i ∈ mp_id <$> schema_plans m) as Hrows.
  { intros i. split.
    - intros Hi. destruct (decide (i ∈ mp_id <$> schema_plans m)) as [|Hnin]; [done|].
      simpl in Hi. rewrite (Hother i Hnin), Hempty in Hi. by destruct Hi.
    - intros (q & -> & Hq)%list_elem_of_fmap. destruct (Hnew q Hq) as (k & Hk).
      simpl. by rewrite Hk. }
  assert (applied_of (tbl st1) (schema_plans m) = schema_plans m) as HA.
  { apply filter_all. intros q Hq. apply Hrows. by apply list_elem_of_fmap_2. }
  assert (no_failed (tbl st1)) as Hf1.
  { intros i r Hr. pose proof (mk_is_Some _ _ Hr) as Hi. apply Hrows in Hi.
    apply list_elem_of_fmap in Hi as (q & -> & Hq). destruct (Hnew q Hq) as (k & Hk).
    simpl in Hr. rewrite Hk in Hr. by injection Hr as <-. }
  destruct (down_steps m "migrate down finished" (reverse (schema_plans m)) Hm fuel
              (after_init st1) [])
    as (st2 & tail & Hdown & Hd2 & _ & Ht2 & _).
  { done. }
  { cbn [tbl after_init]. by rewrite HA, app_nil_r. }
  { intros q Hq. rewrite elem_of_reverse in Hq. destruct (Hnew q Hq) as (k & Hk).
    eexists. split; [exact Hk|done]. }
  { done. }
  { cbn [data after_init]. unfold st1. cbn [data logged]. by rewrite Hd. }
  { by rewrite length_reverse. }
  exists st1, st2. split; [|split; [|split; [|split]]].
  - unfold Worker_Up, then_loop. by rewrite init_eq.
  - apply set_eq. intros i. by rewrite elem_of_dom, Hrows, elem_of_list_to_set.
  - unfold Worker_Down, then_loop. by rewrite init_eq.
  - apply map_eq. intros i. rewrite Ht2, lookup_empty. case_decide as Hin; [done|].
    destruct (tbl (after_init st1) !! i) eqn:Hr; [|done].
    exfalso. apply Hin. rewrite fmap_reverse, elem_of_reverse. apply Hrows.
    by eexists.
  - rewrite Hd2. cbn [data after_init]. unfold st1. cbn [data logged]. by rewrite Hd.
Qed.

(** ** When a schema has no errors ([Schema.Err], [NewWorker]) *)

Lemma Definition_errs_nil d :
  Definition_errs d = [] ↔ count_accepted (upCount d) ∧ count_accepted (downCount d).
Proof.
  unfold Definition_errs, count_accepted.
  destruct (Z.eqb_spec (upCount d) 0), (Z.ltb_spec 1 (upCount d)),
    (Z.eqb_spec (downCount d) 0), (Z.ltb_spec 1 (downCount d));
    simpl; split; try done; intros; try lia.
Qed.

Lemma replayUp_apply_opt (a : option Action) t :
  replayUp (apply_opt a) = Some t ↔ a = Some (Replay t).
Proof.
  destruct a as [[]|]; simpl; split; try done; by intros [= ->].
Qed.

Lemma resolve_replay_errs_nil pid pm a es :
  (resolve_replay pid pm a es).2 = [] ↔
  es = [] ∧ ∀ t, replayUp a = Some t → t < pid ∧ is_Some (pm !! t).
Proof.
  unfold resolve_replay. destruct (replayUp a) as [t|]; simpl.
  2:{ split; [by intros ->|by intros [? _]]. }
  destruct (Z.leb_spec pid t) as [Hle|Hlt]; simpl.
  { split.
    - by intros [_ [=]]%app_eq_nil.
    - intros [_ Ht]. destruct (Ht t eq_refl). lia. }
  destruct (pm !! t) as [q|] eqn:Hq; simpl.
  - split.
    + intros ->. split; [done|]. intros ? [= <-]. split; [done|]. by rewrite Hq.
    + by intros [? _].
  - split.
    + by intros [_ [=]]%app_eq_nil.
    + intros [_ Ht]. destruct (Ht t eq_refl) as [_ [? Hsome]]. by rewrite Hq in Hsome.
Qed.

Lemma newPlan_errs_nil d pm :
  mp_errs (newPlan d pm) = [] ↔
  Definition_errs d = [] ∧
  (∀ t, upAction d = Some (Replay t) → t < d_id d ∧ is_Some (pm !! t)) ∧
  (∀ t, downAction d = Some (Replay t) → t < d_id d ∧ is_Some (pm !! t)).
Proof.
  unfold newPlan.
  pose proof (resolve_replay_errs_nil (d_id d) pm (apply_opt (upAction d)) (Definition_errs d))
    as H1.
  destruct (resolve_replay (d_id d) pm (apply_opt (upAction d)) (Definition_errs d))
    as [up es1].
  pose proof (resolve_replay_errs_nil (d_id d) pm (apply_opt (downAction d)) es1) as H2.
  destruct (resolve_replay (d_id d) pm (apply_opt (downAction d)) es1) as [down es2].
  simpl in *. rewrite H2, H1.
  setoid_rewrite replayUp_apply_opt. tauto.
Qed.

Lemma compiled_errs_nil h defs pm ids new :
  wf_defs h defs →
  compiled h defs pm ids new →
  StronglySorted Z.lt ids →
  (∀ t, is_Some (pm !! t) ↔ is_Some (defs !! t) ∧ (t ∉ ids) ∧ (∀ i, i ∈ ids → t < i)) →
  (∀ t, is_Some (defs !! t) → t ∈ ids ∨ ∀ i, i ∈ ids → t < i) →
  (∀ p, p ∈ new → mp_errs p = []) ↔
  (∀ id l d, id ∈ ids → defs !! id = Some l → h !! l = Some d → valid_definition defs d).
Proof.
  intros Hwf Hc. induction Hc as [pm|pm id ids l d new Hl Hd Hc IH]; intros Hs Hpm Hall.
  { split; [by intros _ ? ? ? ?%elem_of_nil|by intros _ ? ?%elem_of_nil]. }
  apply StronglySorted_inv in Hs as [Hs Hlt]. rewrite Forall_forall in Hlt.
  destruct (wf_defs_lookup h defs id l Hwf Hl) as (d' & Hd' & Hid).
  rewrite Hd in Hd'. injection Hd' as <-.
  assert (∀ t, t < id → is_Some (pm !! t) ↔ is_Some (defs !! t)) as Hbelow.
  { intros t Ht. rewrite Hpm. split; [by intros [? _]|]. intros Hdef. split; [done|].
    destruct (Hall t Hdef) as [Hin|Hmin].
    - apply elem_of_cons in Hin as [->|Hin]; [lia|]. specialize (Hlt t Hin). lia.
    - split; [|done]. intros Hin. specialize (Hmin t Hin). lia. }
  assert ((∀ p, p ∈ new → mp_errs p = []) ↔
          (∀ id0 l0 d0, id0 ∈ ids → defs !! id0 = Some l0 → h !! l0 = Some d0 →
             valid_definition defs d0)) as IH'.
  { apply IH; [done|..].
    - intros t. rewrite lookup_insert_is_Some, Hpm. split.
      + intros [<-|[Hne (Hdef & Hnin & Hmin)]].
        * split; [by eexists|]. split; [|done].
          intros Hin. specialize (Hlt id Hin). lia.
        * split; [done|]. split; [|by intros i Hi; apply Hmin; right].
          intros Hin. apply Hnin. by right.
      + intros (Hdef & Hnin & Hmin). destruct (decide (id = t)) as [|Hne]; [by left|].
        right. split; [done|]. split; [done|]. split.
        * by intros [?|?]%elem_of_cons.
        * intros i [->|Hi]%elem_of_cons; [|by apply Hmin].
          destruct (Hall t Hdef) as [[?|?]%elem_of_cons|Hm]; [done|done|]. apply Hm. left.
    - intros t Hdef. destruct (Hall t Hdef) as [[->|Hin]%elem_of_cons|Hmin].
      + right. done.
      + by left.
      + right. intros i Hi. apply Hmin. by right. }
  split.
  - intros Hnil id0 l0 d0 [->|Hin]%elem_of_cons Hl0 Hd0.
    + rewrite Hl in Hl0. injection Hl0 as <-. rewrite Hd in Hd0. injection Hd0 as <-.
      specialize (Hnil (newPlan d pm)). rewrite newPlan_errs_nil in Hnil.
      destruct Hnil as (He & Hup & Hdown); [left|].
      apply Definition_errs_nil in He as [? ?]. rewrite <-Hid in Hbelow.
      split; [done|]. split; [done|]. split.
      * intros t Ht. destruct (Hup t Ht) as [? ?]. split; [done|]. by apply Hbelow.
      * intros t Ht. destruct (Hdown t Ht) as [? ?]. split; [done|]. by apply Hbelow.
    + apply (proj1 IH') with id0 l0; [|done..]. intros p Hp. apply Hnil. by right.
  - intros Hvalid p [->|Hp]%elem_of_cons.
    + destruct (Hvalid id l d) as (Hu & Hdn & Hup & Hdown); [left|done|done|].
      rewrite <-Hid in Hbelow.
      apply newPlan_errs_nil. split; [by apply Definition_errs_nil|]. split.
      * intros t Ht. destruct (Hup t Ht) as [? ?]. split; [done|]. by apply Hbelow.
      * intros t Ht. destruct (Hdown t Ht) as [? ?]. split; [done|]. by apply Hbelow.
    + apply (proj2 IH'); [|done]. intros id0 l0 d0 Hin. apply Hvalid. by right.
Qed.

Lemma concat_eq_nil {A} (ls : list (list A)) : concat ls = [] ↔ ∀ l, l ∈ ls → l = [].
Proof.
  induction ls as [|l ls IH]; simpl.
  { split; [by intros _ ? ?%elem_of_nil|done]. }
  split.
  - intros [-> Hls]%app_eq_nil l' [->|Hl']%elem_of_cons; [done|]. by apply IH.
  - intros Hall. rewrite (Hall l) by left. simpl. apply IH. intros l' Hl'. apply Hall.
    by right.
Qed.

(** X11.  [Schema.Err] reports no error exactly when no id was defined twice
    and every definition has its up and its down migration defined once
    and replays, if at all, a version that is defined and earlier than
    itself. *)
Theorem Err_nil_iff (h : heap) (s : Schema) :
  wf_defs h (definitions s) → plans s = None →
  ∃ s' es,
    Err h s = Some (s', es) ∧
    (es = [] ↔
     errs s = [] ∧
     ∀ id l d, definitions s !! id = Some l → h !! l = Some d →
       valid_definition (definitions s) d).
Proof.
  intros Hwf Hnone. destruct (compile_total h (definitions s) Hwf) as [ps Hps].
  unfold Err, complete. rewrite Hnone, Hps. simpl. eexists _, _. split; [done|].
  unfold compile in Hps. apply compile_loop_compiled in Hps as (new & -> & Hc).
  simpl. pose proof (sorted_ids_sorted (definitions s)) as Hsorted.
  pose proof (compiled_errs_nil h (definitions s) ∅ _ new Hwf Hc Hsorted) as Hiff.
  assert ((∀ p, p ∈ new → mp_errs p = []) ↔
          (∀ id l d, id ∈ sorted_ids (definitions s) → definitions s !! id = Some l →
             h !! l = Some d → valid_definition (definitions s) d)) as Hiff'.
  { apply Hiff.
    - intros t. rewrite lookup_empty. split; [by intros []|].
      intros (Hdef & Hnin & _). exfalso. by apply Hnin, elem_of_sorted_ids.
    - intros t Hdef. left. by apply elem_of_sorted_ids. }
  split.
  - intros [He Hc']%app_eq_nil. split; [done|]. intros id l d Hl Hd.
    apply (proj1 Hiff') with id l; [|by apply elem_of_sorted_ids; eexists|done|done].
    intros p Hp. apply (proj1 (concat_eq_nil _) Hc'). by apply list_elem_of_fmap_2.
  - intros [-> Hvalid]. simpl. apply concat_eq_nil.
    intros es (p & -> & Hp)%list_elem_of_fmap. apply (proj2 Hiff'); [|done].
    intros id l d _. apply Hvalid.
Qed.

Lemma findDriver_PackageNames pkgname d :
  pkgname ∈ PackageNames d → findDriver pkgname = Some d.
Proof.
  destruct d; simpl; intros ->%list_elem_of_singleton; reflexivity.
Qed.

Lemma findDriver_unknown pkgname :
  pkgname ∉ ["pq"; "sqlite3"; "mysql"] → findDriver pkgname = None.
Proof.
  intros Hnin. unfold findDriver, drivers, string_eqb. simpl.
  rewrite !bool_decide_eq_false_2; [done|..]; intros ->; apply Hnin.
  - do 2 right. left.
  - right. left.
  - left.
Qed.

(** X12.  [NewWorker] reports the errors of the schema before it looks at the
    database driver; for a schema without errors it fails only for a
    driver package other than pq, sqlite3 and mysql, and otherwise gives
    a worker for the completed schema with the driver of that package,
    of which only mysql runs commands outside transactions. *)
Theorem NewWorker_cases (h : heap) (s : Schema) :
  wf_schema h s →
  ∃ s' es,
    Err h s = Some (s', es) ∧
    (es ≠ [] → ∀ pkgname, NewWorker pkgname h s = Some (schema_errors es)) ∧
    (es = [] →
     (∀ pkgname,
        pkgname ∉ ["pq"; "sqlite3"; "mysql"] →
        NewWorker pkgname h s
        = Some (no_driver ("cannot find migration driver for " +:+ pkgname))) ∧
     (∀ pkgname d,
        pkgname ∈ PackageNames d →
        NewWorker pkgname h s = Some (worker (mkWorker s' d)) ∧
        worker_ok (mkWorker s' d) ∧
        definitions s' = definitions s ∧
        (SupportsTransactionalDDL d = false ↔ pkgname = "mysql"))).
Proof.
  intros Hwf. destruct (compile_total h (definitions s) (proj1 Hwf)) as [ps Hps].
  assert (∃ s', complete h s = Some s' ∧ definitions s' = definitions s) as (s' & Hc & Hdefs).
  { unfold complete. destruct (plans s); [by eexists|]. rewrite Hps. by eexists. }
  exists s', (errs s' ++ concat (mp_errs <$> default [] (plans s'))).
  unfold NewWorker, Err. rewrite Hc. simpl. split; [done|]. split.
  - intros Hne pkgname. by destruct (errs s' ++ concat (mp_errs <$> default [] (plans s'))).
  - intros He. rewrite He. split.
    + intros pkgname Hnin. by rewrite findDriver_unknown.
    + intros pkgname d Hd. rewrite (findDriver_PackageNames _ _ Hd).
      split; [done|]. split; [|split; [done|]].
      * apply (NewWorker_ok pkgname h s); [done|].
        unfold NewWorker, Err. rewrite Hc. simpl. rewrite He.
        by rewrite (findDriver_PackageNames _ _ Hd).
      * destruct d; simpl in *; apply list_elem_of_singleton in Hd as ->; split; done.
Qed.

(** X13.  Completing a schema caches its plans: once [Err] or [NewWorker] has
    completed it, later calls of [Up], [Down], [UpAction] and
    [DownAction] on its definitions, which change the store only, change
    neither the plans nor what [Err] and [NewWorker] report.  Only a
    further [Define] drops the plans. *)
Theorem complete_caches_plans (h : heap) (s s' : Schema) :
  complete h s = Some s' →
  is_Some (plans s') ∧
  (∀ h', complete h' s' = Some s' ∧ Err h' s' = Err h s' ∧
         ∀ pkgname, NewWorker pkgname h' s' = NewWorker pkgname h s') ∧
  (∀ id h', plans (Define id h' s').1.2 = None).
Proof.
  intros Hc.
  assert (is_Some (plans s')) as [ps Hps].
  { unfold complete in Hc. destruct (plans s) eqn:Hp.
    - injection Hc as <-. by rewrite Hp.
    - destruct (compile h (definitions s)); [|done]. injection Hc as <-. by eexists. }
  split; [by eexists|]. split.
  - assert (∀ h', complete h' s' = Some s') as Hcached.
    { intros h'. unfold complete. by rewrite Hps. }
    intros h'. split; [done|].
    assert (Err h' s' = Err h s') as HErr.
    { unfold Err. by rewrite !Hcached. }
    split; [done|]. intros pkgname. unfold NewWorker. by rewrite HErr.
  - intros id h'. unfold Define. by destruct (definitions s' !! id).
Qed.

(** ** The command line: version arguments ([parseVersion]) *)

Lemma uint_of_string_digits c s d :
  NilZero.uint_of_string (String c s) = Some d →
  Ascii.eqb c "+"%char = false ∧ Ascii.eqb c "-"%char = false.
Proof.
  simpl. destruct (NilEmpty.uint_of_string s) as [d'|]; [|done].
  intros H. apply uint_of_char_spec in H.
  destruct H as [[-> _]|[[-> _]|[[-> _]|[[-> _]|[[-> _]|[[-> _]|[[-> _]|[[-> _]|[[-> _]|[-> _]]]]]]]]]];
    done.
Qed.

Lemma ParseInt_digits d :
  d ≠ Decimal.Nil →
  ParseInt (NilZero.string_of_uint d) =
  if 2 ^ 63 <=? Z.of_uint d then None else Some (Z.of_uint d).
Proof.
  intros Hd. pose proof (NilZero.usu d Hd) as Husu.
  destruct (NilZero.string_of_uint d) as [|c s] eqn:Hs; [done|].
  destruct (uint_of_string_digits c s d Husu) as [Hplus Hminus].
  unfold ParseInt. rewrite Hplus, Hminus, Husu. done.
Qed.

Lemma to_int_nonneg n :
  0 ≤ n → ∃ d, Z.to_int n = Decimal.Pos d ∧ d ≠ Decimal.Nil ∧ Z.of_uint d = n.
Proof.
  intros Hn. pose proof (DecimalZ.of_to n) as Hof.
  destruct n as [|p|p]; [| |lia].
  - by exists (Decimal.D0 Decimal.Nil).
  - exists (Pos.to_uint p). split; [done|]. split; [|exact Hof].
    apply DecimalPos.Unsigned.to_uint_nonnil.
Qed.

Lemma to_int_neg n :
  n < 0 → ∃ d, Z.to_int n = Decimal.Neg d ∧ d ≠ Decimal.Nil ∧ Z.of_uint d = - n.
Proof.
  intros Hn. pose proof (DecimalZ.of_to n) as Hof.
  destruct n as [|p|p]; [lia|lia|].
  exists (Pos.to_uint p). split; [done|]. split.
  - apply DecimalPos.Unsigned.to_uint_nonnil.
  - simpl in Hof. simpl. lia.
Qed.

(** X14.  [parseVersion] reads back what ["%d"] prints: the rendering of a
    number of the non-negative half of [int64] is accepted and gives the
    number; the rendering of a negative one is refused as negative, with
    the number in the message. *)
Theorem parseVersion_round_trip (n : Z) :
  - 2 ^ 63 ≤ n < 2 ^ 63 →
  parseVersion (fmt_d n) =
  if n <? 0
  then Raise ("database schema version cannot be negative: " +:+ fmt_d n)
  else Ok n.
Proof.
  intros Hn. unfold parseVersion.
  assert (ParseInt (fmt_d n) = Some n) as ->; [|done].
  unfold fmt_d. destruct (Z.lt_ge_cases n 0) as [Hneg|Hpos].
  - destruct (to_int_neg n Hneg) as (d & -> & Hd & Hof).
    pose proof (NilZero.usu d Hd) as Husu.
    unfold NilZero.string_of_int, ParseInt. simpl Ascii.eqb. cbv iota. rewrite Husu. simpl.
    rewrite Hof. destruct (Z.ltb_spec (2 ^ 63) (- n)); [lia|]. f_equal. lia.
  - destruct (to_int_nonneg n Hpos) as (d & -> & Hd & Hof).
    unfold NilZero.string_of_int. rewrite (ParseInt_digits d Hd), Hof.
    destruct (Z.leb_spec (2 ^ 63) n); [lia|done].
Qed.

(** X15.  [parseVersion] gives a version between 0 and the largest [int64],
    or one of its two errors: it never hands a negative id or an id that
    has wrapped around to the worker. *)
Theorem parseVersion_result (s : string) :
  (∃ n, parseVersion s = Ok n ∧ 0 ≤ n < 2 ^ 63) ∨
  parseVersion s = Raise ("invalid database schema version: " +:+ s) ∨
  (∃ n, - 2 ^ 63 ≤ n < 0 ∧
        parseVersion s
        = Raise ("database schema version cannot be negative: " +:+ fmt_d n)).
Proof.
  unfold parseVersion. destruct (ParseInt s) as [n|] eqn:Hp; [|by right; left].
  assert (- 2 ^ 63 ≤ n < 2 ^ 63) as Hrange.
  { unfold ParseInt in Hp. destruct s as [|c s']; [done|].
    destruct (if Ascii.eqb c "+"%char then (false, s')
              else if Ascii.eqb c "-"%char then (true, s') else (false, String c s'))
      as [neg digits].
    destruct (NilZero.uint_of_string digits) as [un|]; [|done]. simpl in Hp.
    assert (0 ≤ Z.of_uint un) as Hnn.
    { unfold Z.of_uint. lia. }
    destruct neg.
    - destruct (Z.ltb_spec (2 ^ 63) (Z.of_uint un)); [done|]. injection Hp as <-. lia.
    - destruct (Z.leb_spec (2 ^ 63) (Z.of_uint un)); [done|]. injection Hp as <-. lia. }
  destruct (Z.ltb_spec n 0).
  - right. right. exists n. split; [lia|done].
  - left. exists n. split; [done|lia].
Qed.

(** ** The command line: the versions listed ([listCommand]) *)

Lemma list_start_skip (l : list Version) k n :
  (∀ j v, (k ≤ j < k + n)%nat → l !! j = Some v → Locked v = false) →
  list_start l (k + n) = list_start l k.
Proof.
  induction n as [|n IH]; intros H.
  - by rewrite Nat.add_0_r.
  - rewrite Nat.add_succ_r. simpl. destruct (l !! (k + n)%nat) as [v|] eqn:Hv.
    + rewrite (H (k + n)%nat v) by (lia || done). apply IH. intros j w Hj. apply H. lia.
    + apply IH. intros j w Hj. apply H. lia.
Qed.

Lemma list_vcopy_all start i l : (start ≤ i)%nat → list_vcopy start i l = l.
Proof.
  revert i. induction l as [|v l IH]; intros i Hi; simpl; [done|].
  rewrite bool_decide_eq_true_2 by done. simpl. f_equal. apply IH. lia.
Qed.

Lemma elem_of_list_vcopy start i l v :
  v ∈ list_vcopy start i l ↔
  ∃ k, l !! k = Some v ∧ ((start ≤ i + k)%nat ∨ AppliedAt v = None).
Proof.
  revert i. induction l as [|a l IH]; intros i; simpl.
  { split; [by intros ?%elem_of_nil|by intros (k & ? & _)]. }
  assert ((∃ k, (a :: l) !! k = Some v ∧ ((start ≤ i + k)%nat ∨ AppliedAt v = None)) ↔
          (v = a ∧ ((start ≤ i)%nat ∨ AppliedAt a = None)) ∨
          (∃ k, l !! k = Some v ∧ ((start ≤ S i + k)%nat ∨ AppliedAt v = None))) as ->.
  { split.
    - intros ([|k] & Hk & Hc); simpl in Hk.
      + injection Hk as ->. left. split; [done|]. by rewrite Nat.add_0_r in Hc.
      + right. exists k. split; [done|]. destruct Hc; [left; lia|by right].
    - intros [[-> Hc]|(k & Hk & Hc)].
      + exists 0%nat. split; [done|]. by rewrite Nat.add_0_r.
      + exists (S k). split; [done|]. destruct Hc; [left; lia|by right]. }
  rewrite <-IH.
  destruct (bool_decide (start ≤ i)%nat) eqn:Hs; simpl.
  - apply bool_decide_eq_true in Hs. rewrite elem_of_cons. split.
    + intros [->|?]; [left; split; [done|by left]|by right].
    + intros [[-> _]|?]; [by left|by right].
  - apply bool_decide_eq_false in Hs. destruct (AppliedAt a) eqn:Ha.
    + split; [by right|]. intros [[_ [?|?]]|?]; done.
    + rewrite elem_of_cons. split.
      * intros [->|?]; [left; split; [done|by right]|by right].
      * intros [[-> _]|?]; [by left|by right].
Qed.

Lemma list_vcopy_sorted (R : relation Version) start i l :
  StronglySorted R l → StronglySorted R (list_vcopy start i l).
Proof.
  intros Hl. revert i. induction Hl as [|a l Hl IH Ha]; intros i; simpl; [constructor|].
  destruct (bool_decide (start ≤ i)%nat
            || match AppliedAt a with None => true | Some _ => false end); [|apply IH].
  constructor; [apply IH|]. rewrite Forall_forall in Ha. apply Forall_forall.
  intros v (k & Hk & _)%elem_of_list_vcopy. apply Ha. by apply list_elem_of_lookup_2 in Hk.
Qed.

(** X16.  What [list] shows of the versions that [Versions] returns.  With
    [--all], every version.  Without it: every version when no row is
    locked; otherwise, [L] being the highest locked version, the versions
    from [L] on and, of those below [L], the ones that are not applied,
    in ascending order of id. *)
Theorem list_shows_back_to_last_lock (m : Worker) (st : State) :
  worker_ok m →
  ∃ vs,
    Worker_Versions m st = (Ok vs, after_init st) ∧
    list_shown true vs = vs ∧
    ((∀ i r, tbl st !! i = Some r → locked r = false) → list_shown false vs = vs) ∧
    (∀ L r,
       tbl st !! L = Some r → locked r = true →
       (∀ i r', tbl st !! i = Some r' → locked r' = true → i ≤ L) →
       StronglySorted (λ v w, ID v < ID w) (list_shown false vs) ∧
       ∀ v, v ∈ list_shown false vs ↔ v ∈ vs ∧ (L ≤ ID v ∨ tbl st !! ID v = None)).
Proof.
  intros Hm. destruct (Worker_Versions_eq m st Hm) as (vs & Hvs & Hso).
  exists (versions vs). split; [done|]. split; [done|].
  assert (∀ v, v ∈ versions vs →
            (AppliedAt v = None ↔ tbl st !! ID v = None) ∧
            (Locked v = true → ∃ r, tbl st !! ID v = Some r ∧ locked r = true)) as Hfacts.
  { intros v Hv. apply (elem_of_versions _ _ _ Hso) in Hv as [(r & Hr & Hv)|(p & Hp & Hnone & ->)].
    - destruct (decorate_fields (schema_plans m) (scan_row (ID v, r)))
        as (_ & Ha & _ & Hl). rewrite <-Hv in Ha, Hl. rewrite Ha, Hl, Hr. simpl.
      split; [done|]. intros Hlk. by exists r.
    - simpl. split; [done|done]. }
  split.
  - intros Hnolock. unfold list_shown.
    rewrite <-(Nat.add_0_l (length (versions vs))), list_start_skip.
    + simpl. by apply list_vcopy_all.
    + intros j v _ Hj. apply list_elem_of_lookup_2 in Hj.
      destruct (Locked v) eqn:Hlk; [|done].
      destruct (proj2 (Hfacts v Hj) Hlk) as (r & Hr & Hlr). by rewrite (Hnolock _ _ Hr) in Hlr.
  - intros L r Hr Hlk Hhigh. unfold list_shown.
    split; [apply list_vcopy_sorted, (so_sorted _ _ _ Hso)|].
    destruct (versions_row _ _ _ Hso _ _ Hr) as (Hin & _ & _).
    set (v0 := decorate (schema_plans m) (scan_row (L, r))) in *.
    assert (ID v0 = L) as HID by apply decorate_ID.
    assert (Locked v0 = true) as HL0.
    { unfold v0. by destruct (decorate_fields (schema_plans m) (scan_row (L, r)))
        as (_ & _ & _ & ->). }
    pose proof (so_sorted _ _ _ Hso) as Hsorted.
    apply list_elem_of_split in Hin as (l1 & l2 & Hsplit).
    rewrite Hsplit in Hsorted, Hfacts |- *.
    apply StronglySorted_app in Hsorted as (Hlow & _ & Hhi).
    apply StronglySorted_inv in Hhi as [_ Hhi]. rewrite Forall_forall in Hhi.
    assert (list_start (l1 ++ v0 :: l2) (length (l1 ++ v0 :: l2)) = length l1) as ->.
    { rewrite length_app. simpl. rewrite <-Nat.add_succ_comm, list_start_skip.
      - simpl. by rewrite list_lookup_middle, HL0.
      - intros j w Hj Hw.
        rewrite lookup_app_r in Hw by lia.
        destruct (j - length l1)%nat as [|j'] eqn:Hjj; [lia|]. simpl in Hw.
        apply list_elem_of_lookup_2 in Hw.
        destruct (Locked w) eqn:Hlw; [|done].
        destruct (proj2 (Hfacts w ltac:(apply elem_of_app; right; by right)) Hlw)
          as (r' & Hr' & Hlr').
        specialize (Hhigh _ _ Hr' Hlr'). specialize (Hhi w Hw). unfold asc in Hhi. lia. }
    intros v. rewrite elem_of_list_vcopy. split.
    + intros (k & Hk & Hc). pose proof (list_elem_of_lookup_2 _ _ _ Hk) as Hv.
      split; [done|]. destruct Hc as [Hc|Hc]; [left|right; by apply (Hfacts v Hv)].
      rewrite lookup_app_r in Hk by lia.
      apply list_elem_of_lookup_2 in Hk. apply elem_of_cons in Hk as [->|Hk]; [lia|].
      specialize (Hhi v Hk). unfold asc in Hhi. lia.
    + intros [Hv Hc]. pose proof Hv as Hv'.
      apply list_elem_of_lookup_1 in Hv as (k & Hk). exists k. split; [done|].
      destruct Hc as [Hc|Hc]; [|right; by apply (Hfacts v Hv')].
      left. simpl. destruct (decide (length l1 ≤ k)%nat) as [|Hlt]; [done|].
      rewrite lookup_app_l in Hk by lia. apply list_elem_of_lookup_2 in Hk.
      specialize (Hlow v v0 Hk ltac:(left)). unfold asc in Hlow. lia.
Qed.

(** ** No nil dereference

    The source reads through pointers that would be nil for a key
    missing from a map or a version missing from a slice
    ([vs.vmap[applied.id].Locked], [version.Locked], [ver.Up = ...],
    [*ver.AppliedAt]).  None of them is nil for a worker that [NewWorker]
    has made. *)

Lemma upOne_no_panic m st : worker_ok m → (upOne m st).1 ≠ Panic.
Proof.
  intros Hm. destruct (failed_dec (tbl st)) as [Hf|Hf].
  { by rewrite (upOne_failed m st Hm Hf). }
  rewrite (upOne_eq m st Hm Hf). unfold upOne_result.
  destruct (unapplied_of (tbl st) (schema_plans m)) as [|p rest]; [done|].
  destruct (chosen_effect (mp_up p) (data st)) as [d [e|]];
    by destruct (in_tx (drv m) (mp_up p)).
Qed.

Lemma downOne_no_panic m st : worker_ok m → (downOne m st).1 ≠ Panic.
Proof.
  intros Hm. destruct (failed_dec (tbl st)) as [Hf|Hf].
  { by rewrite (downOne_failed m st Hm Hf). }
  rewrite (downOne_eq m st Hm Hf). unfold downOne_result.
  destruct (reverse (applied_of (tbl st) (schema_plans m))) as [|p rest] eqn:HA; [done|].
  assert (p ∈ applied_of (tbl st) (schema_plans m)) as Hp.
  { rewrite <-elem_of_reverse, HA. left. }
  apply list_elem_of_filter in Hp as [[r Hr] _]. rewrite Hr.
  destruct (locked r); [done|].
  by destruct (chosen_effect (mp_down p) (data st)) as [d [e|]].
Qed.

Lemma gotoOne_no_panic m id st : worker_ok m → (gotoOne m id st).1 ≠ Panic.
Proof.
  intros Hm. destruct (failed_dec (tbl st)) as [Hf|Hf].
  { by rewrite (gotoOne_failed m id st Hm Hf). }
  unfold gotoOne. unfold bind at 1. rewrite (goto_counts_eq m id st Hm Hf).
  destruct (first_locked (tbl st) id (reverse (applied_of (tbl st) (schema_plans m))));
    [done|].
  pose proof (downOne_no_panic m st Hm) as Hdown.
  pose proof (upOne_no_panic m st Hm) as Hup.
  repeat case_bool_decide; try done; unfold bind;
    by destruct (downOne m st) as [[?|?|] ?], (upOne m st) as [[?|?|] ?].
Qed.

Lemma step_loop_no_panic m fuel step msg st r st' :
  worker_ok m → (∀ s, (step s).1 ≠ Panic) →
  step_loop m fuel step msg st = Some (r, st') → r ≠ Panic.
Proof.
  intros Hm Hstep. revert st. induction fuel as [|fuel IH]; intros st; simpl; [done|].
  pose proof (Hstep st) as Hs. destruct (step st) as [[[]|e|] s]; simpl in Hs.
  - apply IH.
  - destruct (finished_eq m msg s Hm) as (args & ->). by intros [= <- _].
  - by intros [= <- _].
  - done.
Qed.

Lemma lockHelper_no_panic m id verb lock st :
  worker_ok m → (lockHelper m id verb lock st).1 ≠ Panic.
Proof.
  intros Hm. destruct (definitions (schema m) !! id) as [l|] eqn:Hdef.
  2:{ unfold lockHelper. unfold bind at 1. by rewrite checkVersion_undefined. }
  pose proof (mk_is_Some _ _ Hdef) as Hdef'.
  destruct (failed_dec (tbl st)) as [Hf|Hf].
  { by rewrite lockHelper_failed. }
  destruct (tbl st !! id) as [r|] eqn:Hr.
  - apply (worker_ok_defined m id Hm) in Hdef'.
    apply list_elem_of_fmap in Hdef' as (p & Hid & Hp).
    by rewrite (lockHelper_ok m id verb lock st p Hm Hf Hp (eq_sym Hid) (mk_is_Some _ _ Hr)).
  - by rewrite lockHelper_unapplied.
Qed.

Lemma Worker_Force_no_panic m id st : worker_ok m → (Worker_Force m id st).1 ≠ Panic.
Proof.
  intros Hm. pose proof (worker_ok_sorted m Hm) as Hps.
  destruct (getVersionSummaryAllowFailed_ok m (after_init st) Hm) as (vs & Hvs & Hso).
  change (tbl (after_init st)) with (tbl st) in Hso.
  unfold Worker_Force.
  assert ((if id =? 0 then ret () else checkVersion m id) st = (Ok (), st) ∨
          ∃ e, (if id =? 0 then ret () else checkVersion m id) st = (Raise e, st))
    as [Hchk|(e & Hchk)].
  { destruct (id =? 0); [by left|]. unfold checkVersion.
    destruct (definitions (schema m) !! id); [by left|right; by eexists]. }
  2:{ unfold bind at 1. by rewrite Hchk. }
  rewrite (bind_ok _ _ st () st Hchk).
  rewrite (bind_ok _ _ st () (after_init st)) by apply init_eq.
  unfold bind at 1. unfold transact. rewrite (bind_ok _ _ _ _ _ Hvs).
  unfold bind at 1. unfold lift. rewrite (checkLocked_eq _ _ _ id Hso).
  destruct (first_locked (tbl st) id (reverse (applied_of (tbl st) (schema_plans m))));
    [done|].
  unfold bind at 1.
  destruct ((if id =? 0 then ret ()
             else if existsb (λ plan, mp_id plan =? id) (applied vs) then ret ()
                  else raise ("cannot force unapplied version id=" +:+ fmt_d id))
              (after_init st)) as [[[]|e|] s] eqn:Hfound.
  - assert (s = after_init st) as ->.
    { destruct (id =? 0); [by injection Hfound|].
      destruct (existsb _ (applied vs)); [by injection Hfound|done]. }
    destruct (force_loop_spec (vmap vs) id (applied vs) (after_init st))
      as (st1 & -> & _).
    { rewrite (so_applied _ _ _ Hso), reverse_Permutation. by apply applied_of_NoDup. }
    { intros p Hp. rewrite (so_applied _ _ _ Hso), elem_of_reverse in Hp.
      apply list_elem_of_filter in Hp as [[r Hr] Hp].
      destruct (versions_row _ _ _ Hso _ _ Hr) as (_ & Hv & _).
      eexists _, r. split; [exact Hv|]. rewrite decorate_ID.
      destruct (decorate_fields (schema_plans m) (scan_row (mp_id p, r))) as (_ & _ & -> & _).
      done. }
    by destruct (finished_eq m "database schema version forced" st1 Hm) as (args & ->).
  - done.
  - destruct (id =? 0); [done|]. by destruct (existsb _ (applied vs)).
Qed.

(** X17.  No operation of a worker that [NewWorker] has made ends in a
    run-time panic, whatever the table holds and whatever id it is
    given: each returns normally or returns an error. *)
Theorem worker_never_panics (m : Worker) (st : State) :
  worker_ok m →
  (∀ fuel r st', Worker_Up m fuel st = Some (r, st') → r ≠ Panic) ∧
  (∀ fuel r st', Worker_Down m fuel st = Some (r, st') → r ≠ Panic) ∧
  (∀ id fuel r st', Worker_Goto m id fuel st = Some (r, st') → r ≠ Panic) ∧
  (∀ id, (Worker_Force m id st).1 ≠ Panic) ∧
  (∀ id, (Worker_Lock m id st).1 ≠ Panic) ∧
  (∀ id, (Worker_Unlock m id st).1 ≠ Panic) ∧
  (∀ id, (Worker_Version m id st).1 ≠ Panic) ∧
  (Worker_Versions m st).1 ≠ Panic.
Proof.
  intros Hm. repeat split.
  - intros fuel r st'. unfold Worker_Up, then_loop. rewrite init_eq.
    apply step_loop_no_panic; [done|]. intros s. by apply upOne_no_panic.
  - intros fuel r st'. unfold Worker_Down, then_loop. rewrite init_eq.
    apply step_loop_no_panic; [done|]. intros s. by apply downOne_no_panic.
  - intros id fuel r st'. unfold Worker_Goto, then_loop.
    destruct (((if id =? 0 then ret () else checkVersion m id);; init) st)
      as [[[]|e|] s] eqn:Hfirst.
    + apply step_loop_no_panic; [done|]. intros s'. by apply gotoOne_no_panic.
    + by intros [= <- _].
    + exfalso. revert Hfirst. unfold bind. destruct (id =? 0).
      * unfold ret. by rewrite init_eq.
      * unfold checkVersion. destruct (definitions (schema m) !! id); [|done].
        unfold ret. by rewrite init_eq.
  - intros id. by apply Worker_Force_no_panic.
  - intros id. by apply lockHelper_no_panic.
  - intros id. by apply lockHelper_no_panic.
  - intros id. destruct (definitions (schema m) !! id) as [l|] eqn:Hdef.
    + destruct (Worker_Version_eq m id st Hm (mk_is_Some _ _ Hdef)) as (v & -> & _). done.
    + unfold Worker_Version. unfold bind at 1. by rewrite checkVersion_undefined.
  - by destruct (Worker_Versions_eq m st Hm) as (vs & -> & _).
Qed.

(** ** The message of a list of errors ([Errors.Error]) *)

Lemma plain_spec c :
  plain c = true → (RuneSelf <=? nat_of_ascii c)%nat = false ∧ asciiSpace c = false.
Proof.
  unfold plain. intros [H1 H2]%andb_prop. split.
  - apply Nat.leb_gt. by apply Nat.ltb_lt.
  - by apply negb_true_iff.
Qed.

Lemma trim_start_plain c s : plain c = true → trim_start (String c s) = (String c s, false).
Proof.
  intros [H1 H2]%plain_spec.
  change (trim_start (String c s))
    with (if (RuneSelf <=? nat_of_ascii c)%nat then (String c s, true)
          else if asciiSpace c then trim_start s else (String c s, false)).
  by rewrite H1, H2.
Qed.

Lemma trim_stop_cons c s :
  trim_stop (String c s) =
  match trim_stop s with
  | (EmptyString, _) =>
      if (RuneSelf <=? nat_of_ascii c)%nat then (String c EmptyString, true)
      else if asciiSpace c then (EmptyString, false)
      else (String c EmptyString, false)
  | (r, b) => (String c r, b)
  end.
Proof. reflexivity. Qed.

Lemma trim_stop_plain s c :
  last_byte s = Some c → plain c = true → trim_stop s = (s, false).
Proof.
  intros Hl [H1 H2]%plain_spec. induction s as [|a s IH]; [done|].
  destruct s as [|b s].
  - injection Hl as ->. rewrite trim_stop_cons. cbn [trim_stop]. by rewrite H1, H2.
  - rewrite trim_stop_cons, IH; done.
Qed.

Lemma TrimSpace_plain f g s c1 c2 :
  first_byte s = Some c1 → plain c1 = true →
  last_byte s = Some c2 → plain c2 = true →
  TrimSpace f g s = s.
Proof.
  intros Hf H1 Hl H2. unfold TrimSpace. destruct s as [|a s]; [done|].
  injection Hf as ->. rewrite (trim_start_plain _ _ H1).
  by rewrite (trim_stop_plain _ _ Hl H2).
Qed.

Lemma append_cons a x y : String a x +:+ y = String a (x +:+ y).
Proof. reflexivity. Qed.

Lemma last_byte_Some_nonempty s c : last_byte s = Some c → s ≠ EmptyString.
Proof. by destruct s. Qed.

Lemma last_byte_app x y : y ≠ EmptyString → last_byte (x +:+ y) = last_byte y.
Proof.
  intros Hy. induction x as [|a x IH]; [done|].
  rewrite append_cons. destruct (x +:+ y) as [|b z] eqn:Hxy.
  - destruct x; [done|discriminate].
  - exact IH.
Qed.

Lemma append_nonempty x y : y ≠ EmptyString → x +:+ y ≠ EmptyString.
Proof. intros Hy. destruct x; [done|discriminate]. Qed.

Lemma first_byte_app x y c : first_byte x = Some c → first_byte (x +:+ y) = Some c.
Proof. by destruct x. Qed.

Lemma uint_first d :
  d ≠ Decimal.Nil →
  ∃ c, first_byte (NilEmpty.string_of_uint d) = Some c ∧ plain c = true.
Proof. destruct d; [done|..]; intros _; eexists; split; reflexivity. Qed.

Lemma uint_last d :
  d ≠ Decimal.Nil →
  ∃ c, last_byte (NilEmpty.string_of_uint d) = Some c ∧ plain c = true.
Proof.
  induction d as [|d IH|d IH|d IH|d IH|d IH|d IH|d IH|d IH|d IH|d IH]; [done|..];
    intros _;
    (assert (d = Decimal.Nil ∨ d ≠ Decimal.Nil) as [->|Hd]
       by (clear; destruct d; [by left|right; discriminate..]);
     [eexists; split; reflexivity|
      destruct (IH Hd) as (c & Hc & Hp); exists c; split; [|done];
      simpl; by destruct (NilEmpty.string_of_uint d)]).
Qed.

Lemma NilZero_string_of_uint_nonnil d :
  d ≠ Decimal.Nil → NilZero.string_of_uint d = NilEmpty.string_of_uint d.
Proof. by destruct d. Qed.

Lemma fmt_d_first z : ∃ c, first_byte (fmt_d z) = Some c ∧ plain c = true.
Proof.
  unfold fmt_d. destruct z as [|p|p]; simpl.
  - eexists. split; reflexivity.
  - rewrite NilZero_string_of_uint_nonnil by apply Unsigned.to_uint_nonnil.
    apply uint_first, Unsigned.to_uint_nonnil.
  - eexists. split; reflexivity.
Qed.

Lemma fmt_d_last z : ∃ c, last_byte (fmt_d z) = Some c ∧ plain c = true.
Proof.
  unfold fmt_d. destruct z as [|p|p]; simpl.
  - eexists. split; reflexivity.
  - rewrite NilZero_string_of_uint_nonnil by apply Unsigned.to_uint_nonnil.
    apply uint_last, Unsigned.to_uint_nonnil.
  - rewrite NilZero_string_of_uint_nonnil by apply Unsigned.to_uint_nonnil.
    destruct (uint_last (Pos.to_uint p) (Unsigned.to_uint_nonnil p)) as (c & Hc & Hp).
    exists c. split; [|done]. by destruct (NilEmpty.string_of_uint (Pos.to_uint p)).
Qed.

Lemma Error_Error_first e : ∃ c, first_byte (Error_Error e) = Some c ∧ plain c = true.
Proof.
  destruct (fmt_d_first (e_Version e)) as (c & Hc & Hp). exists c. split; [|done].
  by apply first_byte_app.
Qed.

Lemma Error_Error_last e c :
  last_byte (e_Description e) = Some c → last_byte (Error_Error e) = Some c.
Proof.
  intros Hc. pose proof (last_byte_Some_nonempty _ _ Hc) as Hne. unfold Error_Error.
  rewrite last_byte_app.
  - by rewrite last_byte_app.
  - by destruct (e_Description e).
Qed.

Lemma Join_cons_cons x y l sep :
  Join (x :: y :: l) sep = x +:+ sep +:+ Join (y :: l) sep.
Proof. reflexivity. Qed.

Lemma Join_first e es :
  ∃ c, first_byte (Join (Error_Error <$> e :: es) newline) = Some c ∧ plain c = true.
Proof.
  destruct (Error_Error_first e) as (c & Hc & Hp). exists c. split; [|done].
  destruct es as [|e' es]; [done|].
  rewrite !fmap_cons, Join_cons_cons. by apply first_byte_app.
Qed.

Lemma Join_last es e c :
  last es = Some e → last_byte (e_Description e) = Some c →
  last_byte (Join (Error_Error <$> es) newline) = Some c.
Proof.
  intros Hlast Hc. induction es as [|x es IH]; [done|].
  destruct es as [|y es].
  - injection Hlast as ->. by apply Error_Error_last.
  - rewrite !fmap_cons, Join_cons_cons. specialize (IH Hlast).
    rewrite fmap_cons in IH. pose proof (last_byte_Some_nonempty _ _ IH) as Hne.
    rewrite last_byte_app.
    + by rewrite last_byte_app.
    + by destruct (Join (Error_Error y :: (Error_Error <$> es)) newline).
Qed.

Lemma Errors_Error_lines_aux (f g : string → string) (es : Errors) :
  Errors_Error f g [] = EmptyString ∧
  ∀ e c,
    last es = Some e → last_byte (e_Description e) = Some c → plain c = true →
    Errors_Error f g es = Join (Error_Error <$> es) newline.
Proof.
  split; [done|]. intros e c Hlast Hc Hp. unfold Errors_Error.
  destruct es as [|x es]; [done|].
  destruct (Join_first x es) as (c1 & Hc1 & Hp1).
  apply (TrimSpace_plain _ _ _ c1 c); [done|done| |done].
  by apply (Join_last (x :: es) e c).
Qed.

(** X18.  The message of a list of errors is one line per error, in order,
    each made of the version, a colon with a space, and the description:
    the empty string for no error, and nothing trimmed away when the last
    description ends in an ASCII character that is not a space. *)
Theorem Errors_Error_lines (TrimFunc_IsSpace TrimRightFunc_IsSpace : string → string)
    (es : Errors) :
  Errors_Error TrimFunc_IsSpace TrimRightFunc_IsSpace [] = EmptyString ∧
  ∀ e c,
    last es = Some e → last_byte (e_Description e) = Some c → plain c = true →
    Errors_Error TrimFunc_IsSpace TrimRightFunc_IsSpace es
    = Join (Error_Error <$> es) newline.
Proof. apply Errors_Error_lines_aux. Qed.

Lemma Definition_errs_plain d e :
  e ∈ Definition_errs d → ∃ c, last_byte (e_Description e) = Some c ∧ plain c = true.
Proof.
  unfold Definition_errs. rewrite !elem_of_app.
  intros [He|[He|[He|He]]]; revert He;
    repeat match goal with |- context [if ?b then _ else _] => destruct b end;
    try (by intros ?%elem_of_nil); intros ->%list_elem_of_singleton; cbn [e_Description];
    try (eexists; split; reflexivity);
    (exists "s"%char; split; [|reflexivity]);
    rewrite last_byte_app by (by apply append_nonempty);
    by rewrite last_byte_app.
Qed.

Lemma resolve_replay_plain pid pm a es :
  (∀ e, e ∈ es → ∃ c, last_byte (e_Description e) = Some c ∧ plain c = true) →
  ∀ e, e ∈ (resolve_replay pid pm a es).2 →
       ∃ c, last_byte (e_Description e) = Some c ∧ plain c = true.
Proof.
  intros Hes e. unfold resolve_replay. destruct (replayUp a) as [t|]; [|apply Hes].
  destruct (pid <=? t); cbn [snd].
  { intros [?|He]%elem_of_app; [by apply Hes|].
    apply list_elem_of_singleton in He as ->. eexists. split; reflexivity. }
  destruct (pm !! t); cbn [snd]; [apply Hes|].
  intros [?|He]%elem_of_app; [by apply Hes|].
  apply list_elem_of_singleton in He as ->. cbn [e_Description].
  destruct (fmt_d_last t) as (c & Hc & Hp). exists c. split; [|done].
  rewrite last_byte_app; [done|]. by apply last_byte_Some_nonempty in Hc.
Qed.

Lemma newPlan_plain d pm e :
  e ∈ mp_errs (newPlan d pm) → ∃ c, last_byte (e_Description e) = Some c ∧ plain c = true.
Proof.
  unfold newPlan.
  pose proof (resolve_replay_plain (d_id d) pm (apply_opt (upAction d)) (Definition_errs d)
                (Definition_errs_plain d)) as H1.
  destruct (resolve_replay (d_id d) pm (apply_opt (upAction d)) (Definition_errs d))
    as [up es1].
  pose proof (resolve_replay_plain (d_id d) pm (apply_opt (downAction d)) es1 H1) as H2.
  destruct (resolve_replay (d_id d) pm (apply_opt (downAction d)) es1) as [down es2].
  apply H2.
Qed.

Lemma elem_of_concat {A} (x : A) (ls : list (list A)) :
  x ∈ concat ls → ∃ l, x ∈ l ∧ l ∈ ls.
Proof.
  induction ls as [|l ls IH]; simpl; [by intros ?%elem_of_nil|].
  intros [Hx|Hx]%elem_of_app.
  - exists l. split; [done|left].
  - destruct (IH Hx) as (l' & ? & ?). exists l'. split; [done|by right].
Qed.

Lemma compiled_plain h defs pm ids new :
  compiled h defs pm ids new →
  ∀ p e, p ∈ new → e ∈ mp_errs p →
         ∃ c, last_byte (e_Description e) = Some c ∧ plain c = true.
Proof.
  induction 1 as [pm|pm id ids l d new Hl Hd Hc IH]; intros p e Hp He.
  { by apply elem_of_nil in Hp. }
  apply elem_of_cons in Hp as [->|Hp]; [by apply (newPlan_plain d pm)|by apply (IH p)].
Qed.

(** X19.  The message of what [Schema.Err] reports, for a schema filled by
    [Define] alone, is exactly one line per error, each made of the
    version, a colon with a space, and the description. *)
Theorem Err_message_lines (TrimFunc_IsSpace TrimRightFunc_IsSpace : string → string)
    (h : heap) (s s' : Schema) (es : Errors) :
  plans s = None →
  (∀ e, e ∈ errs s → e_Description e = "defined more than once") →
  Err h s = Some (s', es) →
  Errors_Error TrimFunc_IsSpace TrimRightFunc_IsSpace es
  = Join (Error_Error <$> es) newline.
Proof.
  intros Hnone Herrs HErr. unfold Err, complete in HErr. rewrite Hnone in HErr.
  destruct (compile h (definitions s)) as [ps|] eqn:Hps; [|done].
  simpl in HErr. injection HErr as <- <-. simpl.
  unfold compile in Hps. apply compile_loop_compiled in Hps as (new & -> & Hc). simpl.
  assert (∀ e, e ∈ errs s ++ concat (mp_errs <$> new) →
               ∃ c, last_byte (e_Description e) = Some c ∧ plain c = true) as Hall.
  { intros e [He|He]%elem_of_app.
    - rewrite (Herrs e He). eexists. split; reflexivity.
    - apply elem_of_concat in He as (l & He & Hl).
      apply list_elem_of_fmap in Hl as (p & -> & Hp).
      by apply (compiled_plain _ _ _ _ _ Hc p). }
  destruct (last (errs s ++ concat (mp_errs <$> new))) as [e|] eqn:Hlast.
  - destruct (Hall e) as (c & Hc' & Hp).
    { by apply last_Some_elem_of. }
    by apply (proj2 (Errors_Error_lines_aux TrimFunc_IsSpace TrimRightFunc_IsSpace _) e c).
  - apply last_None in Hlast. rewrite Hlast. done.
Qed.

(** ** Defining a version ([Schema.Define], [Definition.UpAction],
       [Definition.DownAction]) *)

Lemma compiled_plan_of h defs pm ids new :
  compiled h defs pm ids new →
  ∀ p, p ∈ new →
    ∃ id l d pm', defs !! id = Some l ∧ h !! l = Some d ∧ p = newPlan d pm'.
Proof.
  induction 1 as [pm|pm id ids l d new Hl Hd Hc IH]; intros p Hp.
  { by apply elem_of_nil in Hp. }
  apply elem_of_cons in Hp as [->|Hp]; [|by apply IH].
  by exists id, l, d, pm.
Qed.

(** X20.  A version defined under a fresh id and given one up and one down
    action, neither of them a replay, compiles to a plan that holds these
    two actions and has no errors: the command for [Up] and [Down], the
    function for a [DBFunc] or a [TxFunc].  [Define] itself adds no error
    and drops the cached plans. *)
Theorem Define_then_actions_compiles (h : heap) (s : Schema) (id : VersionID)
    (a b : Action) :
  wf_schema h s → definitions s !! id = None →
  (∀ t, a ≠ Replay t) → (∀ t, b ≠ Replay t) →
  ∃ h1 s1 l,
    Define id h s = (h1, s1, l) ∧
    errs s1 = errs s ∧ plans s1 = None ∧ definitions s1 = <[id := l]> (definitions s) ∧
    ∃ ps p,
      compile (Definition_DownAction (Some b) l (Definition_UpAction (Some a) l h1))
        (definitions s1) = Some ps ∧
      lookup_plan id ps = Some p ∧
      mp_up p = run_Action a zero_action ∧
      mp_down p = run_Action b zero_action ∧
      mp_errs p = [].
Proof.
  intros Hwf Hfresh Ha Hb.
  pose proof (wf_schema_Define id h s Hwf) as Hwf1. unfold Define in *. rewrite Hfresh in *.
  simpl in Hwf1.
  set (h1 := h ++ [newDefinition id]) in *. set (l := length h) in *.
  set (s1 := mkSchema (MigrationsTable s) (<[id:=l]> (definitions s)) None (errs s)) in *.
  exists h1, s1, l. split; [done|]. split; [done|]. split; [done|]. split; [done|].
  set (h2 := Definition_DownAction (Some b) l (Definition_UpAction (Some a) l h1)).
  assert (wf_schema h2 s1) as [Hwf2 _].
  { apply (wf_schema_run_call l (call_DownAction (Some b))).
    by apply (wf_schema_run_call l (call_UpAction (Some a))). }
  set (d := set_down (Some b) (set_up (Some a) (newDefinition id))).
  assert (h2 !! l = Some d) as Hd.
  { unfold h2, Definition_DownAction, Definition_UpAction.
    rewrite !list_lookup_alter_eq. unfold h1, l. by rewrite lookup_app_r, Nat.sub_diag. }
  destruct (compile_total h2 (definitions s1) Hwf2) as [ps Hps].
  pose proof (compile_ids _ _ _ Hwf2 Hps) as Hids.
  pose proof (compile_NoDup _ _ _ Hwf2 Hps) as Hnd.
  assert (id ∈ mp_id <$> ps) as Hin.
  { rewrite Hids. apply elem_of_sorted_ids. simpl. rewrite lookup_insert_eq. by eexists. }
  apply list_elem_of_fmap in Hin as (p & Hid & Hp).
  exists ps, p. split; [done|]. split; [by apply lookup_plan_elem_of|].
  unfold compile in Hps. apply compile_loop_compiled in Hps as (new & Hnew & Hc).
  simpl in Hnew. subst new.
  destruct (compiled_plan_of _ _ _ _ _ Hc p Hp) as (i & l' & d' & pm' & Hl' & Hd' & ->).
  destruct (wf_defs_lookup _ _ _ _ Hwf2 Hl') as (d'' & Hd'' & Hi). rewrite Hd' in Hd''.
  injection Hd'' as <-. rewrite newPlan_id in Hid. rewrite Hi in Hid. subst i.
  simpl in Hl'. rewrite lookup_insert_eq in Hl'. injection Hl' as <-.
  rewrite Hd in Hd'. injection Hd' as <-.
  split; [|split].
  - rewrite newPlan_up. rewrite resolve_replay_keep; [done|].
    apply apply_opt_no_replay. intros t [= ->]. by apply (Ha t).
  - destruct (newPlan_down d pm') as (es & ->). rewrite resolve_replay_keep; [done|].
    apply apply_opt_no_replay. intros t [= ->]. by apply (Hb t).
  - apply newPlan_errs_nil. split; [done|].
    split; intros t [= ->]; [by destruct (Ha t)|by destruct (Hb t)].
Qed.

End Migration.

Arguments Command {Data} s.
Arguments Replay {Data} id.
Arguments DBFunc {Data} f.
Arguments TxFunc {Data} f.
Arguments empty_Schema {Data}.
Arguments Define {Data} id h s.
Arguments Definition_Up {Data} s l h.
Arguments Definition_Down {Data} s l h.
Arguments Definition_UpAction {Data} a l h.
Arguments Definition_DownAction {Data} a l h.
Arguments mkState {Data} tbl data ticks logs initCalled.
Arguments Ok {A} a.
Arguments Raise {A} e.
Arguments Panic {A}.
Arguments mkAction {Data} sql dbFunc txFunc replayUp.
Arguments mkPlan {Data} mp_id mp_up mp_down mp_errs.
Arguments mkSchema {Data} MigrationsTable definitions plans errs.
Arguments mkWorker {Data} schema drv.
Arguments mkEnv {Data} exec_sql time_Parse clock duplicate_key.
Arguments worker {Data} w.
Arguments call_Up {Data} s.
Arguments call_Down {Data} s.
Arguments call_UpAction {Data} a.
Arguments call_DownAction {Data} a.
Arguments sql {Data} a.
Arguments replayUp {Data} a.
Arguments mp_id {Data} m.
Arguments mp_up {Data} m.
Arguments mp_down {Data} m.
Arguments mp_errs {Data} m.
Arguments plans {Data} s.
Arguments errs {Data} s.
Arguments definitions {Data} s.
Arguments schema {Data} w.
Arguments tbl {Data} s.
Arguments data {Data} s.
Arguments logs {Data} s.
Arguments ticks {Data} s.
Arguments complete {Data} h s.
Arguments compile {Data} h defs.
Arguments Err {Data} h s.
Arguments NewWorker {Data} pkgname h s.
Arguments lookup_plan {Data} id ps.
Arguments run_calls {Data} l cs h.
Arguments wf_defs {Data} h defs.
Arguments wf_schema {Data} h s.
Arguments worker_ok {Data} m.
Arguments schema_plans {Data} m.
Arguments applied {Data} v.
Arguments unapplied {Data} v.
Arguments versions {Data} v.
Arguments vmap {Data} v.

(** * Examples *)

(** ** The surroundings of the examples *)

(** The data is the list of the commands and functions that have run. *)
Definition journal : Type := list string.

(** A command is recorded in the journal; the command ["FAIL"] fails. *)
Definition journal_sql (s : string) : effect journal :=
  λ d, if bool_decide (s = "FAIL") then (d, Some "syntax error") else (d ++ [s], None).

(** A Go function that fails half-way: it leaves a mark and an error. *)
Definition broken_func : effect journal := λ d, (d ++ ["half done"], Some "boom").

Definition good_func (name : string) : effect journal := λ d, (d ++ [name], None).

(** [time.Parse] on the strings of [TestTimeVal], with the instants the
    test expects. *)
Definition test_Parse (layout value : string) : option Time :=
  if bool_decide (layout = sqlite_layout) then
    if bool_decide (value = "2099-12-31 23:59:59+10:00")
    then Some (mkTime 4102408799 0 (FixedZone 36000))
    else if bool_decide (value = "2199-12-31 23:59:59+00:00")
    then Some (mkTime 7258118399 0 UTC)
    else None
  else if bool_decide (layout = RFC3339) then
    if bool_decide (value = "2099-12-31T23:59:59Z")
    then Some (mkTime 4102444799 0 UTC)
    else if bool_decide (value = "2099-12-31T23:59:59+10:00")
    then Some (mkTime 4102408799 0 (FixedZone 36000))
    else None
  else None.

(** A clock that advances by one second at each reading. *)
Definition test_clock (n : nat) : Time := mkTime (1000 + Z.of_nat n) 0 Local.

Definition test_env : Env journal :=
  mkEnv journal_sql test_Parse test_clock "UNIQUE constraint failed".

Ltac by_computation := vm_compute; reflexivity.

Ltac wf_by_computation :=
  split; [apply (bool_decide_unpack _); vm_compute; exact I | intros ? [=]].

(** ** The schema of TestSchemaReplay *)

Definition replay_schema : list (Defn journal) * Schema journal :=
  let '(h, s, l) := Define 1 [] empty_Schema in
  let h := Definition_Down "drop view v1;" l (Definition_Up "create view v1;" l h) in
  let '(h, s, l) := Define 2 h s in
  let h := Definition_DownAction (Some (Replay 1)) l (Definition_Up "drop view v1;" l h) in
  let '(h, s, l) := Define 3 h s in
  let h := Definition_Down "drop view v1;" l (Definition_UpAction (Some (Replay 1)) l h) in
  let '(h, s, l) := Define 4 h s in
  let h := Definition_DownAction (Some (Replay 1)) l (Definition_Up "drop view v1;" l h) in
  let '(h, s, l) := Define 5 h s in
  let h := Definition_Down "drop view v1;" l (Definition_UpAction (Some (Replay 3)) l h) in
  (h, s).

Definition replay_completed : Schema journal :=
  default empty_Schema (complete replay_schema.1 replay_schema.2).

Lemma replay_schema_wf : wf_schema replay_schema.1 replay_schema.2.
Proof. wf_by_computation. Qed.

(** The compiled plans of TestSchemaReplay: version 5, which replays
    version 3, which replays version 1, holds the command of version 1
    and no replay tag. *)
Lemma replay_resolved_witness :
  ∃ p5 : migrationPlan journal,
    lookup_plan 5 (default [] (plans replay_completed)) = Some p5 ∧
    mp_up p5 = mkAction "create view v1;" None None None.
Proof.
  destruct (replay_resolved_at_compile journal replay_schema.1 replay_schema.2
              replay_completed) as (ps & Hps & _ & _ & _ & Hchain).
  - apply replay_schema_wf.
  - reflexivity.
  - by_computation.
  - rewrite Hps. simpl.
    destruct (Hchain 1 3 5 0%nat 2%nat 4%nat
                (mkDefinition journal 1 (Some (Command "create view v1;")) 1
                   (Some (Command "drop view v1;")) 1)
                (mkDefinition journal 3 (Some (Replay 1)) 1
                   (Some (Command "drop view v1;")) 1)
                (mkDefinition journal 5 (Some (Replay 3)) 1
                   (Some (Command "drop view v1;")) 1)) as (pc & Hpc & Hup);
      try by_computation; try done.
    exists pc. by split.
Defined.

(** ** A second definition of version 1 *)

Definition twice_schema : list (Defn journal) * Schema journal :=
  let '(h, s, l) := Define 1 [] empty_Schema in
  (Definition_Down "drop table t1;" l (Definition_Up "create table t1;" l h), s).

Lemma twice_schema_wf : wf_schema twice_schema.1 twice_schema.2.
Proof. wf_by_computation. Qed.

(** Version 1 defined a second time, and the returned definition given an
    up and a down action: the registry reports the one error, and the
    plans are those of the first definition. *)
Lemma Define_twice_witness :
  ∃ h' s' l',
    Define 1 twice_schema.1 twice_schema.2 = (h', s', l') ∧
    errs s' = [mkError 1 "defined more than once"] ∧
    compile (run_calls l' [call_Up "other"; call_Down "thing"] h') (definitions s')
      = compile twice_schema.1 (definitions twice_schema.2) ∧
    Err (run_calls l' [call_Up "other"; call_Down "thing"] h') s' = Err h' s'.
Proof.
  destruct (Define_twice_detached journal twice_schema.1 twice_schema.2 1 0%nat)
    as (h' & s' & l' & HD & Herrs & _ & _ & _ & _ & Hcalls).
  - apply twice_schema_wf.
  - by_computation.
  - exists h', s', l'. split; [done|]. split; [done|].
    destruct (Hcalls [call_Up "other"; call_Down "thing"]) as (_ & Hc & _ & HE). by split.
Defined.

(** ** The values of TestTimeVal *)

Lemma Scan_forgiving_witness :
  tv_Time (Scan journal test_env VNil).1 = mkTime 0 0 UTC ∧
  tv_Time (Scan journal test_env (VTime (mkTime 4102444799 0 UTC))).1
    = mkTime 4102444799 0 UTC ∧
  tv_Time (Scan journal test_env (VString "2099-12-31T23:59:59Z")).1
    = mkTime 4102444799 0 UTC ∧
  tv_Time (Scan journal test_env (VString "2099-12-31T23:59:59+10:00")).1
    = mkTime 4102408799 0 (FixedZone 36000) ∧
  tv_Time (Scan journal test_env (VString "2099-12-31 23:59:59+10:00")).1
    = mkTime 4102408799 0 (FixedZone 36000) ∧
  tv_Time (Scan journal test_env (VString "2199-12-31 23:59:59+00:00")).1
    = mkTime 7258118399 0 UTC ∧
  tv_Time (Scan journal test_env (VInt64 1000000000)).1 = mkTime 1000000000 0 UTC ∧
  tv_Time (Scan journal test_env (VString "INVALID")).1 = mkTime 0 0 UTC ∧
  (Scan journal test_env (VString "INVALID")).2 = None.
Proof.
  destruct (Scan_forgiving journal test_env)
    as (Hnil & Htime & Hint & Hsqlite & Hrfc & _ & Hepoch & Hbad & _).
  split; [exact Hepoch|]. split; [apply Htime|].
  split; [apply Hrfc; by_computation|]. split; [apply Hrfc; by_computation|].
  split; [apply Hsqlite; by_computation|]. split; [apply Hsqlite; by_computation|].
  split; [apply Hint|]. split; [apply Hbad; by_computation|]. apply Hnil.
Defined.

(** ** The schema of TestWorker *)

Definition worker_schema : list (Defn journal) * Schema journal :=
  let '(h, s, l) := Define 10 [] empty_Schema in
  let h := Definition_Down "drop table t1;" l (Definition_Up "create table t1;" l h) in
  let '(h, s, l) := Define 20 h s in
  let h := Definition_Down "drop table t2;" l (Definition_Up "create table t2;" l h) in
  (h, s).

Lemma worker_schema_wf : wf_schema worker_schema.1 worker_schema.2.
Proof. wf_by_computation. Qed.

Definition test_worker : Worker journal :=
  match NewWorker "sqlite3" worker_schema.1 worker_schema.2 with
  | Some (worker w) => w
  | _ => mkWorker empty_Schema sqlite
  end.

Lemma test_worker_ok : worker_ok test_worker.
Proof.
  apply (NewWorker_ok journal "sqlite3" worker_schema.1 worker_schema.2).
  - apply worker_schema_wf.
  - by_computation.
Qed.

(** A table in which version 10 is applied and version 20 is not. *)
Definition half_applied : State journal :=
  mkState {[ 10 := mkRow (VInt64 1000000000) false false ]} ["create table t1;"] 0 [] true.

Lemma summary_shape_witness :
  ∃ vs,
    getVersionSummaryAllowFailed journal test_env test_worker half_applied
      = (Ok vs, half_applied) ∧
    StronglySorted (λ p q, mp_id q < mp_id p) (applied vs) ∧
    StronglySorted (λ p q, mp_id p < mp_id q) (unapplied vs) ∧
    StronglySorted (λ v w, ID v < ID w) (versions vs) ∧
    (∀ p, p ∈ applied vs ↔
       p ∈ schema_plans test_worker ∧ is_Some (tbl half_applied !! mp_id p)) ∧
    (∀ p, p ∈ unapplied vs ↔
       p ∈ schema_plans test_worker ∧ tbl half_applied !! mp_id p = None) ∧
    persisted <$> versions vs ≡ₚ
      (row_content journal test_env <$> map_to_list (tbl half_applied))
      ++ (placeholder_content journal <$> unapplied vs).
Proof. exact (summary_shape journal test_env test_worker half_applied test_worker_ok). Defined.

Arguments Worker_Up {Data} env m fuel _.
Arguments Worker_Down {Data} env m fuel _.
Arguments Worker_Goto {Data} env m id fuel _.
Arguments Worker_Lock {Data} env m id _.
Arguments Worker_Unlock {Data} env m id _.
Arguments Worker_Force {Data} env m id _.
Arguments Worker_Version {Data} env m id _.
Arguments Worker_Versions {Data} env m _.
Arguments gotoOne {Data} env m id _.
Arguments goto_counts {Data} env m id _.
Arguments after_init {Data} st.
Arguments run_ups {Data} env ps d.
Arguments run_downs {Data} env ps d.
Arguments up_message {Data} p.
Arguments down_message {Data} p.
Arguments monotone_clock {Data} env.
Arguments actions_succeed {Data} env id ps.

Lemma test_clock_monotone : monotone_clock test_env.
Proof. intros i j Hij. unfold time_le. simpl. lia. Qed.

(** ** [Up], [Down] and [Goto] on the schema of TestWorker *)

Definition empty_state : State journal := mkState ∅ [] 0 [] false.

Definition state_of (r : option (res () * State journal)) : State journal :=
  match r with
  | Some (_, st) => st
  | None => empty_state
  end.

(** The state after [Up] on the empty table: versions 10 and 20 applied. *)
Definition up_state : State journal := state_of (Worker_Up test_env test_worker 3 empty_state).

Lemma Up_from_empty_witness :
  Worker_Up test_env test_worker 3 empty_state = Some (Ok (), up_state) ∧
  dom (tbl up_state) = list_to_set (mp_id <$> schema_plans test_worker) ∧
  (∀ i r, tbl up_state !! i = Some r → failed r = false ∧ locked r = false) ∧
  (∀ i j ri rj,
     tbl up_state !! i = Some ri → tbl up_state !! j = Some rj → i < j →
     ∃ ti tj, applied_at ri = VTime ti ∧ applied_at rj = VTime tj ∧ time_le ti tj) ∧
  data up_state = run_ups test_env (schema_plans test_worker) (data empty_state) ∧
  ∃ args,
    logs up_state
    = logs empty_state ++ (up_message <$> schema_plans test_worker) ++ [args].
Proof.
  assert (Worker_Up test_env test_worker 3 empty_state = Some (Ok (), up_state)) as Hup
    by by_computation.
  split; [exact Hup|].
  exact (proj2 (Up_from_empty journal test_env test_worker 3 empty_state
                  test_worker_ok test_clock_monotone eq_refl) up_state Hup).
Defined.

(** Version 10 locked in the fully applied table. *)
Definition locked_state : State journal := (Worker_Lock test_env test_worker 10 up_state).2.

Definition down_state : State journal :=
  state_of (Worker_Down test_env test_worker 3 locked_state).

(** [Down] with version 10 locked: version 20 goes, version 10 stays. *)
Lemma Down_from_full_witness :
  Worker_Down test_env test_worker 3 locked_state = Some (Ok (), down_state) ∧
  dom (tbl down_state) = {[ 10 ]} ∧
  ∃ keep gone tail,
    schema_plans test_worker = keep ++ gone ∧
    (∀ p, p ∈ gone → ∃ r, tbl locked_state !! mp_id p = Some r ∧ locked r = false) ∧
    ((keep = [] ∧ ∃ args, tail = [args]) ∨
     (∃ p r args,
        last keep = Some p ∧ tbl locked_state !! mp_id p = Some r ∧ locked r = true ∧
        tail = [["locked version=" +:+ fmt_d (mp_id p)]; args])) ∧
    (∀ i r, tbl locked_state !! i = Some r → locked r = true →
       ∃ p, last keep = Some p ∧ i ≤ mp_id p) ∧
    (∀ i, tbl down_state !! i
          = if decide (i ∈ mp_id <$> keep) then tbl locked_state !! i else None) ∧
    ((∀ i r, tbl locked_state !! i = Some r → locked r = false) → tbl down_state = ∅) ∧
    data down_state = run_downs test_env (reverse gone) (data locked_state) ∧
    logs down_state = logs locked_state ++ (down_message <$> reverse gone) ++ tail.
Proof.
  assert (Worker_Down test_env test_worker 3 locked_state = Some (Ok (), down_state)) as Hdown
    by by_computation.
  split; [exact Hdown|]. split; [by_computation|].
  refine (proj2 (Down_from_full journal test_env test_worker 3 locked_state
                   test_worker_ok _) down_state Hdown).
  by_computation.
Defined.

(** [Goto 10] from the fully applied table, and [Goto 10] again. *)
Definition goto_state : State journal :=
  state_of (Worker_Goto test_env test_worker 10 3 up_state).

Lemma Goto_twice_witness :
  Worker_Goto test_env test_worker 10 3 up_state = Some (Ok (), goto_state) ∧
  goto_counts test_env test_worker 10 goto_state = (Ok (0, 0)%nat, goto_state) ∧
  gotoOne test_env test_worker 10 goto_state = (Ok false, goto_state) ∧
  ∀ fuel', ∃ st'',
    Worker_Goto test_env test_worker 10 (S fuel') goto_state = Some (Ok (), st'') ∧
    tbl st'' = tbl goto_state ∧ data st'' = data goto_state ∧ ticks st'' = ticks goto_state.
Proof.
  assert (Worker_Goto test_env test_worker 10 3 up_state = Some (Ok (), goto_state)) as Hgoto
    by by_computation.
  split; [exact Hgoto|].
  exact (Goto_twice journal test_env test_worker 10 3 up_state goto_state
           test_worker_ok Hgoto).
Defined.

(** ** A failed row *)

(** Version 10 applied and marked failed, as a failed step outside a
    transaction leaves it. *)
Definition failed_state : State journal :=
  mkState {[ 10 := mkRow (VTime (test_clock 0)) true false ]} ["half done"] 1 [] true.

Lemma failed_gate_witness :
  Worker_Up test_env test_worker 3 failed_state
    = Some (Raise "previously failed", after_init failed_state) ∧
  Worker_Down test_env test_worker 3 failed_state
    = Some (Raise "previously failed", after_init failed_state) ∧
  Worker_Goto test_env test_worker 20 3 failed_state
    = Some (Raise "previously failed", after_init failed_state) ∧
  Worker_Lock test_env test_worker 10 failed_state
    = (Raise "previously failed", after_init failed_state) ∧
  Worker_Unlock test_env test_worker 10 failed_state
    = (Raise "previously failed", after_init failed_state) ∧
  (∃ vs, Worker_Versions test_env test_worker failed_state = (Ok vs, after_init failed_state)) ∧
  (∃ v, Worker_Version test_env test_worker 10 failed_state = (Ok v, after_init failed_state)
        ∧ ID v = 10) ∧
  (∃ st', Worker_Force test_env test_worker 10 failed_state = (Ok (), st')).
Proof.
  assert (some_failed (tbl failed_state)) as Hfailed.
  { exists 10, (mkRow (VTime (test_clock 0)) true false). split; by_computation. }
  assert (is_Some (definitions (schema test_worker) !! 10)) as H10.
  { exists 0%nat. by_computation. }
  assert (is_Some (definitions (schema test_worker) !! 20)) as H20.
  { exists 1%nat. by_computation. }
  destruct (failed_gate journal test_env test_worker failed_state test_worker_ok Hfailed)
    as (HUp & HDown & HGoto & HLock & _ & HVersions & HVersion & HForce).
  split; [apply HUp|]. split; [apply HDown|]. split; [apply HGoto; by right|].
  split; [by apply HLock|]. split; [by apply HLock|]. split; [exact HVersions|].
  split; [by apply HVersion|]. apply HForce.
  - right. split; [done|]. eexists. by_computation.
  - by_computation.
Defined.

(** ** Locks on a schema of three versions *)

Definition three_schema : list (Defn journal) * Schema journal :=
  let '(h, s, l) := Define 10 [] empty_Schema in
  let h := Definition_Down "drop table t1;" l (Definition_Up "create table t1;" l h) in
  let '(h, s, l) := Define 20 h s in
  let h := Definition_Down "drop table t2;" l (Definition_Up "create table t2;" l h) in
  let '(h, s, l) := Define 30 h s in
  let h := Definition_Down "drop table t3;" l (Definition_Up "create table t3;" l h) in
  (h, s).

Lemma three_schema_wf : wf_schema three_schema.1 three_schema.2.
Proof. wf_by_computation. Qed.

Definition three_worker : Worker journal :=
  match NewWorker "sqlite3" three_schema.1 three_schema.2 with
  | Some (worker w) => w
  | _ => mkWorker empty_Schema sqlite
  end.

Lemma three_worker_ok : worker_ok three_worker.
Proof.
  apply (NewWorker_ok journal "sqlite3" three_schema.1 three_schema.2).
  - apply three_schema_wf.
  - by_computation.
Qed.

Definition plan_of (id : Z) (up down : string) : migrationPlan journal :=
  mkPlan id (mkAction up None None None) (mkAction down None None None) [].

Lemma three_worker_plans :
  schema_plans three_worker =
  [plan_of 10 "create table t1;" "drop table t1;";
   plan_of 20 "create table t2;" "drop table t2;";
   plan_of 30 "create table t3;" "drop table t3;"].
Proof. by_computation. Qed.

Lemma three_actions_succeed id : actions_succeed test_env id (schema_plans three_worker).
Proof.
  intros q d Hq. rewrite three_worker_plans in Hq.
  repeat (apply elem_of_cons in Hq as [->|Hq]); try (by apply elem_of_nil in Hq);
    split; intros _; reflexivity.
Qed.

(** The three versions applied. *)
Definition three_applied (lock20 lock30 : bool) : State journal :=
  mkState
    {[ 10 := mkRow (VTime (test_clock 0)) false false;
       20 := mkRow (VTime (test_clock 1)) false lock20;
       30 := mkRow (VTime (test_clock 2)) false lock30 ]}
    ["create table t1;"; "create table t2;"; "create table t3;"] 3 [] true.

(** C4, on an instance.  Version 20 locked, version 30 not: [Goto 10] is
    refused in the name of version 20, and goes through once version 20 is
    unlocked. *)
Lemma Goto_below_highest_lock_witness :
  Worker_Goto test_env three_worker 10 4 (three_applied true false)
    = Some (Raise "database schema version locked id=20",
            after_init (three_applied true false)) ∧
  ∃ st1,
    Worker_Unlock test_env three_worker 20 (three_applied true false) = (Ok (), st1) ∧
    ∃ st2,
      Worker_Goto test_env three_worker 10 4 st1 = Some (Ok (), st2) ∧
      ∀ q, q ∈ schema_plans three_worker → is_Some (tbl st2 !! mp_id q) ↔ mp_id q ≤ 10.
Proof.
  destruct (Goto_below_highest_lock journal test_env three_worker 10 20
              (three_applied true false)
              (plan_of 20 "create table t2;" "drop table t2;")
              (mkRow (VTime (test_clock 1)) false true))
    as (Hrefused & st1 & Hunlock & _ & _ & Hgoto).
  - apply three_worker_ok.
  - intros i r Hr. unfold three_applied in Hr. cbn [tbl] in Hr.
    apply lookup_insert_Some in Hr as [[_ <-]|[_ Hr]]; [done|].
    apply lookup_insert_Some in Hr as [[_ <-]|[_ Hr]]; [done|].
    by apply lookup_singleton_Some in Hr as [_ <-].
  - right. exists 0%nat. by_computation.
  - rewrite three_worker_plans. right. left.
  - reflexivity.
  - by_computation.
  - reflexivity.
  - lia.
  - intros q r' Hq Hlt Hr. rewrite three_worker_plans in Hq.
    repeat (apply elem_of_cons in Hq as [->|Hq]); try (by apply elem_of_nil in Hq);
      simpl in Hlt; try lia.
    vm_compute in Hr. by injection Hr as <-.
  - split; [apply Hrefused|]. exists st1. split; [exact Hunlock|].
    apply Hgoto.
    + intros q r' Hq Hlt Hne Hr. rewrite three_worker_plans in Hq.
      repeat (apply elem_of_cons in Hq as [->|Hq]); try (by apply elem_of_nil in Hq);
        simpl in Hlt, Hne; try lia.
      vm_compute in Hr. by injection Hr as <-.
    + apply three_actions_succeed.
    + rewrite three_worker_plans. simpl. lia.
Defined.

(** C4 as worded fails when two versions above the target are locked.
    With versions 20 and 30 both locked, [Goto 10] names version 30, not
    the locked version 20; and once version 20 is unlocked, the same
    [Goto 10] is still refused, in the name of version 30. *)
Lemma Goto_names_the_highest_lock :
  locked <$> tbl (three_applied true true) !! 20 = Some true ∧
  Worker_Goto test_env three_worker 10 4 (three_applied true true)
    = Some (Raise "database schema version locked id=30",
            after_init (three_applied true true)) ∧
  (Worker_Unlock test_env three_worker 20 (three_applied true true)).1 = Ok () ∧
  (Worker_Goto test_env three_worker 10 4
     (Worker_Unlock test_env three_worker 20 (three_applied true true)).2)
    = Some (Raise "database schema version locked id=30",
            (Worker_Unlock test_env three_worker 20 (three_applied true true)).2).
Proof. repeat split; by_computation. Qed.

(** ** A down action that fails outside a transaction *)

Definition broken_schema : list (Defn journal) * Schema journal :=
  let '(h, s, l) := Define 1 [] empty_Schema in
  (Definition_DownAction (Some (DBFunc broken_func)) l
     (Definition_UpAction (Some (DBFunc broken_func)) l h), s).

Definition broken_worker : Worker journal :=
  match NewWorker "sqlite3" broken_schema.1 broken_schema.2 with
  | Some (worker w) => w
  | _ => mkWorker empty_Schema sqlite
  end.

(** Version 1 applied, not failed. *)
Definition one_applied : State journal :=
  mkState {[ 1 := mkRow (VTime (test_clock 0)) false false ]} ["insert"] 1 [] true.

(** C2 (the two-phase protocol of a step outside a transaction).  The
    up step inserts the row with [failed = true] before it runs its
    function, so a failing function leaves the row marked and the next
    [Up] is refused.  The down step, under the comment "mark version as
    failed", calls [SetVersionFailed] with [false]: a failing function
    leaves the row with [failed = false] and the work half done, and the
    next [Down] runs the function again instead of being refused. *)
Lemma failed_down_is_not_marked :
  (∃ st',
     Worker_Up test_env broken_worker 3 empty_state = Some (Raise "1: boom", st') ∧
     failed <$> tbl st' !! 1 = Some true ∧
     Worker_Up test_env broken_worker 3 st' = Some (Raise "previously failed", st')) ∧
  (∃ st',
     Worker_Down test_env broken_worker 3 one_applied = Some (Raise "1: boom", st') ∧
     failed <$> tbl st' !! 1 = Some false ∧
     data st' = ["insert"; "half done"] ∧
     ∃ st'',
       Worker_Down test_env broken_worker 3 st' = Some (Raise "1: boom", st'') ∧
       data st'' = ["insert"; "half done"; "half done"]).
Proof.
  split.
  - eexists. split; [by_computation|]. split; by_computation.
  - eexists. split; [by_computation|]. split; [by_computation|]. split; [by_computation|].
    eexists. split; by_computation.
Qed.

(** * Examples for the further properties *)

Arguments ups_succeed {Data} env ps d.
Arguments downs_succeed {Data} env ps d.
Arguments forced {Data} id ps t i.
Arguments force_log {Data} t id p.
Arguments unlocked_above {Data} id t ps.
Arguments unapplied_of {Data} t ps.
Arguments applied_of {Data} t ps.
Arguments in_tx {Data} d a.
Arguments chosen_effect {Data} env a _.
Arguments valid_definition {Data} defs d.
Arguments render {Data} a.
Arguments drv {Data} w.

Ltac no_failed_by_computation :=
  apply (bool_decide_unpack (map_Forall (λ _ r, failed r = false) _)); vm_compute; exact I.

Ltac each_plan H :=
  repeat (apply elem_of_cons in H as [->|H]); try (by apply elem_of_nil in H).

Lemma test_worker_plans :
  schema_plans test_worker =
  [plan_of 10 "create table t1;" "drop table t1;";
   plan_of 20 "create table t2;" "drop table t2;"].
Proof. by_computation. Qed.

Lemma test_worker_defined_10 : is_Some (definitions (schema test_worker) !! 10).
Proof. exists 0%nat. by_computation. Qed.

Lemma test_worker_defined_20 : is_Some (definitions (schema test_worker) !! 20).
Proof. exists 1%nat. by_computation. Qed.

(** ** Locking *)

(** Version 10 of the fully applied table is locked, locked again and
    unlocked. *)
Lemma Lock_Unlock_round_trip_witness :
  ∃ st1 st2 st3,
    Worker_Lock test_env test_worker 10 up_state = (Ok (), st1) ∧
    tbl st1 = <[10 := mkRow (VTime (test_clock 0)) false true]> (tbl up_state) ∧
    Worker_Lock test_env test_worker 10 st1 = (Ok (), st2) ∧
    tbl st2 = tbl st1 ∧
    Worker_Unlock test_env test_worker 10 st1 = (Ok (), st3) ∧
    tbl st3 = tbl up_state.
Proof.
  destruct (Lock_Unlock_round_trip journal test_env test_worker up_state
              (plan_of 10 "create table t1;" "drop table t1;")
              (mkRow (VTime (test_clock 0)) false false))
    as (st1 & st2 & st3 & H1 & Ht1 & _ & _ & H2 & Ht2 & H3 & _ & _ & _ & Hback).
  - apply test_worker_ok.
  - no_failed_by_computation.
  - rewrite test_worker_plans. left.
  - by_computation.
  - exists st1, st2, st3. repeat split; try assumption. by apply Hback.
Defined.

(** Version 20 is defined and not applied. *)
Lemma Lock_unapplied_refused_witness :
  Worker_Lock test_env test_worker 20 half_applied
    = (Raise "cannot lock unapplied version id=20", after_init half_applied) ∧
  Worker_Unlock test_env test_worker 20 half_applied
    = (Raise "cannot unlock unapplied version id=20", after_init half_applied).
Proof.
  apply (Lock_unapplied_refused journal test_env test_worker 20 half_applied).
  - apply test_worker_ok.
  - no_failed_by_computation.
  - apply test_worker_defined_20.
  - by_computation.
Defined.

(** ** The details of a version *)

(** Version 10 has a row, whose applied_at is an integer; version 20 has
    none. *)
Lemma Version_of_plan_witness :
  Worker_Version test_env test_worker 10 half_applied
    = (Ok (mkVersion 10 (Some (mkTime 1000000000 0 UTC)) false false
             "create table t1;" "drop table t1;"),
       after_init half_applied) ∧
  Worker_Version test_env test_worker 20 half_applied
    = (Ok (mkVersion 20 None false false "create table t2;" "drop table t2;"),
       after_init half_applied).
Proof.
  split.
  - apply (Version_of_plan journal test_env test_worker half_applied
             (plan_of 10 "create table t1;" "drop table t1;")).
    + apply test_worker_ok.
    + rewrite test_worker_plans. left.
  - apply (Version_of_plan journal test_env test_worker half_applied
             (plan_of 20 "create table t2;" "drop table t2;")).
    + apply test_worker_ok.
    + rewrite test_worker_plans. right. left.
Defined.

(** ** Forcing *)

(** Both versions applied and marked failed. *)
Definition failed_both : State journal :=
  mkState
    {[ 10 := mkRow (VTime (test_clock 0)) true false;
       20 := mkRow (VTime (test_clock 1)) true false ]}
    ["half done"] 2 [] true.

(** [Force 10] deletes the row of version 20 and clears the mark of
    version 10; the data is not touched. *)
Lemma Force_clears_witness :
  ∃ st' args,
    Worker_Force test_env test_worker 10 failed_both = (Ok (), st') ∧
    data st' = ["half done"] ∧
    tbl st' !! 10 = Some (mkRow (VTime (test_clock 0)) false false) ∧
    tbl st' !! 20 = None ∧
    logs st' = [["deleted database schema version id=20"];
                ["cleared database schema version failure id=10"]; args] ∧
    no_failed (tbl st').
Proof.
  destruct (Force_clears journal test_env test_worker 10 failed_both)
    as (st' & args & HF & Hd & Ht & Hl & Hnf).
  - apply test_worker_ok.
  - right. split; [apply test_worker_defined_10|]. eexists. by_computation.
  - intros q r Hq Hlt Hr. rewrite test_worker_plans in Hq. each_plan Hq.
    + simpl in Hlt. lia.
    + vm_compute in Hr. by injection Hr as <-.
  - exists st', args. split; [exact HF|]. split; [exact Hd|].
    split; [rewrite Ht; by_computation|]. split; [rewrite Ht; by_computation|].
    split; [exact Hl|]. apply Hnf.
    intros i r Hr _. rewrite test_worker_plans.
    unfold failed_both in Hr. cbn [tbl] in Hr.
    apply lookup_insert_Some in Hr as [[<- _]|[_ Hr]]; [left|].
    apply lookup_singleton_Some in Hr as [<- _]. right. left.
Defined.

(** [Force] of an id that is not defined, of a version below the locked
    version 10, and of the unapplied version 20. *)
Lemma Force_refused_witness :
  Worker_Force test_env test_worker 3 half_applied
    = (Raise "invalid schema version id=3", half_applied) ∧
  Worker_Force test_env test_worker 0 locked_state
    = (Raise "database schema version locked id=10", after_init locked_state) ∧
  Worker_Force test_env test_worker 20 half_applied
    = (Raise "cannot force unapplied version id=20", after_init half_applied).
Proof.
  split; [|split].
  - apply (Force_refused journal test_env test_worker 3 half_applied test_worker_ok);
      [lia|by_computation].
  - apply (proj1 (proj2 (Force_refused journal test_env test_worker 0 locked_state
                           test_worker_ok))
             (plan_of 10 "create table t1;" "drop table t1;")
             (mkRow (VTime (test_clock 0)) false true)).
    + by left.
    + rewrite test_worker_plans. left.
    + by_computation.
    + reflexivity.
    + simpl. lia.
    + intros q r' Hq Hlt Hr. rewrite test_worker_plans in Hq. each_plan Hq.
      * simpl in Hlt. lia.
      * vm_compute in Hr. by injection Hr as <-.
  - apply (proj2 (proj2 (Force_refused journal test_env test_worker 20 half_applied
                           test_worker_ok))).
    + apply test_worker_defined_20.
    + lia.
    + by_computation.
    + intros q r Hq Hlt Hr. rewrite test_worker_plans in Hq. each_plan Hq; simpl in Hlt; lia.
Defined.

(** ** Going to a version, up and down *)

(** Versions 10 and 30 applied, version 20 not. *)
Definition gap_state : State journal :=
  mkState
    {[ 10 := mkRow (VTime (test_clock 0)) false false;
       30 := mkRow (VTime (test_clock 1)) false false ]}
    ["create table t1;"; "create table t3;"] 2 [] true.

(** [Goto 20] migrates version 30 down and version 20 up. *)
Lemma Goto_reaches_target_witness :
  ∃ st',
    Worker_Goto test_env three_worker 20 4 gap_state = Some (Ok (), st') ∧
    no_failed (tbl st') ∧
    ∀ q, q ∈ schema_plans three_worker → is_Some (tbl st' !! mp_id q) ↔ mp_id q ≤ 20.
Proof.
  apply (Goto_reaches_target journal test_env three_worker 20 4 gap_state).
  - apply three_worker_ok.
  - no_failed_by_computation.
  - right. exists 1%nat. by_computation.
  - intros q r Hq Hlt Hr. rewrite three_worker_plans in Hq. each_plan Hq;
      simpl in Hlt; try lia. vm_compute in Hr. by injection Hr as <-.
  - apply three_actions_succeed.
  - rewrite three_worker_plans. simpl. lia.
Defined.

(** [Up] applies versions 20 and then nothing else is pending: the row of
    version 10 and that of version 30 stay as they were. *)
Lemma Up_applies_pending_witness :
  ∃ st' args,
    Worker_Up test_env three_worker 2 gap_state = Some (Ok (), st') ∧
    data st' = ["create table t1;"; "create table t3;"; "create table t2;"] ∧
    logs st' = [["migrated up version=20"]; args] ∧
    tbl st' !! 10 = Some (mkRow (VTime (test_clock 0)) false false) ∧
    tbl st' !! 30 = Some (mkRow (VTime (test_clock 1)) false false) ∧
    (∃ k, tbl st' !! 20 = Some (mkRow (VTime (test_clock k)) false false)) ∧
    no_failed (tbl st').
Proof.
  destruct (Up_applies_pending journal test_env three_worker 2 gap_state)
    as (st' & args & HU & Hd & Hl & Hold & Hnew & _ & Hnf).
  - apply three_worker_ok.
  - no_failed_by_computation.
  - vm_compute. done.
  - vm_compute. lia.
  - exists st', args. split; [exact HU|]. split; [rewrite Hd; by_computation|].
    split; [rewrite Hl; by_computation|].
    split; [apply Hold; by_computation|]. split; [apply Hold; by_computation|].
    split; [|exact Hnf].
    apply (Hnew (plan_of 20 "create table t2;" "drop table t2;")).
    + rewrite three_worker_plans. right. left.
    + by_computation.
Defined.

(** ** A step that fails inside a transaction *)

(** Three versions; the up command of version 2 fails. *)
Definition failing_schema : list (Defn journal) * Schema journal :=
  let '(h, s, l) := Define 1 [] empty_Schema in
  let h := Definition_Down "drop table a;" l (Definition_Up "create table a;" l h) in
  let '(h, s, l) := Define 2 h s in
  let h := Definition_Down "drop table b;" l (Definition_Up "FAIL" l h) in
  let '(h, s, l) := Define 3 h s in
  let h := Definition_Down "drop table c;" l (Definition_Up "create table c;" l h) in
  (h, s).

Lemma failing_schema_wf : wf_schema failing_schema.1 failing_schema.2.
Proof. wf_by_computation. Qed.

Definition failing_worker : Worker journal :=
  match NewWorker "sqlite3" failing_schema.1 failing_schema.2 with
  | Some (worker w) => w
  | _ => mkWorker empty_Schema sqlite
  end.

Lemma failing_worker_ok : worker_ok failing_worker.
Proof.
  apply (NewWorker_ok journal "sqlite3" failing_schema.1 failing_schema.2).
  - apply failing_schema_wf.
  - by_computation.
Qed.

(** [Up] applies version 1, fails at version 2 and does not try
    version 3; the failure is rolled back. *)
Lemma Up_stops_at_failure_witness :
  ∃ st',
    Worker_Up test_env failing_worker 3 empty_state
      = Some (Raise "2: syntax error", st') ∧
    logs st' = [["migrated up version=1"]] ∧
    (∃ k, tbl st' !! 1 = Some (mkRow (VTime (test_clock k)) false false)) ∧
    tbl st' !! 2 = None ∧
    tbl st' !! 3 = None ∧
    data st' = ["create table a;"] ∧
    no_failed (tbl st').
Proof.
  destruct (Up_stops_at_failure journal test_env failing_worker 3 empty_state
              [plan_of 1 "create table a;" "drop table a;"]
              [plan_of 3 "create table c;" "drop table c;"]
              (plan_of 2 "FAIL" "drop table b;")
              ["create table a;"] "syntax error")
    as (st' & HU & Hl & _ & Hpre & Hrest & Hlast).
  - apply failing_worker_ok.
  - no_failed_by_computation.
  - by_computation.
  - vm_compute. done.
  - by_computation.
  - simpl. lia.
  - change (in_tx (drv failing_worker) (mp_up (plan_of 2 "FAIL" "drop table b;")))
      with true in Hlast.
    destruct Hlast as (H2 & Hd & Hnf & _).
    exists st'. split; [exact HU|]. split; [exact Hl|].
    split; [apply (Hpre (plan_of 1 "create table a;" "drop table a;")); left|].
    split; [exact H2|].
    split; [apply (Hrest (plan_of 3 "create table c;" "drop table c;")); left|].
    split; [rewrite Hd; by_computation|exact Hnf].
Defined.

(** ** Rolling back *)

(** [Down] with version 10 locked rolls version 20 back and stops. *)
Lemma Down_rolls_back_witness :
  ∃ st' tail,
    Worker_Down test_env test_worker 2 locked_state = Some (Ok (), st') ∧
    data st' = ["create table t1;"; "create table t2;"; "drop table t2;"] ∧
    tbl st' !! 20 = None ∧
    tbl st' !! 10 = Some (mkRow (VTime (test_clock 0)) false true) ∧
    ∃ args, tail = [["locked version=10"]; args].
Proof.
  destruct (Down_rolls_back journal test_env test_worker 2 locked_state
              [plan_of 20 "create table t2;" "drop table t2;"]
              [plan_of 10 "create table t1;" "drop table t1;"])
    as (st' & tail & HD & Hd & _ & Ht & _ & Htail).
  - apply test_worker_ok.
  - no_failed_by_computation.
  - by_computation.
  - intros q Hq. apply list_elem_of_singleton in Hq as ->. eexists. split; by_computation.
  - intros q r [= <-] Hr. vm_compute in Hr. by injection Hr as <-.
  - vm_compute. done.
  - simpl. lia.
  - exists st', tail. split; [exact HD|]. split; [rewrite Hd; by_computation|].
    split; [rewrite Ht; by_computation|]. split; [rewrite Ht; by_computation|].
    exact Htail.
Defined.

(** [Up] and then [Down] on the schema of TestWorker. *)
Lemma Up_then_Down_witness :
  ∃ st1 st2,
    Worker_Up test_env test_worker 3 empty_state = Some (Ok (), st1) ∧
    Worker_Down test_env test_worker 3 st1 = Some (Ok (), st2) ∧
    tbl st2 = ∅ ∧
    data st2 = ["create table t1;"; "create table t2;"; "drop table t2;"; "drop table t1;"].
Proof.
  destruct (Up_then_Down journal test_env test_worker 3 empty_state)
    as (st1 & st2 & HU & _ & HD & Ht & Hd).
  - apply test_worker_ok.
  - reflexivity.
  - vm_compute. done.
  - vm_compute. done.
  - rewrite test_worker_plans. simpl. lia.
  - exists st1, st2. split; [exact HU|]. split; [exact HD|]. split; [exact Ht|].
    rewrite Hd. by_computation.
Defined.

(** ** Schemas with and without errors *)

(** The schema of TestWorker has no errors. *)
Lemma Err_nil_iff_witness :
  ∃ s' es,
    Err worker_schema.1 worker_schema.2 = Some (s', es) ∧
    (es = [] ↔
     errs worker_schema.2 = [] ∧
     ∀ id l d,
       definitions worker_schema.2 !! id = Some l → worker_schema.1 !! l = Some d →
       valid_definition (definitions worker_schema.2) d).
Proof.
  apply (Err_nil_iff journal worker_schema.1 worker_schema.2).
  - apply worker_schema_wf.
  - reflexivity.
Defined.

Lemma NewWorker_cases_witness :
  ∃ s' es,
    Err worker_schema.1 worker_schema.2 = Some (s', es) ∧
    NewWorker "sqlite3" worker_schema.1 worker_schema.2 = Some (worker (mkWorker s' sqlite)) ∧
    NewWorker "oracle" worker_schema.1 worker_schema.2
    = Some (no_driver journal "cannot find migration driver for oracle").
Proof.
  destruct (NewWorker_cases journal worker_schema.1 worker_schema.2 worker_schema_wf)
    as (s' & es & HErr & _ & Hnil).
  assert (es = []) as Hes.
  { assert (Err worker_schema.1 worker_schema.2
            = Some (default empty_Schema (complete worker_schema.1 worker_schema.2), []))
      as HErr' by by_computation.
    rewrite HErr' in HErr. by injection HErr as _ <-. }
  destruct (Hnil Hes) as [Hunknown Hknown].
  exists s', es. split; [exact HErr|]. split.
  - apply (Hknown "sqlite3" sqlite). left.
  - apply (Hunknown "oracle"). intros Hin.
    repeat (apply elem_of_cons in Hin as [Hin|Hin]; [discriminate|]).
    by apply elem_of_nil in Hin.
Defined.

(** A second up command given to version 1 after the schema was
    completed is not seen. *)
Lemma complete_caches_plans_witness :
  Err (Definition_Up "drop everything;" 0%nat replay_schema.1) replay_completed
  = Err replay_schema.1 replay_completed ∧
  plans (Define 30 replay_schema.1 replay_completed).1.2 = None.
Proof.
  destruct (complete_caches_plans journal replay_schema.1 replay_schema.2 replay_completed)
    as (_ & Hcached & Hdefine).
  - by_computation.
  - split; [|apply Hdefine].
    apply (Hcached (Definition_Up "drop everything;" 0%nat replay_schema.1)).
Defined.

(** ** The command line *)

Lemma parseVersion_round_trip_witness :
  parseVersion "20" = Ok 20 ∧
  parseVersion "-5" = Raise "database schema version cannot be negative: -5".
Proof.
  split.
  - apply (parseVersion_round_trip 20). lia.
  - apply (parseVersion_round_trip (-5)). lia.
Defined.

(** With version 20 locked in the table of three applied versions, the
    list starts at version 20. *)
Lemma list_shows_back_to_last_lock_witness :
  ∃ vs,
    Worker_Versions test_env three_worker (three_applied true false)
      = (Ok vs, after_init (three_applied true false)) ∧
    ID <$> list_shown true vs = [10; 20; 30] ∧
    ∀ v, v ∈ list_shown false vs ↔
         v ∈ vs ∧ (20 ≤ ID v ∨ tbl (three_applied true false) !! ID v = None).
Proof.
  destruct (list_shows_back_to_last_lock journal test_env three_worker
              (three_applied true false) three_worker_ok)
    as (vs & HV & Hall & _ & Hlock).
  exists vs. split; [exact HV|]. split.
  - rewrite Hall.
    assert ((Worker_Versions test_env three_worker (three_applied true false)).1
            = Ok vs) as Hvs by by rewrite HV.
    vm_compute in Hvs. injection Hvs as <-. reflexivity.
  - apply (Hlock 20 (mkRow (VTime (test_clock 1)) false true)).
    + by_computation.
    + reflexivity.
    + intros i r' Hr Hl. unfold three_applied in Hr. cbn [tbl] in Hr.
      apply lookup_insert_Some in Hr as [[<- _]|[_ Hr]]; [lia|].
      apply lookup_insert_Some in Hr as [[<- _]|[_ Hr]]; [lia|].
      apply lookup_singleton_Some in Hr as [_ <-]. done.
Defined.

(** ** No panic *)

Lemma worker_never_panics_witness :
  (∀ fuel r st',
     Worker_Up test_env test_worker fuel failed_state = Some (r, st') → r ≠ Panic) ∧
  (∀ id, (Worker_Force test_env test_worker id failed_state).1 ≠ Panic) ∧
  (Worker_Versions test_env test_worker failed_state).1 ≠ Panic.
Proof.
  destruct (worker_never_panics journal test_env test_worker failed_state test_worker_ok)
    as (HUp & _ & _ & HForce & _ & _ & _ & HVersions).
  split; [exact HUp|]. split; [exact HForce|exact HVersions].
Defined.

(** ** Messages *)

(** The list of errors of TestErrors. *)
Lemma Errors_Error_lines_witness :
  Errors_Error id id [mkError 1 "xxxx1"; mkError 2 "xxxx2"]
  = "1: xxxx1" +:+ newline +:+ "2: xxxx2".
Proof.
  apply (proj2 (Errors_Error_lines id id [mkError 1 "xxxx1"; mkError 2 "xxxx2"])
           (mkError 2 "xxxx2") "2"%char); reflexivity.
Defined.

(** A version defined without its migrations. *)
Definition bare_schema : list (Defn journal) * Schema journal :=
  let '(h, s, l) := Define 1 [] empty_Schema in (h, s).

Lemma Err_message_lines_witness :
  Errors_Error id id
    [mkError 1 "up migration not defined"; mkError 1 "down migration not defined"]
  = "1: up migration not defined" +:+ newline +:+ "1: down migration not defined".
Proof.
  apply (Err_message_lines journal id id bare_schema.1 bare_schema.2
           (default empty_Schema (complete bare_schema.1 bare_schema.2))).
  - reflexivity.
  - intros e He. by apply elem_of_nil in He.
  - by_computation.
Defined.

(** ** A first definition *)

(** Version 1 defined on an empty schema, with a command up and a Go
    function down. *)
Lemma Define_then_actions_compiles_witness :
  ∃ h1 s1 l ps p,
    Define 1 [] (@empty_Schema journal) = (h1, s1, l) ∧
    compile (Definition_DownAction (Some (DBFunc (good_func "undo"))) l
               (Definition_UpAction (Some (Command "create table t;")) l h1))
      (definitions s1) = Some ps ∧
    lookup_plan 1 ps = Some p ∧
    mp_up p = mkAction "create table t;" None None None ∧
    mp_down p = mkAction "" (Some (good_func "undo")) None None ∧
    mp_errs p = [].
Proof.
  destruct (Define_then_actions_compiles journal [] empty_Schema 1
              (Command "create table t;") (DBFunc (good_func "undo")))
    as (h1 & s1 & l & HD & _ & _ & _ & ps & p & Hc & Hl & Hup & Hdown & He).
  - apply wf_schema_empty.
  - reflexivity.
  - done.
  - done.
  - by exists h1, s1, l, ps, p.
Defined.
